(** * dynamo: pseudotime ordering and vector-field calculus

    A shallow embedding of the numerical core of
    [dynamo/tools/pseudotime.py], [dynamo/tools/utils_vecCalc.py] and
    [dynamo/tools/vector_calculus.py].

    Conventions of the embedding.
    - A numpy [float64] is idealised as a real number ([R]): rounding,
      NaN and infinities are outside the model.
    - A Python exception is a value [Raise e] of the [result] type; a call
      that returns is [Ok v].
    - A 1-D array is a [list R], a 2-D array the list of its rows, a 3-D
      array the list (axis 0) of lists (axis 1) of lists (axis 2).  An
      array with an empty leading axis does not remember the lengths of its
      other axes.
    - The [@timeit] decorator only times the call and is left out. *)

From Stdlib Require Import String.
From Stdlib Require Import Reals Lra Lia ZArith Bool Arith PeanoNat List.
Import ListNotations.

Set Implicit Arguments.
Open Scope R_scope.

(** ** Python exceptions as values *)

Module Py.

Inductive exn : Type :=
| ValueError
| IndexError
| KeyError
| TypeError
| AttributeError
| ZeroDivisionError
| Exception_.        (* a bare [raise Exception(...)] *)

Inductive result (A : Type) : Type :=
| Ok (a : A)
| Raise (e : exn).

Arguments Ok {A} a.
Arguments Raise {A} e.

Definition bind {A B : Type} (c : result A) (k : A -> result B) : result B :=
  match c with
  | Ok a => k a
  | Raise e => Raise e
  end.

Definition is_ok {A : Type} (c : result A) : bool :=
  match c with Ok _ => true | Raise _ => false end.

(** [seq[i]] for a non-negative index: [IndexError] past the end. *)
Definition getitem {A : Type} (l : list A) (i : nat) : result A :=
  match nth_error l i with
  | Some a => Ok a
  | None => Raise IndexError
  end.

(** [seq[i] = v] for a non-negative index. *)
Fixpoint setitem {A : Type} (l : list A) (i : nat) (v : A) : result (list A) :=
  match l, i with
  | [], _ => Raise IndexError
  | _ :: t, O => Ok (v :: t)
  | h :: t, S j =>
      match setitem t j v with
      | Ok t' => Ok (h :: t')
      | Raise e => Raise e
      end
  end.

(** A [for] loop whose body may raise: the first exception stops it. *)
Fixpoint mapM {A B : Type} (f : A -> result B) (l : list A) : result (list B) :=
  match l with
  | [] => Ok []
  | a :: t =>
      match f a with
      | Ok b =>
          match mapM f t with
          | Ok bs => Ok (b :: bs)
          | Raise e => Raise e
          end
      | Raise e => Raise e
      end
  end.

End Py.

Import Py.

Declare Scope py_scope.
Notation "x <- c ;; k" := (Py.bind c (fun x => k))
  (at level 61, c at next level, right associativity) : py_scope.
Notation "' p <- c ;; k" := (Py.bind c (fun x => let p := x in k))
  (at level 61, p pattern, c at next level, right associativity) : py_scope.
Open Scope py_scope.

(** ** numpy arrays *)

Module Np.

Definition vec := list R.
Definition mat := list vec.
Definition ten := list mat.

(** An array whose number of axes is only known at run time
    (the result of [np.squeeze], [flatten] or [dot]). *)
Inductive ndarray : Type :=
| Arr0 (x : R)
| Arr1 (v : vec)
| Arr2 (m : mat).

Definition ndim (a : ndarray) : nat :=
  match a with Arr0 _ => 0 | Arr1 _ => 1 | Arr2 _ => 2 end.

(** A function applied to every element. *)
Definition ndmap (f : R -> R) (a : ndarray) : ndarray :=
  match a with
  | Arr0 x => Arr0 (f x)
  | Arr1 v => Arr1 (map f v)
  | Arr2 m => Arr2 (map (map f) m)
  end.

(** [m.shape[1]] of an array with a row at least; an array without rows
    is [[]] whatever its width, and reads 0 here. *)
Definition ncols (m : mat) : nat := length (hd [] m).

(** [m[i, j]]. *)
Definition getitem2 (m : mat) (i j : nat) : result R :=
  row <- getitem m i ;; getitem row j.

Definition sum (v : vec) : R := fold_right Rplus 0 v.

(** [np.dot] of two 1-D arrays of one length. *)
Definition dot (u v : vec) : R := sum (map (fun p => fst p * snd p) (combine u v)).

(** [m[:, j]] *)
Definition col (m : mat) (j : nat) : vec := map (fun r => nth j r 0) m.

(** [m.T] *)
Definition transpose (m : mat) : mat := map (col m) (seq 0 (ncols m)).

(** [np.zeros(n)] *)
Definition zeros (n : nat) : vec := repeat 0 n.

(** [m[:, j]] with the bounds check of numpy. *)
Definition getcol (m : mat) (j : nat) : result vec :=
  mapM (fun r => getitem r j) m.

(** [u op v], element by element, on arrays of one length. *)
Definition zipwith (f : R -> R -> R) (u v : vec) : vec :=
  map (fun p => f (fst p) (snd p)) (combine u v).

(** [u op v] on 1-D arrays: equal lengths, or one of them of length one
    (broadcast); any other pair of lengths is a [ValueError]. *)
Definition elementwise (f : R -> R -> R) (u v : vec) : result vec :=
  if (length u =? length v)%nat then Ok (zipwith f u v)
  else if (length u =? 1)%nat then Ok (map (f (hd 0 u)) v)
  else if (length v =? 1)%nat then Ok (map (fun x => f x (hd 0 v)) u)
  else Raise ValueError.

(** [s * v] for a scalar [s]. *)
Definition scale (s : R) (v : vec) : vec := map (Rmult s) v.

(** [np.sum(v ** 2)] *)
Definition sumsq (v : vec) : R := sum (map (fun x => x ^ 2) v).

(** [np.dot(u, v)] on 1-D arrays: no broadcasting. *)
Definition np_dot (u v : vec) : result R :=
  if (length u =? length v)%nat then Ok (dot u v) else Raise ValueError.

(** [np.linalg.norm] of a 1-D array: the Euclidean norm. *)
Definition norm (v : vec) : R := sqrt (sumsq v).

(** [np.linalg.norm] of a 2-D array: the Frobenius norm. *)
Definition norm_fro (m : mat) : R := sqrt (sum (map sumsq m)).

(** [scipy.spatial.distance.euclidean(u, v)] *)
Definition euclidean (u v : vec) : result R :=
  if (length u =? length v)%nat
  then Ok (sqrt (sumsq (zipwith Rminus u v)))
  else Raise ValueError.

(** [np.outer(u, v)] *)
Definition outer (u v : vec) : mat := map (fun x => map (fun y => x * y) v) u.

(** [m.dot(v)] for a 2-D [m] and a 1-D [v]. *)
Definition matvec (m : mat) (v : vec) : result vec :=
  mapM (fun r => np_dot r v) m.

(** [a @ b] for 2-D arrays. *)
Definition matmul (a b : mat) : result mat :=
  if (ncols a =? length b)%nat
  then Ok (map (fun r => map (fun c => dot r c) (transpose b)) a)
  else Raise ValueError.

(** [np.squeeze] of an [n] x [m] array: every axis of length one goes. *)
Definition squeeze2 (n m : nat) (K : mat) : ndarray :=
  if (n =? 1)%nat then
    if (m =? 1)%nat then Arr0 (nth 0 (nth 0 K []) 0) else Arr1 (nth 0 K [])
  else if (m =? 1)%nat then Arr1 (map (fun r => nth 0 r 0) K)
  else Arr2 K.

(** The value an array of shape [(a, b)] takes in a slot of shape
    [(r, c)]: an axis of length one is repeated, any other mismatch is a
    [ValueError]. *)
Definition broadcast_row (c : nat) (v : vec) : result vec :=
  if (length v =? c)%nat then Ok v
  else if (length v =? 1)%nat then Ok (repeat (hd 0 v) c)
  else Raise ValueError.

Definition broadcast_to2 (r c : nat) (m : mat) : result mat :=
  rows <- mapM (broadcast_row c) m ;;
  if (length rows =? r)%nat then Ok rows
  else if (length rows =? 1)%nat then Ok (repeat (hd [] rows) r)
  else Raise ValueError.

(** [t[:, :, i]] *)
Definition slice_last (t : ten) (i : nat) : result mat :=
  mapM (fun plane => mapM (fun line => getitem line i) plane) t.

(** The [d1] x [d2] x [n] array [t] with [t[:, :, i] = ms[i]]. *)
Definition stack_last (d1 d2 : nat) (ms : list mat) : ten :=
  map (fun a => map (fun b => map (fun m => nth b (nth a m []) 0) ms)
                    (seq 0 d2)) (seq 0 d1).

End Np.

Import Np.

(** ** [dynamo/tools/pseudotime.py] *)

Module Pseudotime.

(** A [scipy.sparse] matrix as [minimum_spanning_tree] returns it: its
    order and its stored entries [(row, column, weight)]. *)
Record sparse : Type := Sparse {
  sp_order : nat;
  sp_entries : list (nat * nat * R) }.

(** An [igraph.Graph]: vertices [0 .. vcount-1] and directed edges. *)
Record Graph : Type := MkGraph {
  vcount : nat;
  es : list (nat * nat) }.

(** [ig.Graph.Weighted_Adjacency(matrix=m)]: one directed edge per stored
    entry. *)
Definition Weighted_Adjacency (m : sparse) : Graph :=
  {| vcount := sp_order m; es := map fst (sp_entries m) |}.

(** The number of edges between [v] and [u], in either direction
    (a loop counts twice, as igraph counts it). *)
Definition multiplicity (g : Graph) (v u : nat) : nat :=
  length (filter (fun e => (fst e =? v) && (snd e =? u)) (es g)) +
  length (filter (fun e => (fst e =? u) && (snd e =? v)) (es g)).

(** [g.neighbors(v, mode="all")]: by increasing vertex id. *)
Definition neighbors (g : Graph) (v : nat) : list nat :=
  flat_map (fun u => repeat u (multiplicity g v u)) (seq 0 (vcount g)).

(** [g.degree(v)] *)
Definition degree (g : Graph) (v : nat) : nat := length (neighbors g v).

(** [[v.index for v in g.vs.select(_degree_eq=1)]] *)
Definition select_degree_eq (g : Graph) (k : nat) : list nat :=
  filter (fun v => degree g v =? k) (seq 0 (vcount g)).

(** [g.vs.select(_degree_gt=k)] *)
Definition select_degree_gt (g : Graph) (k : nat) : list nat :=
  filter (fun v => k <? degree g v) (seq 0 (vcount g)).

(** [list.pop()]: the last element and the rest. *)
Definition pop (l : list nat) : option (nat * list nat) :=
  match rev l with
  | [] => None
  | x :: r => Some (x, rev r)
  end.

(** The [while stack:] loop of [igraph.Graph.dfs].  The top of the stack is
    the head of [stack]; every turn either drops one pending neighbour or
    one frame, so [fuel] bounds the number of turns. *)
Fixpoint dfs_loop (fuel : nat) (g : Graph) (stack : list (nat * list nat))
    (added : list bool) (vids parents : list nat) : option (list nat * list nat) :=
  match fuel with
  | O => None
  | S fuel' =>
      match stack with
      | [] => Some (vids, parents)
      | (vid, nbrs) :: below =>
          match pop nbrs with
          | Some (neighbor, nbrs') =>
              if nth neighbor added false
              then dfs_loop fuel' g ((vid, nbrs') :: below) added vids parents
              else
                let added' :=
                  firstn neighbor added ++ true :: skipn (S neighbor) added in
                dfs_loop fuel' g
                  ((neighbor, neighbors g neighbor) :: (vid, nbrs') :: below)
                  added' (vids ++ [neighbor]) (parents ++ [vid])
          | None => dfs_loop fuel' g below added vids parents
          end
      end
  end.

(** [g.dfs(vid, mode="all")]: the vertices in the order of their visit and,
    aligned with them, the vertex each was reached from; the root is its
    own parent, as in python-igraph before 0.10 (later releases give the
    root the parent -1; the other entries are the same).  One turn per
    vertex and per end of an edge is enough ([dfs_returns] below), so the
    last case does not occur. *)
Definition dfs (g : Graph) (vid : nat) : result (list nat * list nat) :=
  if vid <? vcount g then
    let added := firstn vid (repeat false (vcount g)) ++
                 true :: skipn (S vid) (repeat false (vcount g)) in
    match dfs_loop (S (vcount g + list_sum (map (degree g) (seq 0 (vcount g))))) g
            [(vid, neighbors g vid)] added [vid] [vid] with
    | Some r => Ok r
    | None => Raise Exception_
    end
  else Raise ValueError.

(** A row of the ordering table ([ordering_df]). *)
Record order_row : Type := MkRow {
  cell_index : nat;
  cell_pseudo_state : nat;
  pseudo_time : R;
  parent : Z }.

(** The loop variables of [get_order_from_DDRTree]. *)
Record order_state : Type := MkOrderState {
  curr_state : nat;
  pseudotimes : list R;
  ordering_dict : list order_row }.

(** One turn of [for i in range(len(orders))]. *)
Definition order_step (dp : mat) (dp_mst : Graph) (orders pres : list nat)
    (st : order_state) (i : nat) : result order_state :=
  curr_node <- getitem orders i ;;
  pre <- getitem pres i ;;
  '(parent_node, curr_node_pseudotime, curr_state') <-
    (if 0 <? pre then
       parent_node_pseudotime <- getitem (pseudotimes st) pre ;;
       d <- getitem2 dp curr_node pre ;;
       Ok (Z.of_nat pre, parent_node_pseudotime + d,
           if 2 <? degree dp_mst pre then S (curr_state st) else curr_state st)
     else Ok ((-1)%Z, 0, curr_state st)) ;;
  pseudotimes' <- setitem (pseudotimes st) curr_node curr_node_pseudotime ;;
  now <- getitem pseudotimes' curr_node ;;
  Ok {| curr_state := curr_state';
        pseudotimes := pseudotimes';
        ordering_dict := ordering_dict st ++
          [ {| cell_index := curr_node; cell_pseudo_state := curr_state';
               pseudo_time := now; parent := parent_node |} ] |}.

Fixpoint order_loop (dp : mat) (dp_mst : Graph) (orders pres : list nat)
    (st : order_state) (range : list nat) : result order_state :=
  match range with
  | [] => Ok st
  | i :: range' =>
      st' <- order_step dp dp_mst orders pres st i ;;
      order_loop dp dp_mst orders pres st' range'
  end.

(** [ordering_df.sort_index()]: rows by increasing [cell_index]. *)
Fixpoint insert_row (r : order_row) (l : list order_row) : list order_row :=
  match l with
  | [] => [r]
  | h :: t =>
      if cell_index r <? cell_index h then r :: l else h :: insert_row r t
  end.

Definition sort_index (l : list order_row) : list order_row :=
  fold_left (fun acc r => insert_row r acc) l [].

Definition get_order_from_DDRTree (dp : mat) (mst : sparse) (root_cell : nat)
    : result (list order_row) :=
  let dp_mst := Weighted_Adjacency mst in
  let st0 := {| curr_state := 0%nat; pseudotimes := zeros (ncols dp);
                ordering_dict := [] |} in
  '(orders, pres) <- dfs dp_mst root_cell ;;
  st <- order_loop dp dp_mst orders pres st0 (seq 0 (length orders)) ;;
  Ok (sort_index (ordering_dict st)).

(** [ordering_df.loc[i]] *)
Definition loc (df : list order_row) (i : nat) : result order_row :=
  match find (fun r => cell_index r =? i) df with
  | Some r => Ok r
  | None => Raise KeyError
  end.

Definition project_point_to_line_segment (p : vec) (df : mat) : result vec :=
  A <- getcol df 0 ;;
  B <- getcol df 1 ;;
  AB <- elementwise Rminus B A ;;
  let AB_squared := sumsq AB in
  if Req_EM_T AB_squared 0 then Ok A
  else
    Ap <- elementwise Rminus p A ;;
    d <- np_dot Ap AB ;;
    let t := d / AB_squared in
    if Rlt_dec t 0 then Ok A
    else if Rgt_dec t 1 then Ok B
    else elementwise Rplus A (scale t AB).

Definition proj_point_on_line (point : vec) (line : mat) : result vec :=
  l0 <- getcol line 0 ;;
  l1 <- getcol line 1 ;;
  ap <- elementwise Rminus point l0 ;;
  ab <- elementwise Rminus l1 l0 ;;
  n <- np_dot ap ab ;;
  d <- np_dot ab ab ;;
  elementwise Rplus l0 (scale (n / d) ab).

(** The tuple [project2MST] returns.  Its fields are computed with
    [scipy]'s [cdist], [pdist] and [minimum_spanning_tree]; [order_cells]
    only consumes them. *)
Record projection : Type := MkProjection {
  cellPairwiseDistances : mat;
  P : mat;
  closest_vertex : list nat;
  dp_mst : sparse }.

(** What [order_cells] leaves in [adata]. *)
Record cell_order : Type := MkCellOrder {
  Pseudotime : list R;                      (* adata.obs["Pseudotime"] *)
  cell_pseudo_state_obs : option (list nat); (* adata.obs["cell_pseudo_state"], when written *)
  root_cell_uns : nat;                      (* adata.uns["cell_order"]["root_cell"] *)
  minSpanningTree : sparse;                 (* adata.uns["cell_order"]["minSpanningTree"] *)
  pr_graph_cell_proj_closest_vertex : list nat;
  branch_points : list nat }.               (* adata.uns["cell_order"]["branch_points"] *)

(** [adata.obs[key] = values]: one value per cell. *)
Definition set_obs {A : Type} (n_obs : nat) (values : list A) : result (list A) :=
  if (length values =? n_obs)%nat then Ok values else Raise ValueError.

(** [np.where(a == x)[0]] *)
Definition where_eq (a : list nat) (x : nat) : list nat :=
  map fst (filter (fun p => snd p =? x) (combine (seq 0 (length a)) a)).

(** [c[np.isin(c, l)]] *)
Definition isin_select (c l : list nat) : list nat :=
  filter (fun x => existsb (Nat.eqb x) l) c.

(** Lines 294-300 of [order_cells].  With no cell on the root vertex the
    candidate is the scalar [root_cell] itself: a Python [int] (the
    [root_state=None] route) cannot be indexed, a numpy integer (the
    route through a state) behaves as a one-element array. *)
Definition refine_root (root_state : option nat) (root_cell : nat)
    (closest : list nat) (tip_leaves : list nat) : result nat :=
  cells_mapped_to_graph_root <-
    match where_eq closest root_cell with
    | [] => match root_state with
            | None => Raise TypeError
            | Some _ => Ok [root_cell]
            end
    | c => Ok c
    end ;;
  getitem (isin_select cells_mapped_to_graph_root tip_leaves) 0.

(** [order_cells] from the first ordering on (lines 283-316).  [dp] and
    [mst] are the distances and the spanning tree of the principal points,
    [root_cell] is what [select_root_cell] returned and [proj] what
    [project2MST(mst, Z, Y, project_point_to_line_segment)] returned.  A
    vertex index is never NaN, so the re-selection under [np.isnan] is
    not taken. *)
Definition order_cells (n_obs : nat) (dp : mat) (mst : sparse)
    (root_cell : nat) (root_state : option nat) (proj : projection)
    : result cell_order :=
  cc_ordering <- get_order_from_DDRTree dp mst root_cell ;;
  _ <- set_obs n_obs (map pseudo_time cc_ordering) ;;
  let old_mst_graph := Weighted_Adjacency mst in
  let pr_graph_cell_proj_tree := dp_mst proj in
  let tip_leaves := select_degree_eq old_mst_graph 1 in
  root_cell' <- refine_root root_state root_cell (closest_vertex proj) tip_leaves ;;
  cc_ordering_new_pseudotime <- get_order_from_DDRTree dp mst root_cell' ;;
  pt <- set_obs n_obs (map pseudo_time cc_ordering_new_pseudotime) ;;
  states <-
    match root_state with
    | None =>
        rows <- mapM (loc cc_ordering) (closest_vertex proj) ;;
        s <- set_obs n_obs (map cell_pseudo_state rows) ;;
        Ok (Some s)
    | Some _ => Ok None
    end ;;
  let pr_graph_cell_proj_tree_graph := Weighted_Adjacency pr_graph_cell_proj_tree in
  Ok {| Pseudotime := pt;
        cell_pseudo_state_obs := states;
        root_cell_uns := root_cell';
        minSpanningTree := pr_graph_cell_proj_tree;
        pr_graph_cell_proj_closest_vertex := closest_vertex proj;
        branch_points := select_degree_gt pr_graph_cell_proj_tree_graph 2 |}.

End Pseudotime.

(** ** [dynamo/tools/utils_vecCalc.py] *)

Module VecCalc.

(** [cdist(x, y, 'sqeuclidean')]: the rows must have one length. *)
Definition sqeuclidean (u v : vec) : result R :=
  if (length u =? length v)%nat
  then Ok (sumsq (zipwith Rminus u v))
  else Raise ValueError.

Definition cdist_sqeuclidean (x y : mat) : result mat :=
  mapM (fun xi => mapM (fun yj => sqeuclidean xi yj) y) x.

(** The block [D[i]] of the pairwise differences,
    [D[i, k, j] = x[i, k] - y[j, k]]: rows [k], columns [j]. *)
Definition D_block (xi : vec) (y : mat) : result mat :=
  ds <- mapM (fun yj => elementwise Rminus xi yj) y ;;
  let d := match ds with [] => length xi | d0 :: _ => length d0 end in
  Ok (map (fun k => map (fun dj => nth k dj 0) ds) (seq 0 d)).

(** [np.sum(D[i] ** 2, 0)] over the [m] control points. *)
Definition sum_sq_axis (m : nat) (Di : mat) : vec :=
  map (fun j => sum (map (fun row => nth j row 0 ^ 2) Di)) (seq 0 m).

Definition con_K (x y : mat) (beta : R) (method : string) (return_d : bool)
    : result (ndarray * option ten) :=
  if String.eqb method "cdist" && negb return_d then
    K <- cdist_sqeuclidean x y ;;
    let K := if (length K =? 1)%nat then Arr1 (concat K) else Arr2 K in
    Ok (ndmap exp (ndmap (Rmult (- beta)) K), None)
  else
    let n := length x in
    let m := length y in
    D <- mapM (fun xi => D_block xi y) x ;;
    let K := squeeze2 n m (map (sum_sq_axis m) D) in
    let K := ndmap exp (ndmap (Rmult (- beta)) K) in
    if return_d then Ok (K, Some D) else Ok (K, None).

(** The fitted model: a key that is absent is [None]. *)
Record vf_dict : Type := MkVf {
  X_ctrl : option mat;
  beta : option R;
  C : option mat;
  sigma : option R;
  eta : option R;
  div_cur_free_kernels : option bool }.

(** [d[key]] *)
Definition lookup {A : Type} (field : option A) : result A :=
  match field with Some a => Ok a | None => Raise KeyError end.

(** [K.dot(C)] for a 2-D [C]. *)
Definition dot_mat (K : ndarray) (c : mat) : result ndarray :=
  match K with
  | Arr0 k => Ok (Arr2 (map (scale k) c))
  | Arr1 v =>
      if (length v =? length c)%nat
      then Ok (Arr1 (map (fun cj => dot v cj) (transpose c)))
      else Raise ValueError
  | Arr2 a => r <- matmul a c ;; Ok (Arr2 r)
  end.

(** [K.dot(c)] for a 1-D [c]. *)
Definition dot_vec (K : ndarray) (c : vec) : result ndarray :=
  match K with
  | Arr0 k => Ok (Arr1 (scale k c))
  | Arr1 v => r <- np_dot v c ;; Ok (Arr0 r)
  | Arr2 a => r <- matvec a c ;; Ok (Arr1 r)
  end.

(** The points a kernel is built on: [x[None, :]] for a 1-D [x], [x] for
    a 2-D one; the kernels refuse a 0-d array. *)
Definition as_points (x : ndarray) : result mat :=
  match x with
  | Arr1 v => Ok [v]
  | Arr2 m => Ok m
  | Arr0 _ => Raise ValueError
  end.

Section VectorField.

(** [con_K_div_cur_free(x, y, sigma, eta)]: the combined, divergence-free
    and curl-free block kernels.  No property below depends on how they are
    built. *)
Variable con_K_div_cur_free : mat -> mat -> R -> R -> result (mat * mat * mat).

Definition vector_field_function (x : ndarray) (vf : vf_dict)
    (dim : option nat) (kernel : string) : result ndarray :=
  let has_div_cur_free_kernels :=
    match div_cur_free_kernels vf with Some _ => true | None => false end in
  K <- (if has_div_cur_free_kernels then
          kernel_ind <-
            (if String.eqb kernel "full" then Ok 0%nat
             else if String.eqb kernel "df_kernel" then Ok 1%nat
             else if String.eqb kernel "cf_kernel" then Ok 2%nat
             else Raise ValueError) ;;
          xc <- lookup (X_ctrl vf) ;;
          s <- lookup (sigma vf) ;;
          e <- lookup (eta vf) ;;
          x <- as_points x ;;
          '(G, df_kernel, cf_kernel) <- con_K_div_cur_free x xc s e ;;
          Ok (Arr2 (match kernel_ind with
                    | O => G
                    | S O => df_kernel
                    | _ => cf_kernel
                    end))
        else
          xc <- lookup (X_ctrl vf) ;;
          b <- lookup (beta vf) ;;
          x <- as_points x ;;
          '(K, _) <- con_K x xc b "cdist" false ;;
          Ok K) ;;
  match dim with
  | Some j =>
      if has_div_cur_free_kernels
      then c <- lookup (C vf) ;; dot_mat K c
      else c <- lookup (C vf) ;; cj <- getcol c j ;; dot_vec K cj
  | None => c <- lookup (C vf) ;; dot_mat K c
  end.

End VectorField.

(** [con_K(x, y, beta, return_d=True)]: the kernel and the differences. *)
Definition con_K_d (x y : mat) (b : R) : result (ndarray * ten) :=
  r <- con_K x y b "cdist" true ;;
  match snd r with
  | Some D => Ok (fst r, D)
  | None => Raise TypeError
  end.

(** [a * K] for a 2-D [a]: a 1-D [K] is aligned with the last axis of
    [a]; between two 2-D arrays an axis of length one is repeated. *)
Definition mul_broadcast (a : mat) (K : ndarray) : result mat :=
  match K with
  | Arr0 k => Ok (map (scale k) a)
  | Arr1 v => mapM (fun r => elementwise Rmult r v) a
  | Arr2 b =>
      if (length a =? length b)%nat
      then mapM (fun p => elementwise Rmult (fst p) (snd p)) (combine a b)
      else if (length a =? 1)%nat
      then mapM (fun rb => elementwise Rmult (hd [] a) rb) b
      else if (length b =? 1)%nat
      then mapM (fun ra => elementwise Rmult ra (hd [] b)) a
      else Raise ValueError
  end.

(** An axis of length one is read at index 0 whatever the index asked
    (numpy's broadcasting of a labelled [einsum] axis). *)
Definition bnth {A : Type} (d : A) (l : list A) (i : nat) : A :=
  if (length l =? 1)%nat then nth 0 l d else nth i l d.

(** The lengths one label takes in the operands agree up to broadcasting. *)
Definition compatible (sizes : list nat) : bool :=
  forallb (fun s => (s =? list_max sizes)%nat || (s =? 1)%nat) sizes.

(** [np.einsum('nm, mi, njm -> ijn', K, C, D)] *)
Definition einsum_nm_mi_njm_ijn (K c : mat) (D : ten) : result ten :=
  let sizes_n := [length K; length D] in
  let sizes_m := [ncols K; length c; length (hd [] (hd [] D))] in
  if compatible sizes_n && compatible sizes_m then
    Ok (map (fun i =>
          map (fun j =>
            map (fun p =>
              sum (map (fun q =>
                     bnth 0 (bnth [] K p) q
                     * nth i (bnth [] c q) 0
                     * bnth 0 (nth j (bnth [] D p) []) q)
                   (seq 0 (list_max sizes_m))))
              (seq 0 (list_max sizes_n)))
            (seq 0 (length (hd [] D))))
          (seq 0 (ncols c)))
  else Raise ValueError.

(** What [Jacobian_rkhs_gaussian] returns: a [d] x [d] matrix for one
    point, a [d] x [d] x [n] array for [n] points. *)
Inductive jacobian : Type :=
| JMat (m : mat)
| JTen (t : ten).

(** [(vf_dict['C'].T * K) @ D[0].T] at one point [xi]. *)
Definition jac_point (xi : vec) (vf : vf_dict) : result mat :=
  xc <- lookup (X_ctrl vf) ;;
  b <- lookup (beta vf) ;;
  '(K, D) <- con_K_d [xi] xc b ;;
  c <- lookup (C vf) ;;
  ck <- mul_broadcast (transpose c) K ;;
  D0 <- getitem D 0 ;;
  matmul ck (transpose D0).

Definition Jacobian_rkhs_gaussian (x : ndarray) (vf : vf_dict) (vectorize : bool)
    : result jacobian :=
  match x with
  | Arr1 v =>
      J <- jac_point v vf ;;
      b <- lookup (beta vf) ;;
      Ok (JMat (map (scale (-2 * b)) J))
  | Arr2 x =>
      if negb vectorize then
        let d := ncols x in
        Js <- mapM (fun xi => J <- jac_point xi vf ;; broadcast_to2 d d J) x ;;
        b <- lookup (beta vf) ;;
        Ok (JTen (map (map (scale (-2 * b))) (stack_last d d Js)))
      else
        xc <- lookup (X_ctrl vf) ;;
        b <- lookup (beta vf) ;;
        '(K, D) <- con_K_d x xc b ;;
        K <- match K with
             | Arr1 k => Ok [k]          (* K.ndim == 1: K[None, :] *)
             | Arr2 k => Ok k
             | Arr0 _ => Raise ValueError  (* einsum: too many subscripts *)
             end ;;
        c <- lookup (C vf) ;;
        J <- einsum_nm_mi_njm_ijn K c D ;;
        Ok (JTen (map (map (scale (-2 * b))) J))
  | Arr0 _ =>
      if negb vectorize then Raise ValueError   (* n, d = x.shape *)
      else
        xc <- lookup (X_ctrl vf) ;;
        b <- lookup (beta vf) ;;
        Raise IndexError                        (* x.shape[0] *)
  end.

(** [acceleration_(v, J)] for a 1-D [v]: the column [J.dot(v[:, None])]. *)
Definition acceleration_ (v : vec) (J : mat) : result mat :=
  r <- matvec J v ;; Ok (map (fun x => [x]) r).

(** [curvature_(a, v)] for a 1-D [v]. *)
Definition curvature_ (a v : vec) : R :=
  norm_fro (outer v a) / norm v ^ 3.

(** [torsion_(v, J, a)] for a 1-D [v]. *)
Definition torsion_ (v : vec) (J : mat) (a : vec) : result vec :=
  Ja <- matvec J a ;;
  r <- matvec (outer v a) Ja ;;
  Ok (map (fun x => x / norm_fro (outer v a) ^ 2) r).

Section Batched.

(** The vector field and its Jacobian on a whole sample: [vf(X)] is
    [n] x [d], [f_jac(X)] is [d] x [d] x [n]. *)
Variable vf : mat -> result mat.
Variable f_jac : mat -> result ten.

(** [compute_acceleration(vf, f_jac, X, return_all=True)] *)
Definition compute_acceleration (X : mat) : result (mat * ten * mat) :=
  let n := length X in
  v_ <- vf X ;;
  J_ <- f_jac X ;;
  acce <- mapM (fun i =>
                  v <- getitem v_ i ;;
                  J <- slice_last J_ i ;;
                  a <- acceleration_ v J ;;
                  broadcast_row (ncols X) (concat a))
               (seq 0 n) ;;
  Ok (v_, J_, acce).

Definition compute_curvature (X : mat) : result vec :=
  let n := length X in
  '(v, _, a) <- compute_acceleration X ;;
  mapM (fun i =>
          ai <- getitem a i ;;
          vi <- getitem v i ;;
          Ok (curvature_ ai vi))
       (seq 0 n).

Definition compute_torsion (X : mat) : result (list mat) :=
  if negb (ncols X =? 3)%nat then Raise Exception_
  else
    let n := length X in
    '(v, J, a) <- compute_acceleration X ;;
    mapM (fun i =>
            vi <- getitem v i ;;
            Ji <- slice_last J i ;;
            ai <- getitem a i ;;
            t <- torsion_ vi Ji ai ;;
            broadcast_to2 (ncols X) (ncols X) [t])
         (seq 0 n).

End Batched.

(** [_curl(f, x, jac=jac)] *)
Definition _curl (jac : mat) : result vec :=
  j21 <- getitem2 jac 2 1 ;;
  j12 <- getitem2 jac 1 2 ;;
  j02 <- getitem2 jac 0 2 ;;
  j20 <- getitem2 jac 2 0 ;;
  j10 <- getitem2 jac 1 0 ;;
  j01 <- getitem2 jac 0 1 ;;
  Ok [j21 - j12; j02 - j20; j10 - j01].

(** [curl2d(f, x, jac=jac)] *)
Definition curl2d (jac : mat) : result R :=
  j10 <- getitem2 jac 1 0 ;;
  j01 <- getitem2 jac 0 1 ;;
  Ok (j10 - j01).

(** The array [compute_curl] fills: [np.zeros(n)] in two dimensions,
    [np.zeros((n, 2, 2))] otherwise. *)
Inductive curl_array : Type :=
| Curl1 (c : vec)
| Curl3 (c : list mat).

(** [compute_curl(f_jac, X)]; here [f_jac] is applied to one point. *)
Definition compute_curl (f_jac : vec -> result mat) (X : mat) : result curl_array :=
  if (3 <? ncols X)%nat then Raise Exception_
  else if (ncols X =? 2)%nat then
    c <- mapM (fun xi => J <- f_jac xi ;; curl2d J) X ;;
    Ok (Curl1 c)
  else
    c <- mapM (fun xi => J <- f_jac xi ;; w <- _curl J ;; broadcast_to2 2 2 [w]) X ;;
    Ok (Curl3 c).

End VecCalc.

(** ** [dynamo/tools/vector_calculus.py] *)

Module VectorCalculus.

(** [np.atleast_2d] *)
Definition atleast_2d (a : ndarray) : mat :=
  match a with
  | Arr0 x => [[x]]
  | Arr1 v => [v]
  | Arr2 m => m
  end.

(** [Js[:, :, i:j]] *)
Definition slice_range (Js : ten) (i j : nat) : ten :=
  map (map (fun line => firstn (j - i) (skipn i line))) Js.

(** [np.transpose(r, axes=(2, 0, 1))] *)
Definition transpose_201 (r : ten) : ten :=
  map (fun p => map (map (fun line => nth p line 0)) r)
      (seq 0 (length (hd [] (hd [] r)))).

(** [np.transpose(r, axes=(1, 2, 0))] *)
Definition transpose_120 (r : ten) : ten :=
  stack_last (length (hd [] r)) (length (hd [] (hd [] r))) r.

(** [np.vstack] of arrays that agree on their trailing axes. *)
Definition vstack (l : list ten) : result ten :=
  match l with
  | [] => Raise ValueError
  | _ => Ok (concat l)
  end.

Definition transform_jacobian (Js : ten) (Qi Qj : mat) : result ten :=
  let d1 := length Qi in
  let d2 := length Qj in
  let n := length (hd [] (hd [] Js)) in
  ms <- mapM (fun i =>
                J <- slice_last Js i ;;
                QiJ <- matmul Qi J ;;
                r <- matmul QiJ (transpose Qj) ;;
                broadcast_to2 d1 d2 r)
             (seq 0 n) ;;
  Ok (stack_last d1 d2 ms).

(** [range(0, n, step)] for a positive [step]. *)
Definition range_step (n step : nat) : list nat :=
  map (fun c => (c * step)%nat) (seq 0 ((n + step - 1) / step)).

Section Workers.

(** [mp.cpu_count()] *)
Variable cpu_count : Z.

(** [subset_jacobian_transformation(fjac, X, Qi, Qj, cores)]; the pool's
    [starmap] returns the results of the chunks in the order of the
    chunks. *)
Definition subset_jacobian_transformation (fjac : mat -> result ten)
    (X Qi Qj : ndarray) (cores : option Z) : result ten :=
  let X := atleast_2d X in
  let Qi := atleast_2d Qi in
  let Qj := atleast_2d Qj in
  let n := length X in
  Js <- fjac X ;;
  match cores with
  | Some 1%Z => transform_jacobian Js Qi Qj
  | _ =>
      let cores := match cores with Some c => c | None => cpu_count end in
      if (cores =? 0)%Z then Raise ZeroDivisionError
      else if (cores <? 0)%Z then Raise ValueError
      else
        let n_j_per_core := ((n + Z.to_nat cores - 1) / Z.to_nat cores)%nat in
        if (n_j_per_core =? 0)%nat then Raise ValueError   (* range() step 0 *)
        else
          let JJ := map (fun i => slice_range Js i (i + n_j_per_core))
                        (range_step n n_j_per_core) in
          ret <- mapM (fun J => transform_jacobian J Qi Qj) JJ ;;
          stacked <- vstack (map transpose_201 ret) ;;
          Ok (transpose_120 stacked)
  end.

End Workers.

End VectorCalculus.

(** * Formulas of the specification, shapes and sample inputs *)

Import Pseudotime VecCalc VectorCalculus.

Unset Implicit Arguments.

(** ** Formulas of the specification *)

(** The point [A + t * (B - A)] of the line through [A] and [B]. *)
Definition point_on (A B : vec) (t : R) : vec :=
  zipwith Rplus A (scale t (zipwith Rminus B A)).

(** The Euclidean distance between two points. *)
Definition dist (u v : vec) : R := sqrt (sumsq (zipwith Rminus u v)).

(** The kernel of the specification: entry [(i, j)] is
    [exp (- beta * |x_i - y_j|^2)]. *)
Definition gaussian_kernel (x y : mat) (beta : R) : mat :=
  map (fun xi => map (fun yj => exp (- beta * sumsq (zipwith Rminus xi yj))) y) x.

(** The differences of the specification: [D[i, k, j] = x[i, k] - y[j, k]]
    for points of dimension [d]. *)
Definition pairwise_differences (d : nat) (x y : mat) : ten :=
  map (fun xi => map (fun k => map (fun yj => nth k xi 0 - nth k yj 0) y)
                     (seq 0 d)) x.

(** The squared distances [|x_i - y_j|^2]. *)
Definition sq_distances (x y : mat) : mat :=
  map (fun xi => map (fun yj => sumsq (zipwith Rminus xi yj)) y) x.

(** The term of the control point [yc = (y_q, C_q)] in the entry [(i, j)]
    of the Jacobian at the point [xp]:
    [C[q, i] * K[p, q] * (x[p, j] - y[q, j])]. *)
Definition ctrl_term (b : R) (i j : nat) (xp : vec) (yc : vec * vec) : R :=
  nth i (snd yc) 0
  * exp (- b * sumsq (zipwith Rminus xp (fst yc)))
  * (nth j xp 0 - nth j (fst yc) 0).

(** The closed form of the specification,
    [J[i, j, p] = -2 beta * sum_q C[q, i] * K[p, q] * (x[p, j] - y[q, j])]
    with [K[p, q] = exp (- beta * |x_p - y_q|^2)]: the entry of
    [-2 beta (C^T . K) D^T] at the point [x_p]. *)
Definition jacobian_closed_form (d : nat) (x xc c : mat) (b : R) : ten :=
  map (fun i =>
    map (fun j =>
      map (fun xp => -2 * b * sum (map (ctrl_term b i j xp) (combine xc c))) x)
      (seq 0 d))
    (seq 0 d).

(** The cross product of two vectors of 3-D space. *)
Definition cross (v a : vec) : vec :=
  [ nth 1 v 0 * nth 2 a 0 - nth 2 v 0 * nth 1 a 0;
    nth 2 v 0 * nth 0 a 0 - nth 0 v 0 * nth 2 a 0;
    nth 0 v 0 * nth 1 a 0 - nth 1 v 0 * nth 0 a 0 ].

(** The curvature of the specification and of the docstring of
    [compute_curvature]: [|v x a| / |v|^3]. *)
Definition curvature_formula (a v : vec) : R :=
  norm (cross v a) / norm v ^ 3.

(** The torsion of the specification and of the docstring of
    [compute_torsion]: [(v x a) . (J a) / |v x a|^2]. *)
Definition torsion_formula (v : vec) (J : mat) (a : vec) : result R :=
  Ja <- matvec J a ;;
  Ok (dot (cross v a) Ja / norm (cross v a) ^ 2).

(** The transformation [Qi @ J @ Qj.T] of the Jacobian of the point [i],
    as [transform_jacobian] writes it into its result. *)
Definition transform_point (Js : ten) (Qi Qj : mat) (i : nat) : result mat :=
  J <- slice_last Js i ;;
  QiJ <- matmul Qi J ;;
  r <- matmul QiJ (transpose Qj) ;;
  broadcast_to2 (length Qi) (length Qj) r.

(** ** Shapes *)

(** An [r] x [c] matrix. *)
Definition rect2 (r c : nat) (m : mat) : Prop :=
  length m = r /\ Forall (fun row => length row = c) m.

(** An [a] x [b] x [n] array. *)
Definition rect3 (a b n : nat) (t : ten) : Prop :=
  length t = a /\
  Forall (fun plane => length plane = b /\
                       Forall (fun line => length line = n) plane) t.

(** ** The measure of the traversal *)

(** The turns still owed by the vertices not yet visited: one for the
    frame of each and one for each of its neighbours. *)
Fixpoint unvisited (g : Graph) (k : nat) (added : list bool) : nat :=
  match added with
  | [] => 0
  | b :: t => (if b then 0 else S (degree g k)) + unvisited g (S k) t
  end.

(** The turns owed by the frames of the stack. *)
Fixpoint pending (stack : list (nat * list nat)) : nat :=
  match stack with
  | [] => 0
  | fr :: below => S (length (snd fr)) + pending below
  end.

(** ** Sample inputs *)

(** Two principal points at distance 1, joined by the one tree edge. *)
Definition dp_pair : mat := [[0; 1]; [1; 0]].

Definition mst_pair : sparse :=
  {| sp_order := 2; sp_entries := [(0%nat, 1%nat, 1)] |}.

(** Four principal points on a line at 0, 1, 3 and 6, joined in that
    order; four cells at 0, 3, 1 and 6, so that cells 1 and 2 sit on the
    principal points 2 and 1. *)
Definition dp_line : mat :=
  [[0; 1; 3; 6]; [1; 0; 2; 5]; [3; 2; 0; 3]; [6; 5; 3; 0]].

Definition mst_line : sparse :=
  {| sp_order := 4;
     sp_entries := [(0%nat, 1%nat, 1); (1%nat, 2%nat, 2); (2%nat, 3%nat, 3)] |}.

(** What [project2MST] returns for them: the cells project onto
    themselves, the distances between them get the floor 1 off the
    diagonal, and their spanning tree is the path 0 - 2 - 1 - 3. *)
Definition proj_line : projection :=
  {| cellPairwiseDistances :=
       [[0; 4; 2; 7]; [4; 0; 3; 4]; [2; 3; 0; 6]; [7; 4; 6; 0]];
     P := [[0; 3; 1; 6]; [0; 0; 0; 0]];
     closest_vertex := [0; 2; 1; 3]%nat;
     dp_mst := {| sp_order := 4;
                  sp_entries := [(0%nat, 2%nat, 2); (1%nat, 2%nat, 3);
                                 (1%nat, 3%nat, 4)] |} |}.

(** A Gaussian model with one control point at the origin and no
    [div_cur_free_kernels] key. *)
Definition vf_one_ctrl : vf_dict :=
  {| X_ctrl := Some [[0]]; beta := Some 1; C := Some [[1]];
     sigma := None; eta := None; div_cur_free_kernels := None |}.

(** One point of 3-D space with velocity [e1] and a Jacobian that sends
    [e1] to [e2] and [e2] to [e3]. *)
Definition J_shift : mat := [[0; 0; 0]; [1; 0; 0]; [0; 1; 0]].

Definition vf_e1 (X : mat) : result mat := Ok (map (fun _ => [1; 0; 0]) X).

Definition f_jac_shift (X : mat) : result ten :=
  Ok (stack_last 3 3 (map (fun _ => J_shift) X)).

(** No point, in the plane: a Jacobian function returns the 2 x 2 x 0
    array. *)
Definition fjac_no_point (X : mat) : result ten := Ok [[[]; []]; [[]; []]].

Definition Q_identity : ndarray := Arr2 [[1; 0]; [0; 1]].

(** * Further functions of the three files *)

(** ** [dynamo/tools/pseudotime.py] *)

(** [scipy.spatial.distance.cdist(x, y)]: the Euclidean distances between
    the rows of [x] and the rows of [y]. *)
Definition cdist (x y : mat) : result mat :=
  mapM (fun xi => mapM (fun yj => euclidean xi yj) y) x.

(** [np.min(z)] of a 1-D array: an empty one has no minimum. *)
Definition np_min (z : vec) : result R :=
  match z with
  | [] => Raise ValueError
  | h :: t => Ok (fold_left Rmin t h)
  end.

(** [np.where(z == m)[0]] *)
Definition where_eqR (z : vec) (m : R) : list nat :=
  map fst (filter (fun p => if Req_EM_T (snd p) m then true else false)
                  (combine (seq 0 (length z)) z)).

(** [np.where(z == np.min(z))[0][0]] *)
Definition first_min (z : vec) : result nat :=
  m <- np_min z ;; getitem (where_eqR z m) 0.

Definition find_cell_proj_closest_vertex (Z Y : mat) : result (list nat) :=
  distances_Z_to_Y <- cdist (transpose Z) (transpose Y) ;;
  match distances_Z_to_Y with
  | [] => Raise ValueError     (* apply_along_axis: no row to iterate over *)
  | _ => mapM first_min distances_Z_to_Y
  end.

Section Project2MST.

(** [scipy.sparse.csgraph.minimum_spanning_tree] *)
Variable minimum_spanning_tree : mat -> sparse.

(** The callable [Projection_Method]: a point and a [d] x 2 array of two
    end points to the projected point. *)
Variable Projection_Method : vec -> mat -> result vec.

(** [Y[:, [a, b]]] *)
Definition take_columns (Y : mat) (a b : nat) : result mat :=
  mapM (fun r => ya <- getitem r a ;; yb <- getitem r b ;; Ok [ya; yb]) Y.

(** The loop of [project2MST] over the neighbours of the closest vertex
    [cv] of the cell [Z_i]: the projections, stacked as rows, and their
    distances to the cell. *)
Fixpoint project_loop (tip_leaves : list nat) (Z_i : vec) (Y : mat) (cv : nat)
    (nbrs : list nat) (projection : option mat) (dists : vec)
    : result (option mat * vec) :=
  match nbrs with
  | [] => Ok (projection, dists)
  | neighbor :: rest =>
      line <- take_columns Y cv neighbor ;;
      tmp <- (if existsb (Nat.eqb cv) tip_leaves
              then proj_point_on_line Z_i line
              else Projection_Method Z_i line) ;;
      projection' <-
        match projection with
        | None => Ok [tmp]                               (* tmp[None, :] *)
        | Some rows =>
            if (ncols rows =? length tmp)%nat then Ok (rows ++ [tmp])
            else Raise ValueError                         (* np.vstack *)
        end ;;
      d <- euclidean Z_i tmp ;;
      project_loop tip_leaves Z_i Y cv rest (Some projection') (dists ++ [d])
  end.

(** One turn of [for i in range(len(closest_vertex))]: the column
    [P[:, i]]. *)
Definition project_cell (dp_mst : Graph) (tip_leaves : list nat) (Z Y : mat)
    (closest : list nat) (i : nat) : result vec :=
  cv <- getitem closest i ;;
  if negb (cv <? vcount dp_mst) then Raise ValueError    (* igraph: no such vertex *)
  else
    Z_i <- getcol Z i ;;
    '(projection, dists) <-
      project_loop tip_leaves Z_i Y cv (neighbors dp_mst cv) None [] ;;
    m <- np_min dists ;;                 (* a vertex without a neighbour: no minimum *)
    j <- getitem (where_eqR dists m) 0 ;;
    rows <- match projection with
            | Some rows => Ok rows
            | None => Raise TypeError
            end ;;
    row <- getitem rows j ;;
    broadcast_row (length Z) row.

(** [distance.squareform(distance.pdist(pts))] *)
Definition squareform_pdist (pts : mat) : mat :=
  map (fun i =>
         map (fun j =>
                if (i =? j)%nat then 0
                else if (i <? j)%nat then dist (nth i pts []) (nth j pts [])
                else dist (nth j pts []) (nth i pts []))
             (seq 0 (length pts)))
      (seq 0 (length pts)).

(** [dp[np.nonzero(dp)]] *)
Definition nonzero_entries (dp : mat) : vec :=
  filter (fun v => if Req_EM_T v 0 then false else true) (concat dp).

(** [dp += min_dist; np.fill_diagonal(dp, 0)] *)
Definition add_off_diagonal (dp : mat) (min_dist : R) : mat :=
  map (fun i =>
         map (fun j => if (i =? j)%nat then 0 else nth j (nth i dp []) 0 + min_dist)
             (seq 0 (length (nth i dp []))))
      (seq 0 (length dp)).

(** [project2MST(mst, Z, Y, Projection_Method)] for a callable
    [Projection_Method]; [Z] holds the cells and [Y] the principal points
    as columns. *)
Definition project2MST (mst : sparse) (Z Y : mat) : result projection :=
  closest <- find_cell_proj_closest_vertex Z Y ;;
  let graph := Weighted_Adjacency mst in
  let tip_leaves := select_degree_eq graph 1 in
  cols <- mapM (project_cell graph tip_leaves Z Y closest)
               (seq 0 (length closest)) ;;
  let Pm := map (fun k => map (fun c => nth k c 0) cols) (seq 0 (length Z)) in
  let dp := squareform_pdist (transpose Pm) in
  min_dist <- np_min (nonzero_entries dp) ;;
  let dp := add_off_diagonal dp min_dist in
  Ok {| cellPairwiseDistances := dp;
        P := Pm;
        closest_vertex := closest;
        dp_mst := minimum_spanning_tree dp |}.

End Project2MST.

(** [np.round]: to the nearest integer, a half to the even one. *)
Definition np_round (x : R) : R :=
  let n := Int_part x in
  let fr := x - IZR n in
  if Rlt_dec fr (1 / 2) then IZR n
  else if Rgt_dec fr (1 / 2) then IZR (n + 1)
  else if Z.even n then IZR n else IZR (n + 1).

Definition _cal_ncenter (ncells ncells_limit : Z) : option R :=
  if (ncells <=? ncells_limit)%Z then None
  else Some (np_round (2 * IZR ncells_limit * ln (IZR ncells)
                       / (ln (IZR ncells) + ln (IZR ncells_limit)))).

(** [np.argmin(z)] of a 1-D array: the index of the first entry no other
    entry is below; [best] and [least] are the index and the value found
    so far, [i] the index of the head of [z]. *)
Fixpoint argmin_loop (best : nat) (least : R) (i : nat) (z : vec) : nat :=
  match z with
  | [] => best
  | x :: t =>
      if Rlt_dec x least then argmin_loop i x (S i) t
      else argmin_loop best least (S i) t
  end.

Definition np_argmin (z : vec) : result nat :=
  match z with
  | [] => Raise ValueError
  | x :: t => Ok (argmin_loop 0 x 1 t)
  end.

(** [np.argmin(D, axis=1)] *)
Definition argmin_rows (D : mat) : result (list nat) := mapM np_argmin D.

(** The block [i] of [num_blocks] blocks of columns of [M]:
    [M[:, (i-1)*block_size : i*block_size]], and for the last block
    [M[:, (i-1)*block_size:]]. *)
Definition column_block (M : mat) (block_size num_blocks i : nat) : mat :=
  if (i <? num_blocks)%nat
  then map (fun r => firstn (i * block_size - (i - 1) * block_size)
                            (skipn ((i - 1) * block_size) r)) M
  else map (fun r => skipn ((i - 1) * block_size) r) M.

(** [new < old] where [old] may still be [np.inf] ([None]). *)
Definition closer (new : R) (old : option R) : bool :=
  match old with
  | None => true
  | Some o => if Rlt_dec new o then true else false
  end.

(** The loop of [_find_nearest_vertex] over the blocks of target points.
    An entry of [closest_vertex] that is still [np.nan], and one of
    [dist_to_closest_vertex] that is still [np.inf], is [None]. *)
Fixpoint nearest_loop (data_matrix target_points : mat)
    (block_size num_blocks : nat) (range : list nat)
    (dist_to_closest_vertex : list (option R))
    (closest_vertex : list (option nat)) : result (list (option nat)) :=
  match range with
  | [] => Ok closest_vertex
  | i :: range' =>
      let block := column_block target_points block_size num_blocks i in
      distances_Z_to_Y <- cdist (transpose data_matrix) (transpose block) ;;
      closest_vertex_for_block <- argmin_rows distances_Z_to_Y ;;
      new_block_distances <-
        mapM (fun p => getitem2 distances_Z_to_Y (fst p) (snd p))
             (combine (seq 0 (length distances_Z_to_Y)) closest_vertex_for_block) ;;
      let updated :=
        map (fun q : R * option R => closer (fst q) (snd q))
            (combine new_block_distances dist_to_closest_vertex) in
      let closest_vertex' :=
        map (fun q : bool * nat * option nat =>
               if fst (fst q)
               then Some (snd (fst q) + (i - 1) * block_size)%nat
               else snd q)
            (combine (combine updated closest_vertex_for_block) closest_vertex) in
      let dist_to_closest_vertex' :=
        map (fun q : bool * R * option R =>
               if fst (fst q) then Some (snd (fst q)) else snd q)
            (combine (combine updated new_block_distances) dist_to_closest_vertex) in
      nearest_loop data_matrix target_points block_size num_blocks range'
        dist_to_closest_vertex' closest_vertex'
  end.

(** [_find_nearest_vertex(data_matrix, target_points, block_size,
    process_targets_in_blocks)] for a [block_size] that is not negative.
    The indices it returns are floats; the final assertion on their number
    holds on both routes. *)
Definition _find_nearest_vertex (data_matrix target_points : mat)
    (block_size : nat) (process_targets_in_blocks : bool)
    : result (list (option nat)) :=
  if (block_size =? 0)%nat then Raise ZeroDivisionError
  else if negb process_targets_in_blocks then
    let num_blocks := ((ncols data_matrix + block_size - 1) / block_size)%nat in
    blocks <-
      mapM (fun i =>
              let block := column_block data_matrix block_size num_blocks i in
              distances_Z_to_Y <- cdist (transpose block) (transpose target_points) ;;
              argmin_rows distances_Z_to_Y)
           (seq 1 num_blocks) ;;
    Ok (map Some (concat blocks))
  else
    let num_blocks := ((ncols target_points + block_size - 1) / block_size)%nat in
    nearest_loop data_matrix target_points block_size num_blocks (seq 1 num_blocks)
      (repeat None (ncols data_matrix)) (repeat None (ncols data_matrix)).

(** The index [i] is the first one of the least entries of [z]. *)
Definition is_first_min (z : vec) (i : nat) : Prop :=
  (i < length z)%nat /\
  (forall j, (j < length z)%nat -> nth i z 0 <= nth j z 0) /\
  (forall j, (j < i)%nat -> nth i z 0 < nth j z 0).

(** The first index of the least entry of [z] and that entry, when [z]
    has an entry. *)
Definition best_index (z : vec) : option nat :=
  match first_min z with
  | Ok i => Some i
  | Raise _ => None
  end.

Definition best_value (z : vec) : option R :=
  match first_min z with
  | Ok i => Some (nth i z 0)
  | Raise _ => None
  end.

(** What one turn of the inner loop of [project2MST] projects the cell
    [Z_i] to: a point of the line through the closest vertex [cv] and
    [neighbor] when [cv] is a tip of the tree, and what
    [Projection_Method] gives for the two otherwise. *)
Definition edge_projection (Projection_Method : vec -> mat -> result vec)
    (tip_leaves : list nat) (Z_i : vec) (Y : mat) (cv neighbor : nat)
    : result vec :=
  line <- take_columns Y cv neighbor ;;
  if existsb (Nat.eqb cv) tip_leaves then proj_point_on_line Z_i line
  else Projection_Method Z_i line.

(** ** [dynamo/tools/utils_vecCalc.py] *)

Section Parallel.

(** [mp.cpu_count()] *)
Variable cpu_count : Z.

(** [Jacobian_rkhs_gaussian_parallel(x, vf_dict, cores)] for an [n] x [d]
    array [x]; the pool's [starmap] returns the results of the chunks in
    the order of the chunks. *)
Definition Jacobian_rkhs_gaussian_parallel (x : mat) (vf : vf_dict)
    (cores : option Z) : result ten :=
  let n := length x in
  let cores := match cores with Some c => c | None => cpu_count end in
  if (cores =? 0)%Z then Raise ZeroDivisionError
  else if (cores <? 0)%Z then Raise ValueError
  else
    let n_j_per_core := ((n + Z.to_nat cores - 1) / Z.to_nat cores)%nat in
    if (n_j_per_core =? 0)%nat then Raise ValueError   (* range() step 0 *)
    else
      let xx := map (fun i => firstn n_j_per_core (skipn i x))
                    (range_step n n_j_per_core) in
      ret <- mapM (fun xi =>
                     J <- Jacobian_rkhs_gaussian (Arr2 xi) vf false ;;
                     match J with
                     | JTen t => Ok t
                     | JMat _ => Raise ValueError   (* axes don't match array *)
                     end) xx ;;
      stacked <- vstack (map transpose_201 ret) ;;
      Ok (transpose_120 stacked).

End Parallel.

(** [np.trace(J)] of a 3-D array: the sums of [J[i, i, :]]. *)
Definition trace3 (J : ten) : vec :=
  let d := Nat.min (length J) (length (hd [] J)) in
  map (fun p => sum (map (fun i => nth p (nth i (nth i J []) []) 0) (seq 0 d)))
      (seq 0 (length (hd [] (hd [] J)))).

(** The loop of [compute_divergence] over the starts of the batches. *)
Fixpoint divergence_loop (f_jac : mat -> result ten) (X : mat)
    (vectorize_size : nat) (range : list nat) (div : vec) : result vec :=
  match range with
  | [] => Ok div
  | i :: range' =>
      J <- f_jac (firstn vectorize_size (skipn i X)) ;;
      tr <- broadcast_row (Nat.min vectorize_size (length div - i)) (trace3 J) ;;
      divergence_loop f_jac X vectorize_size range'
        (firstn i div ++ tr ++ skipn (i + vectorize_size) div)
  end.

(** [compute_divergence(f_jac, X, vectorize_size)]; [f_jac] returns the
    [d] x [d] x [k] Jacobians of a batch of [k] points. *)
Definition compute_divergence (f_jac : mat -> result ten) (X : mat)
    (vectorize_size : option Z) : result vec :=
  let n := length X in
  let vectorize_size :=
    match vectorize_size with None => Z.of_nat n | Some v => v end in
  if (vectorize_size =? 0)%Z then Raise ValueError          (* range() step 0 *)
  else if (vectorize_size <? 0)%Z then Ok (zeros n)          (* an empty range *)
  else divergence_loop f_jac X (Z.to_nat vectorize_size)
         (range_step n (Z.to_nat vectorize_size)) (zeros n).

(** * Further functions of [dynamo/tools/vector_calculus.py] *)

(** A Python [dict] with string keys: the first entry of a key counts. *)
Fixpoint dict_get {A : Type} (d : list (string * A)) (k : string) : option A :=
  match d with
  | [] => None
  | (k', v) :: rest => if String.eqb k' k then Some v else dict_get rest k
  end.

(** [d[k] = v] *)
Fixpoint dict_set {A : Type} (d : list (string * A)) (k : string) (v : A)
    : list (string * A) :=
  match d with
  | [] => [(k, v)]
  | (k', v') :: rest =>
      if String.eqb k' k then (k, v) :: rest else (k', v') :: dict_set rest k v
  end.

(** The parts of an [AnnData] object the vector calculus reads and
    writes: the number of cells, the float columns of [obs], the arrays of
    [obsm], and the entries of [uns] that hold a vector field, each with
    its ['VecFld'] item when it has one. *)
Record AnnData : Type := MkAnnData {
  n_obs : nat;
  obs : list (string * vec);
  obsm : list (string * mat);
  uns : list (string * option vf_dict) }.

(** [prefix + basis]: a [str] cannot be joined to [None]. *)
Definition str_add (prefix : string) (basis : option string) : result string :=
  match basis with
  | Some b => Ok (prefix ++ b)%string
  | None => Raise TypeError
  end.

(** [vecfld_from_adata(adata, basis, vf_key)]: the model, from which the
    caller builds [func = lambda x: vector_field_function(x, vf_dict)]. *)
Definition vecfld_from_adata (adata : AnnData) (basis : option string)
    (vf_key : string) : result vf_dict :=
  vf_key <- match basis with
            | Some b => Ok (vf_key ++ "_" ++ b)%string   (* basis is not None *)
            | None => Raise TypeError                     (* len(None) *)
            end ;;
  match dict_get (uns adata) vf_key with
  | None => Raise ValueError
  | Some entry => lookup entry                            (* [...]['VecFld'] *)
  end.

(** ** [dynamo/tools/vector_calculus.py] *)

(** [q @ J] for a 1-D [q] and a 2-D [J]. *)
Definition vecmat (q : vec) (J : mat) : result vec :=
  if (length q =? length J)%nat
  then Ok (map (fun c => dot q c) (transpose J))
  else Raise ValueError.

Definition elementwise_jacobian_transformation (fjac : mat -> result ten)
    (X : mat) (qi qj : vec) : result vec :=
  Js <- fjac X ;;
  mapM (fun i =>
          J <- slice_last Js i ;;
          qJ <- vecmat qi J ;;
          np_dot qJ qj)
       (seq 0 (length X)).

Section Speed.

Variable con_K_div_cur_free : mat -> mat -> R -> R -> result (mat * mat * mat).

(** [speed(adata, basis, VecFld, method)]: the updated [adata]. *)
Definition speed (adata : AnnData) (basis : option string)
    (VecFld : option vf_dict) (method : string) : result AnnData :=
  VecFld <- match VecFld with
            | None => vecfld_from_adata adata basis "VecFld"
            | Some v => Ok v
            end ;;
  key <- str_add "X_" basis ;;
  X_data <- lookup (dict_get (obsm adata) key) ;;
  vec_mat <-
    (if String.eqb method "analytical"
     then vector_field_function con_K_div_cur_free (Arr2 X_data) VecFld None "full"
     else key <- str_add "velocity_" basis ;;
          v <- lookup (dict_get (obsm adata) key) ;;
          Ok (Arr2 v)) ;;
  speed <- match vec_mat with
           | Arr2 m => Ok (map norm m)
           | Arr1 v => Ok (map Rabs v)       (* the norm of a scalar *)
           | Arr0 _ => Raise TypeError       (* iteration over a 0-d array *)
           end ;;
  let speed_key := match basis with
                   | None => "speed"%string
                   | Some b => ("speed_" ++ b)%string
                   end in
  speed <- set_obs (n_obs adata) speed ;;
  Ok {| n_obs := n_obs adata;
        obs := dict_set (obs adata) speed_key speed;
        obsm := obsm adata;
        uns := uns adata |}.

End Speed.

(** ** Formulas and invariants of the further properties *)

(** The velocity of the Gaussian model at a point: the kernel row of the
    point applied to the coefficients,
    [V[j] = sum_q exp (- beta |x - y_q|^2) C[q, j]]. *)
Definition velocity (xc c : mat) (b : R) (xi : vec) : vec :=
  map (fun cj => dot (map (fun yq => exp (- b * sumsq (zipwith Rminus xi yq))) xc) cj)
      (transpose c).

(** The trace of a [d] x [d] matrix. *)
Definition trace (d : nat) (m : mat) : R :=
  sum (map (fun i => nth i (nth i m []) 0) (seq 0 d)).

(** The array [div] of [compute_divergence] after the batches that start
    before [c * k], for a Jacobian function that gives the point [x] the
    Jacobian [jp x]. *)
Definition div_after (d : nat) (jp : vec -> mat) (X : mat) (k c : nat) : vec :=
  map (fun x => trace d (jp x)) (firstn (c * k) X) ++ zeros (length X - c * k).

(** The vertices [v] visited after [seen], each with the vertex [p] it was
    reached from: [v] is new, [p] was visited before it, and the two are
    joined by an edge. *)
Fixpoint tree_order (g : Graph) (seen : list nat) (visits : list (nat * nat)) : Prop :=
  match visits with
  | [] => True
  | (v, p) :: rest =>
      In p seen /\ ~ In v seen /\ In v (neighbors g p) /\
      tree_order g (seen ++ [v]) rest
  end.

(** A list of vertex ids that grows strictly. *)
Fixpoint increasing (l : list nat) : Prop :=
  match l with
  | [] => True
  | a :: t =>
      match t with
      | [] => True
      | b :: _ => (a < b)%nat /\ increasing t
      end
  end.

(** * Properties *)

(** ** Loops over lists *)

Section Loops.

Context {A B : Type}.

Lemma mapM_ext :
  forall (f g : A -> result B) (l : list A),
    (forall a, In a l -> f a = g a) -> mapM f l = mapM g l.
Proof.
  intros f g l. induction l as [|a l IH]; intros H; [reflexivity|].
  cbn [mapM]. rewrite (H a) by (left; reflexivity).
  rewrite IH by (intros b Hb; apply H; right; exact Hb). reflexivity.
Qed.

Lemma mapM_map :
  forall (C : Type) (f : A -> result B) (h : C -> A) (l : list C),
    mapM f (map h l) = mapM (fun c => f (h c)) l.
Proof.
  intros C f h l. induction l as [|c l IH]; [reflexivity|].
  cbn [map mapM]. rewrite IH. reflexivity.
Qed.

Lemma mapM_app :
  forall (f : A -> result B) (l1 l2 : list A),
    mapM f (l1 ++ l2) =
    (r1 <- mapM f l1 ;; r2 <- mapM f l2 ;; Ok (r1 ++ r2)).
Proof.
  intros f l1 l2. induction l1 as [|a l1 IH].
  - cbn [app mapM bind]. destruct (mapM f l2); reflexivity.
  - cbn [app mapM]. destruct (f a) as [b|e]; [|reflexivity].
    rewrite IH. destruct (mapM f l1) as [r1|e]; [|reflexivity].
    cbn [bind]. destruct (mapM f l2); reflexivity.
Qed.

(** A loop over the chunks of a list, each chunk looped over in turn, is
    the loop over the list: the same results in the same order, or the
    same first exception. *)
Lemma mapM_concat :
  forall (f : A -> result B) (ls : list (list A)),
    mapM f (concat ls) = (rs <- mapM (mapM f) ls ;; Ok (concat rs)).
Proof.
  intros f ls. induction ls as [|l ls IH]; [reflexivity|].
  cbn [concat mapM]. rewrite mapM_app, IH.
  destruct (mapM f l) as [r|e]; [|reflexivity]. cbn [bind].
  destruct (mapM (mapM f) ls) as [rs|e]; reflexivity.
Qed.

Lemma mapM_then :
  forall (C D : Type) (f : C -> result A) (h : A -> B) (l : list C),
    mapM (fun c => a <- f c ;; Ok (h a)) l =
    (rs <- mapM f l ;; Ok (map h rs)).
Proof.
  intros C D f h l. induction l as [|c l IH]; [reflexivity|].
  cbn [mapM]. rewrite IH. destruct (f c) as [a|e]; [|reflexivity].
  cbn [bind]. destruct (mapM f l); reflexivity.
Qed.

Lemma mapM_Forall :
  forall (P : B -> Prop) (f : A -> result B) (l : list A) (rs : list B),
    (forall a b, f a = Ok b -> P b) -> mapM f l = Ok rs -> Forall P rs.
Proof.
  intros P f l. induction l as [|a l IH]; intros rs Hf H.
  - injection H as <-. constructor.
  - cbn [mapM] in H. destruct (f a) as [b|e] eqn:E; [|discriminate].
    destruct (mapM f l) as [r|e]; [|discriminate].
    injection H as <-. constructor; [apply (Hf a), E|apply IH; auto].
Qed.

Lemma mapM_length :
  forall (f : A -> result B) (l : list A) (rs : list B),
    mapM f l = Ok rs -> length rs = length l.
Proof.
  intros f l. induction l as [|a l IH]; intros rs H.
  - injection H as <-. reflexivity.
  - cbn [mapM] in H. destruct (f a); [|discriminate].
    destruct (mapM f l) as [r|e]; [|discriminate].
    injection H as <-. cbn. f_equal. apply IH. reflexivity.
Qed.

End Loops.

Lemma mapM_ok :
  forall (A B : Type) (f : A -> result B) (g : A -> B) (l : list A),
    (forall a, In a l -> f a = Ok (g a)) -> mapM f l = Ok (map g l).
Proof.
  intros A B f g l. induction l as [|a l IH]; intros H; [reflexivity|].
  cbn [mapM map]. rewrite (H a) by (left; reflexivity).
  rewrite IH by (intros b Hb; apply H; right; exact Hb). reflexivity.
Qed.

Lemma map_nth_seq :
  forall (A B : Type) (F : A -> B) (l : list A) (d : A),
    map (fun j => F (nth j l d)) (seq 0 (length l)) = map F l.
Proof.
  intros A B F l d. induction l as [|a l IH]; [reflexivity|].
  cbn [length seq map nth]. f_equal.
  rewrite <- seq_shift, map_map. exact IH.
Qed.

Lemma map_nth_seq2 :
  forall (X Y Z : Type) (h : X -> Y -> Z) (l1 : list X) (l2 : list Y) dx dy,
    length l1 = length l2 ->
    map (fun q => h (nth q l1 dx) (nth q l2 dy)) (seq 0 (length l1)) =
    map (fun p => h (fst p) (snd p)) (combine l1 l2).
Proof.
  intros X Y Z h l1. induction l1 as [|a l1 IH]; intros [|b l2] dx dy H;
    try discriminate; [reflexivity|].
  cbn [length seq map combine nth fst snd]. f_equal.
  rewrite <- seq_shift, map_map. apply IH. cbn in H; lia.
Qed.

Lemma tabulate_list :
  forall (X : Type) (l : list X) (d : X),
    map (fun j => nth j l d) (seq 0 (length l)) = l.
Proof.
  intros X l d. rewrite (map_nth_seq X X (fun x => x) l d). apply map_id.
Qed.

Lemma nth_map_default :
  forall (X Y : Type) (f : X -> Y) (l : list X) (p : nat) (dx : X) (dy : Y),
    (p < length l)%nat -> nth p (map f l) dy = f (nth p l dx).
Proof.
  intros X Y f l p dx dy H.
  rewrite (nth_indep _ dy (f dx)) by (rewrite length_map; exact H).
  apply map_nth.
Qed.

Lemma nth_map_seq :
  forall (Y : Type) (g : nat -> Y) (n i : nat) (dflt : Y),
    (i < n)%nat -> nth i (map g (seq 0 n)) dflt = g i.
Proof.
  intros Y g n i dflt H.
  rewrite (nth_map_default nat Y g (seq 0 n) i 0%nat dflt)
    by (rewrite length_seq; exact H).
  rewrite seq_nth by exact H. reflexivity.
Qed.

Lemma seq_add : forall s len, map (Nat.add s) (seq 0 len) = seq s len.
Proof.
  induction s as [|s IH]; intros len.
  - cbn. apply map_id.
  - rewrite <- seq_shift, <- IH, map_map. reflexivity.
Qed.

Lemma sum_ext :
  forall (X : Type) (f g : X -> R) (l : list X),
    (forall a, In a l -> f a = g a) -> sum (map f l) = sum (map g l).
Proof.
  intros X f g l H. f_equal. apply map_ext_in. exact H.
Qed.

(** ** Sums of squares and dot products *)

Section Vectors.

Lemma sumsq_cons : forall x v, sumsq (x :: v) = x ^ 2 + sumsq v.
Proof. reflexivity. Qed.

Lemma sumsq_nonneg : forall v, 0 <= sumsq v.
Proof.
  induction v as [|x v IH]; [cbn; lra|].
  rewrite sumsq_cons. nra.
Qed.

Lemma dot_cons : forall x u y v, dot (x :: u) (y :: v) = x * y + dot u v.
Proof. reflexivity. Qed.

Lemma zipwith_cons :
  forall f x u y v, zipwith f (x :: u) (y :: v) = f x y :: zipwith f u v.
Proof. reflexivity. Qed.

Lemma zipwith_length :
  forall f u v, length u = length v -> length (zipwith f u v) = length u.
Proof.
  intros f u v H. unfold zipwith.
  rewrite length_map, length_combine, H. apply Nat.min_id.
Qed.

Lemma scale_length : forall s v, length (scale s v) = length v.
Proof. intros; apply length_map. Qed.

(** A vector of zero squared length contributes nothing to a dot product. *)
Lemma sumsq_zero_dot :
  forall v u, sumsq v = 0 -> dot u v = 0.
Proof.
  induction v as [|y v IH]; intros u H.
  - destruct u; reflexivity.
  - destruct u as [|x u]; [reflexivity|].
    rewrite sumsq_cons in H. rewrite dot_cons.
    pose proof (sumsq_nonneg v) as Hv.
    assert (Hy : y = 0) by nra.
    assert (Hs : sumsq v = 0) by nra.
    rewrite (IH u Hs), Hy. ring.
Qed.

(** Two arrays of one length at squared distance zero are equal. *)
Lemma sumsq_diff_zero :
  forall u v, length u = length v -> sumsq (zipwith Rminus u v) = 0 -> u = v.
Proof.
  induction u as [|x u IH]; intros [|y v] Hl H; try discriminate; [reflexivity|].
  rewrite zipwith_cons, sumsq_cons in H.
  pose proof (sumsq_nonneg (zipwith Rminus u v)) as Hv.
  assert (x = y) by nra.
  assert (Hs : sumsq (zipwith Rminus u v) = 0) by nra.
  f_equal; [assumption|]. apply IH; [cbn in Hl; lia|exact Hs].
Qed.

Lemma sumsq_diff_same : forall u, sumsq (zipwith Rminus u u) = 0.
Proof.
  induction u as [|x u IH]; [reflexivity|].
  rewrite zipwith_cons, sumsq_cons, IH. ring.
Qed.

(** The squared distance from [p] to [A + s * AB] is a quadratic in [s]. *)
Lemma sumsq_along_line :
  forall p A AB s,
    length p = length A -> length A = length AB ->
    sumsq (zipwith Rminus p (zipwith Rplus A (scale s AB))) =
    sumsq (zipwith Rminus p A) - 2 * s * dot (zipwith Rminus p A) AB
    + s ^ 2 * sumsq AB.
Proof.
  induction p as [|x p IH]; intros [|a A] [|b AB] s H1 H2; try discriminate.
  - cbn. ring.
  - cbn [scale map]. fold (scale s AB).
    rewrite !zipwith_cons, !sumsq_cons, dot_cons.
    rewrite IH by (cbn in *; lia). ring.
Qed.

Lemma point_at_0 :
  forall A AB, length A = length AB -> zipwith Rplus A (scale 0 AB) = A.
Proof.
  induction A as [|a A IH]; intros [|b AB] H; try discriminate; [reflexivity|].
  cbn [scale map]. fold (scale 0 AB). rewrite zipwith_cons, IH by (cbn in H; lia).
  f_equal. ring.
Qed.

Lemma point_at_1 :
  forall A B, length A = length B ->
    zipwith Rplus A (scale 1 (zipwith Rminus B A)) = B.
Proof.
  induction A as [|a A IH]; intros [|b B] H; try discriminate; [reflexivity|].
  rewrite zipwith_cons. cbn [scale map]. fold (scale 1 (zipwith Rminus B A)).
  rewrite zipwith_cons, IH by (cbn in H; lia). f_equal. ring.
Qed.

End Vectors.

Lemma nth_zipwith_minus :
  forall u v k, length u = length v ->
    nth k (zipwith Rminus u v) 0 = nth k u 0 - nth k v 0.
Proof.
  induction u as [|x u IH]; intros [|y v] k H; try discriminate.
  - destruct k; cbn; ring.
  - destruct k as [|k]; [reflexivity|].
    rewrite zipwith_cons. cbn [nth]. apply IH. cbn in H; lia.
Qed.

Lemma sum_sq_coordinates :
  forall u v, length u = length v ->
    sum (map (fun k => (nth k u 0 - nth k v 0) ^ 2) (seq 0 (length u))) =
    sumsq (zipwith Rminus u v).
Proof.
  induction u as [|x u IH]; intros [|y v] H; try discriminate; [reflexivity|].
  cbn [length seq map nth]. rewrite <- seq_shift, map_map.
  rewrite zipwith_cons, sumsq_cons. cbn [sum fold_right]. fold (sum (map (fun k => (nth k u 0 - nth k v 0) ^ 2) (seq 0 (length u)))).
  rewrite IH by (cbn in H; lia). reflexivity.
Qed.

Lemma dot_sum :
  forall u v, length u = length v ->
    dot u v = sum (map (fun q => nth q u 0 * nth q v 0) (seq 0 (length u))).
Proof.
  intros u v H. unfold dot.
  rewrite (map_nth_seq2 R R R Rmult u v 0 0 H). reflexivity.
Qed.

Lemma dot_weighted :
  forall (f1 : vec -> R) (f2 f3 : vec -> R) (xc c : mat),
    length c = length xc ->
    dot (zipwith Rmult (map f1 c) (map f2 xc)) (map f3 xc) =
    sum (map (fun yc => f1 (snd yc) * f2 (fst yc) * f3 (fst yc)) (combine xc c)).
Proof.
  intros f1 f2 f3 xc. induction xc as [|y xc IH]; intros [|cq c] H;
    try discriminate; [reflexivity|].
  cbn [map combine]. rewrite zipwith_cons, dot_cons.
  cbn [sum fold_right map fst snd].
  fold (sum (map (fun yc => f1 (snd yc) * f2 (fst yc) * f3 (fst yc)) (combine xc c))).
  rewrite IH by (cbn in H; lia). reflexivity.
Qed.

Lemma sumsq_scale : forall x a, sumsq (map (fun y => x * y) a) = x ^ 2 * sumsq a.
Proof.
  intros x a. induction a as [|y a IH]; [cbn; ring|].
  cbn [map]. rewrite !sumsq_cons, IH. ring.
Qed.

(** ** Shapes of arrays *)

(** A column of a well-shaped array is read without an [IndexError]. *)
Lemma getcol_ok :
  forall (m : mat) j w,
    Forall (fun r => length r = w) m -> (j < w)%nat -> getcol m j = Ok (col m j).
Proof.
  intros m j w Hm Hj. unfold getcol, col.
  induction Hm as [|r m Hr Hm IH]; [reflexivity|].
  cbn [mapM map]. unfold getitem at 1.
  destruct (nth_error r j) as [x|] eqn:E.
  - rewrite IH. rewrite (nth_error_nth _ _ 0 E). reflexivity.
  - apply nth_error_None in E. lia.
Qed.

Lemma col_length : forall (m : mat) j, length (col m j) = length m.
Proof. intros; apply length_map. Qed.

Lemma ncols_rect :
  forall r c (m : mat), (0 < r)%nat -> rect2 r c m -> ncols m = c.
Proof.
  intros r c m Hr [Hl Hc]. destruct m as [|row m]; [cbn in Hl; lia|].
  inversion Hc; subst. reflexivity.
Qed.

Lemma tabulate_mat :
  forall r c (m : mat),
    rect2 r c m ->
    map (fun a => map (fun b => nth b (nth a m []) 0) (seq 0 c)) (seq 0 r) = m.
Proof.
  intros r c m [Hr Hc]. subst r.
  etransitivity; [|apply (tabulate_list vec m [])].
  apply map_ext_in. intros a Ha. apply in_seq in Ha.
  rewrite Forall_forall in Hc.
  rewrite <- (Hc (nth a m [])) by (apply nth_In; lia).
  apply tabulate_list.
Qed.

Lemma transpose_rect :
  forall r c (m : mat), (0 < r)%nat -> rect2 r c m -> rect2 c r (transpose m).
Proof.
  intros r c m Hr Hm. unfold transpose. rewrite (ncols_rect r c) by assumption.
  split; [rewrite length_map; apply length_seq|].
  apply Forall_forall. intros v Hv. apply in_map_iff in Hv.
  destruct Hv as [j [<- _]]. unfold col. rewrite length_map. apply Hm.
Qed.

Lemma transpose_involutive :
  forall r c (m : mat),
    (0 < r)%nat -> (0 < c)%nat -> rect2 r c m -> transpose (transpose m) = m.
Proof.
  intros r c m Hr Hc Hm.
  pose proof (transpose_rect r c m Hr Hm) as Ht.
  unfold transpose at 1. rewrite (ncols_rect c r) by assumption.
  etransitivity; [|apply (tabulate_mat r c m Hm)].
  apply map_ext_in. intros a Ha. apply in_seq in Ha.
  unfold col at 1. unfold transpose. rewrite (ncols_rect r c) by assumption.
  rewrite map_map. apply map_ext_in. intros j Hj.
  unfold col. destruct Hm as [Hl _].
  apply (nth_map_default vec R (fun row => nth j row 0) m a [] 0). lia.
Qed.

Lemma broadcast_row_length :
  forall c v w, broadcast_row c v = Ok w -> length w = c.
Proof.
  intros c v w. unfold broadcast_row.
  destruct (length v =? c)%nat eqn:E.
  - intros H. injection H as <-. apply Nat.eqb_eq, E.
  - destruct (length v =? 1)%nat; [|discriminate].
    intros H. injection H as <-. apply repeat_length.
Qed.

Lemma broadcast_to2_shape :
  forall r c m m', broadcast_to2 r c m = Ok m' -> rect2 r c m'.
Proof.
  intros r c m m'. unfold broadcast_to2.
  destruct (mapM (broadcast_row c) m) as [rows|e] eqn:E; [|discriminate].
  cbn [bind].
  assert (Hrows : Forall (fun row => length row = c) rows).
  { apply (mapM_Forall _ _ _ _ (fun a b => @broadcast_row_length c a b) E). }
  destruct (length rows =? r)%nat eqn:El.
  - intros H. injection H as <-. split; [apply Nat.eqb_eq, El|exact Hrows].
  - destruct (length rows =? 1)%nat eqn:E1; [|discriminate].
    intros H. injection H as <-. split; [apply repeat_length|].
    apply Forall_forall. intros x Hx. apply repeat_spec in Hx. subst x.
    destruct rows as [|row rows]; [discriminate|].
    inversion Hrows; subst. reflexivity.
Qed.

Lemma broadcast_to2_rect :
  forall r c (m : mat), rect2 r c m -> broadcast_to2 r c m = Ok m.
Proof.
  intros r c m [Hl Hc]. unfold broadcast_to2.
  rewrite (mapM_ok _ _ _ (fun v => v)).
  2:{ intros v Hv. rewrite Forall_forall in Hc. unfold broadcast_row.
      rewrite (Hc v Hv), Nat.eqb_refl. reflexivity. }
  rewrite map_id. cbn [bind]. rewrite Hl, Nat.eqb_refl. reflexivity.
Qed.

(** ** Termination of the traversal ([dfs]) *)

Section Traversal.

Variable g : Graph.

Lemma unvisited_all :
  forall n k,
    unvisited g k (repeat false n) = (n + list_sum (map (degree g) (seq k n)))%nat.
Proof.
  induction n as [|n IH]; intros k; [reflexivity|].
  cbn [repeat unvisited seq map]. rewrite IH.
  unfold list_sum. cbn [fold_right]. lia.
Qed.

Lemma unvisited_mark :
  forall added k w,
    (w < length added)%nat -> nth w added false = false ->
    (unvisited g k (firstn w added ++ true :: skipn (S w) added)
     + S (degree g (k + w)) = unvisited g k added)%nat.
Proof.
  induction added as [|b t IH]; intros k w Hw Hn; [cbn in Hw; lia|].
  destruct w as [|w].
  - cbn in Hn. subst b. cbn. rewrite Nat.add_0_r. lia.
  - cbn [firstn skipn app unvisited nth] in *.
    specialize (IH (S k) w). rewrite Nat.add_succ_comm in IH.
    cbn in Hw. specialize (IH ltac:(lia) Hn). lia.
Qed.

Lemma mark_length :
  forall (added : list bool) w,
    (w < length added)%nat ->
    length (firstn w added ++ true :: skipn (S w) added) = length added.
Proof.
  intros added w Hw.
  rewrite length_app, length_firstn. cbn [length]. rewrite length_skipn. lia.
Qed.

Lemma pop_spec :
  forall l,
    match pop l with
    | None => l = []
    | Some (x, l') => l = l' ++ [x]
    end.
Proof.
  intros l. unfold pop. destruct (rev l) as [|x r] eqn:E.
  - apply (f_equal (@rev nat)) in E. rewrite rev_involutive in E. exact E.
  - apply (f_equal (@rev nat)) in E. rewrite rev_involutive in E. exact E.
Qed.

Lemma neighbors_in_range :
  forall v, Forall (fun w => (w < vcount g)%nat) (neighbors g v).
Proof.
  intros v. apply Forall_forall. intros w Hw. unfold neighbors in Hw.
  apply in_flat_map in Hw. destruct Hw as [u [Hu Hw]].
  apply repeat_spec in Hw. subst w. apply in_seq in Hu. lia.
Qed.

(** With a turn for everything owed, the loop comes to its end. *)
Lemma dfs_loop_returns :
  forall fuel stack added vids parents,
    length added = vcount g ->
    Forall (fun fr => Forall (fun w => (w < vcount g)%nat) (snd fr)) stack ->
    (pending stack + unvisited g 0 added < fuel)%nat ->
    exists r, dfs_loop fuel g stack added vids parents = Some r.
Proof.
  induction fuel as [|fuel IH]; intros stack added vids parents Hl Hs Hf; [lia|].
  destruct stack as [|[vid nbrs] below]; [eexists; reflexivity|].
  cbn [dfs_loop]. pose proof (pop_spec nbrs) as Hp.
  inversion Hs as [|? ? Hn Hb]; subst. cbn [snd] in Hn.
  cbn [pending snd] in Hf.
  destruct (pop nbrs) as [[w nbrs']|].
  - subst nbrs. rewrite length_app in Hf. cbn [length] in Hf.
    apply Forall_app in Hn. destruct Hn as [Hn' Hw].
    inversion Hw as [|? ? Hw' _]; subst.
    destruct (nth w added false) eqn:Ew.
    + apply IH; [exact Hl| |].
      * constructor; [exact Hn'|exact Hb].
      * cbn [pending snd]. lia.
    + apply IH.
      * rewrite mark_length; [exact Hl|lia].
      * constructor; [apply neighbors_in_range|].
        constructor; [exact Hn'|exact Hb].
      * pose proof (unvisited_mark added 0 w ltac:(lia) Ew) as Hm.
        cbn [Nat.add] in Hm.
        cbn [pending snd]. unfold degree in Hm. lia.
  - apply IH; [exact Hl|exact Hb|lia].
Qed.

(** From a vertex of the graph the traversal returns. *)
Lemma dfs_returns :
  forall vid, (vid < vcount g)%nat -> exists r, dfs g vid = Ok r.
Proof.
  intros vid Hv. unfold dfs.
  apply Nat.ltb_lt in Hv. rewrite Hv. apply Nat.ltb_lt in Hv.
  match goal with
  | |- context [dfs_loop ?f g ?s ?a ?v ?p] =>
      destruct (dfs_loop_returns f s a v p) as [r Hr]
  end.
  - rewrite mark_length; rewrite repeat_length; [reflexivity|exact Hv].
  - constructor; [apply neighbors_in_range|constructor].
  - pose proof (unvisited_mark (repeat false (vcount g)) 0 vid) as Hm.
    rewrite repeat_length in Hm. specialize (Hm Hv).
    rewrite nth_repeat in Hm. specialize (Hm eq_refl).
    rewrite unvisited_all in Hm. cbn [Nat.add] in Hm.
    cbn [pending snd]. unfold degree in Hm at 1. lia.
  - rewrite Hr. eexists; reflexivity.
Qed.

End Traversal.

(** ** Depth-first ordering ([get_order_from_DDRTree]) *)

Lemma setitem_getitem :
  forall (l : list R) k v,
    (k < length l)%nat ->
    exists l', setitem l k v = Ok l' /\ getitem l' k = Ok v.
Proof.
  induction l as [|h t IH]; intros k v Hk; [cbn in Hk; lia|].
  destruct k as [|k]; cbn.
  - eexists; split; reflexivity.
  - destruct (IH k v) as [l' [E1 E2]]; [cbn in Hk; lia|].
    rewrite E1. eexists; split; [reflexivity|exact E2].
Qed.

(** A vertex reached from vertex 0 falls in the [else] branch of
    [if pres[i] > 0]: it is written as a second root, with pseudotime 0,
    parent -1 and no change of state, whatever the edge is. *)
Lemma order_step_from_vertex_0 :
  forall dp g orders pres st i c,
    getitem orders i = Ok c ->
    getitem pres i = Ok 0%nat ->
    (c < length (pseudotimes st))%nat ->
    exists pts,
      order_step dp g orders pres st i =
      Ok {| curr_state := curr_state st;
            pseudotimes := pts;
            ordering_dict := ordering_dict st ++
              [ {| cell_index := c; cell_pseudo_state := curr_state st;
                   pseudo_time := 0; parent := (-1)%Z |} ] |}.
Proof.
  intros dp g orders pres st i c Hc Hp Hlt.
  unfold order_step. rewrite Hc, Hp. cbn [bind Nat.ltb Nat.leb].
  destruct (setitem_getitem (pseudotimes st) c 0 Hlt) as [l' [E1 E2]].
  rewrite E1. cbn [bind]. rewrite E2. cbn [bind].
  exists l'. reflexivity.
Qed.

(** A vertex reached from any other vertex gets the pseudotime of that
    vertex plus the length of the edge, and opens a new state exactly when
    that vertex has more than two neighbours. *)
Lemma order_step_from_other_vertex :
  forall dp g orders pres st i c pre tp w,
    getitem orders i = Ok c ->
    getitem pres i = Ok pre ->
    (0 < pre)%nat ->
    getitem (pseudotimes st) pre = Ok tp ->
    getitem2 dp c pre = Ok w ->
    (c < length (pseudotimes st))%nat ->
    exists pts,
      order_step dp g orders pres st i =
      Ok {| curr_state :=
              if (2 <? degree g pre)%nat then S (curr_state st) else curr_state st;
            pseudotimes := pts;
            ordering_dict := ordering_dict st ++
              [ {| cell_index := c;
                   cell_pseudo_state :=
                     if (2 <? degree g pre)%nat then S (curr_state st)
                     else curr_state st;
                   pseudo_time := tp + w; parent := Z.of_nat pre |} ] |}.
Proof.
  intros dp g orders pres st i c pre tp w Hc Hp Hpos Ht Hw Hlt.
  unfold order_step. rewrite Hc, Hp. cbn [bind].
  apply Nat.ltb_lt in Hpos. rewrite Hpos, Ht. cbn [bind]. rewrite Hw. cbn [bind].
  destruct (setitem_getitem (pseudotimes st) c (tp + w) Hlt) as [l' [E1 E2]].
  rewrite E1. cbn [bind]. rewrite E2. cbn [bind].
  exists l'. reflexivity.
Qed.

(** X9: the state counter never goes down in the course of the loop. *)
Lemma order_loop_state_monotone :
  forall dp g orders pres range st st',
    order_loop dp g orders pres st range = Ok st' ->
    (curr_state st <= curr_state st')%nat.
Proof.
  intros dp g orders pres range.
  induction range as [|i range IH]; intros st st' H.
  - injection H as <-. lia.
  - cbn [order_loop] in H.
    destruct (order_step dp g orders pres st i) as [st1|e] eqn:E;
      cbn [bind] in H; [|discriminate].
    apply IH in H.
    assert (curr_state st <= curr_state st1)%nat; [|lia].
    clear H IH. unfold order_step in E.
    destruct (getitem orders i) as [c|e]; cbn [bind] in E; [|discriminate].
    destruct (getitem pres i) as [pre|e]; cbn [bind] in E; [|discriminate].
    destruct (0 <? pre)%nat.
    + destruct (getitem (pseudotimes st) pre) as [tp|e]; cbn [bind] in E;
        [|discriminate].
      destruct (getitem2 dp c pre) as [w|e]; cbn [bind] in E; [|discriminate].
      destruct (setitem (pseudotimes st) c (tp + w)) as [l'|e]; cbn [bind] in E;
        [|discriminate].
      destruct (getitem l' c); cbn [bind] in E; [|discriminate].
      injection E as <-. cbn [curr_state].
      destruct (2 <? degree g pre)%nat; lia.
    + cbn [bind] in E.
      destruct (setitem (pseudotimes st) c 0) as [l'|e]; cbn [bind] in E;
        [|discriminate].
      destruct (getitem l' c); cbn [bind] in E; [|discriminate].
      injection E as <-. cbn [curr_state]. lia.
Qed.

(** C1, at the smallest tree: rooted at vertex 0, the ordering gives the
    child vertex 1 pseudotime 0 and parent -1 instead of the pseudotime of
    vertex 0 plus the edge length [dp[1, 0] = 1]. *)
Theorem get_order_from_DDRTree_child_of_vertex_0 :
  get_order_from_DDRTree dp_pair mst_pair 0 =
  Ok [ {| cell_index := 0; cell_pseudo_state := 0; pseudo_time := 0;
          parent := (-1)%Z |};
       {| cell_index := 1; cell_pseudo_state := 0; pseudo_time := 0;
          parent := (-1)%Z |} ]
  /\ getitem2 dp_pair 1 0 = Ok 1
  /\ dfs (Weighted_Adjacency mst_pair) 0 = Ok ([0; 1]%nat, [0; 0]%nat).
Proof. repeat split; reflexivity. Qed.

(** ** Final ordering of [order_cells] *)

(** X8: the final pseudotime is the ordering of the tree [mst] and of the
    distances [dp] that went into the projection, started at the refined
    root; the refined tree only yields the branch points. *)
Lemma order_cells_final_order :
  forall n_obs dp mst root_cell root_state proj co,
    order_cells n_obs dp mst root_cell root_state proj = Ok co ->
    (exists ordering,
       get_order_from_DDRTree dp mst (root_cell_uns co) = Ok ordering /\
       Pseudotime co = map pseudo_time ordering) /\
    minSpanningTree co = dp_mst proj /\
    branch_points co = select_degree_gt (Weighted_Adjacency (dp_mst proj)) 2.
Proof.
  intros n_obs dp mst root_cell root_state proj co.
  unfold order_cells.
  destruct (get_order_from_DDRTree dp mst root_cell) as [o1|e]; cbn [bind];
    [|discriminate].
  destruct (set_obs n_obs (map pseudo_time o1)) as [p1|e]; cbn [bind];
    [|discriminate].
  destruct (refine_root root_state root_cell (closest_vertex proj) _)
    as [r|e]; cbn [bind]; [|discriminate].
  destruct (get_order_from_DDRTree dp mst r) as [o2|e] eqn:E2; cbn [bind];
    [|discriminate].
  unfold set_obs at 1.
  destruct (length (map pseudo_time o2) =? n_obs)%nat; cbn [bind];
    [|discriminate].
  match goal with
  | |- bind ?s _ = _ -> _ => destruct s as [st|e]; cbn [bind]; [|discriminate]
  end.
  intros H. injection H as <-. cbn.
  split; [exists o2; split; [exact E2|reflexivity]|split; reflexivity].
Qed.

(** C2, on that line: the refined root is cell 3; the pseudotime written
    back is [6; 5; 3; 0], the ordering of the tree before the projection,
    whereas the ordering of the refined tree with the refined distances
    from the same root is [9; 4; 7; 0]. *)
Theorem order_cells_orders_the_unrefined_tree :
  (exists co,
     order_cells 4 dp_line mst_line 3 None proj_line = Ok co /\
     root_cell_uns co = 3%nat /\
     Pseudotime co = [6; 5; 3; 0] /\
     branch_points co = []) /\
  (exists refined,
     get_order_from_DDRTree (cellPairwiseDistances proj_line)
       (dp_mst proj_line) 3 = Ok refined /\
     map pseudo_time refined = [9; 4; 7; 0]).
Proof.
  split.
  - eexists. split; [reflexivity|].
    split; [reflexivity|]. split; [|reflexivity].
    cbn. repeat (f_equal; try lra).
  - eexists. split; [reflexivity|].
    cbn. repeat (f_equal; try lra).
Qed.

(** ** Projection onto a segment ([project_point_to_line_segment]) *)

(** C10: for a point [p] and a segment given by the columns [A] and [B]
    of [df], [project_point_to_line_segment] returns a point
    [A + t * (B - A)] with [t] in [[0, 1]]: the end [A] when the projection
    parameter is below 0, the end [B] when it is above 1, the projection
    itself in between, and [A] when [A = B]; no point of the segment is
    closer to [p] than the point returned. *)
Theorem project_point_to_line_segment_closest :
  forall (p : vec) (df : mat),
    Forall (fun r => length r = 2%nat) df ->
    length p = length df ->
    let A := col df 0 in
    let B := col df 1 in
    let t0 := dot (zipwith Rminus p A) (zipwith Rminus B A)
              / sumsq (zipwith Rminus B A) in
    exists q,
      project_point_to_line_segment p df = Ok q /\
      (exists t, 0 <= t <= 1 /\ q = point_on A B t) /\
      (A = B -> q = A) /\
      (A <> B -> t0 < 0 -> q = A) /\
      (A <> B -> 1 < t0 -> q = B) /\
      (A <> B -> 0 <= t0 <= 1 -> q = point_on A B t0) /\
      (forall s, 0 <= s <= 1 -> dist p q <= dist p (point_on A B s)).
Proof.
  intros p df Hdf Hp A B t0.
  assert (HlA : length A = length df) by apply col_length.
  assert (HlB : length B = length df) by apply col_length.
  set (AB := zipwith Rminus B A) in *.
  assert (HlAB : length AB = length A)
    by (unfold AB; rewrite zipwith_length; lia).
  set (a := sumsq AB) in *. set (b := dot (zipwith Rminus p A) AB) in *.
  set (c := sumsq (zipwith Rminus p A)).
  assert (Ha : 0 <= a) by apply sumsq_nonneg.
  assert (Hf : forall s, sumsq (zipwith Rminus p (point_on A B s)) =
                         c - 2 * s * b + s ^ 2 * a).
  { intros s. unfold point_on. fold AB. apply sumsq_along_line; lia. }
  assert (E0 : point_on A B 0 = A)
    by (unfold point_on; fold AB; apply point_at_0; lia).
  assert (E1 : point_on A B 1 = B) by (apply point_at_1; lia).
  assert (Hmin : forall t, (forall s, 0 <= s <= 1 ->
                   c - 2 * t * b + t ^ 2 * a <= c - 2 * s * b + s ^ 2 * a) ->
                 forall s, 0 <= s <= 1 ->
                   dist p (point_on A B t) <= dist p (point_on A B s)).
  { intros t Ht s Hs. unfold dist. apply sqrt_le_1_alt.
    rewrite !Hf. apply Ht, Hs. }
  assert (Hrun : project_point_to_line_segment p df =
     if Req_EM_T a 0 then Ok A
     else if Rlt_dec t0 0 then Ok A
     else if Rgt_dec t0 1 then Ok B
     else Ok (point_on A B t0)).
  { unfold project_point_to_line_segment.
    rewrite (getcol_ok df 0 2 Hdf), (getcol_ok df 1 2 Hdf) by lia.
    cbn [bind]. fold A B.
    unfold elementwise at 1. rewrite HlB, HlA, Nat.eqb_refl. cbn [bind].
    fold AB. fold a.
    destruct (Req_EM_T a 0); [reflexivity|].
    unfold elementwise at 1. rewrite Hp, HlA, Nat.eqb_refl. cbn [bind].
    unfold np_dot. rewrite zipwith_length, Hp, HlAB, HlA, Nat.eqb_refl by lia.
    cbn [bind]. fold b. fold t0.
    destruct (Rlt_dec t0 0); [reflexivity|].
    destruct (Rgt_dec t0 1); [reflexivity|].
    unfold elementwise. rewrite scale_length, HlAB, Nat.eqb_refl.
    reflexivity. }
  assert (Hz : a = 0 <-> A = B).
  { split; intros H.
    - symmetry. apply sumsq_diff_zero; [lia|exact H].
    - unfold a, AB. rewrite H. apply sumsq_diff_same. }
  rewrite Hrun.
  destruct (Req_EM_T a 0) as [Ea|Na].
  - (* A and B are the same point *)
    assert (Eb : b = 0) by (apply sumsq_zero_dot; exact Ea).
    assert (EAB : A = B) by (apply Hz, Ea).
    exists A. split; [reflexivity|].
    split; [|split; [|split; [|split; [|split]]]].
    + exists 0. split; [lra|]. symmetry; exact E0.
    + reflexivity.
    + intros N; contradiction.
    + intros N; contradiction.
    + intros N; contradiction.
    + pose proof (Hmin 0) as H0. rewrite E0 in H0.
      apply H0. intros s Hs. rewrite Ea, Eb. lra.
  - assert (Hpos : 0 < a) by lra.
    assert (Hb : b = t0 * a) by (unfold t0; field; exact Na).
    assert (NAB : A <> B) by (intros E; apply Na, Hz, E).
    destruct (Rlt_dec t0 0) as [Lt|Ge].
    + exists A. split; [reflexivity|].
      split; [|split; [|split; [|split; [|split]]]].
      * exists 0. split; [lra|]. symmetry; exact E0.
      * reflexivity.
      * reflexivity.
      * intros _ H; lra.
      * intros _ H; lra.
      * pose proof (Hmin 0) as H0. rewrite E0 in H0.
        apply H0. intros s Hs. rewrite Hb.
        assert (0 <= s * a) by (apply Rmult_le_pos; lra).
        assert (0 <= (- t0) * (s * a)) by (apply Rmult_le_pos; lra).
        assert (0 <= s * (s * a)) by (apply Rmult_le_pos; lra).
        lra.
    + destruct (Rgt_dec t0 1) as [Gt|Le].
      * exists B. split; [reflexivity|].
        split; [|split; [|split; [|split; [|split]]]].
        -- exists 1. split; [lra|]. symmetry; exact E1.
        -- intros E; contradiction.
        -- intros _ H; lra.
        -- reflexivity.
        -- intros _ H; lra.
        -- pose proof (Hmin 1) as H1. rewrite E1 in H1.
           apply H1. intros s Hs. rewrite Hb.
           assert (0 <= (1 - s) * a) by (apply Rmult_le_pos; lra).
           assert (0 <= (2 * t0 - 1 - s) * ((1 - s) * a))
             by (apply Rmult_le_pos; lra).
           lra.
      * exists (point_on A B t0). split; [reflexivity|].
        split; [|split; [|split; [|split; [|split]]]].
        -- exists t0. split; [lra|reflexivity].
        -- intros E; contradiction.
        -- intros _ H; lra.
        -- intros _ H; lra.
        -- reflexivity.
        -- apply Hmin. intros s Hs. rewrite Hb.
           assert (0 <= a * (s - t0) ^ 2) by (apply Rmult_le_pos; [lra|apply pow2_ge_0]).
           lra.
Qed.

(** The hypotheses of the theorem hold for the point (1, 1) and the
    segment from (0, 0) to (2, 0). *)
Lemma project_point_to_line_segment_closest_witness :
  Forall (fun r => length r = 2%nat) [[0; 2]; [0; 0]] /\
  length [1; 1] = length [[0; 2]; [0; 0]] /\
  exists q,
    project_point_to_line_segment [1; 1] [[0; 2]; [0; 0]] = Ok q /\
    forall s, 0 <= s <= 1 ->
      dist [1; 1] q <= dist [1; 1] (point_on [0; 0] [2; 0] s).
Proof.
  assert (H1 : Forall (fun r : list R => length r = 2%nat) [[0; 2]; [0; 0]])
    by (repeat constructor).
  assert (H2 : length [1; 1] = length [[0; 2]; [0; 0]]) by reflexivity.
  split; [exact H1|split; [exact H2|]].
  destruct (project_point_to_line_segment_closest _ _ H1 H2)
    as (q & Hq & _ & _ & _ & _ & _ & Hmin).
  exists q. split; [exact Hq|exact Hmin].
Defined.

(** ** The Gaussian kernel ([con_K]) *)

Lemma gaussian_kernel_sq_distances :
  forall x y beta,
    gaussian_kernel x y beta =
    map (map (fun s => exp (- beta * s))) (sq_distances x y).
Proof.
  intros. unfold gaussian_kernel, sq_distances.
  rewrite map_map. apply map_ext. intros xi. rewrite map_map. reflexivity.
Qed.

Lemma ndmap_ndmap :
  forall f g a, ndmap f (ndmap g a) = ndmap (fun s => f (g s)) a.
Proof.
  intros f g [s|v|m]; cbn; f_equal.
  - apply map_map.
  - rewrite map_map. apply map_ext. intros r. apply map_map.
Qed.

Lemma cdist_sqeuclidean_ok :
  forall d x y,
    Forall (fun r => length r = d) x -> Forall (fun r => length r = d) y ->
    cdist_sqeuclidean x y = Ok (sq_distances x y).
Proof.
  intros d x y Hx Hy. unfold cdist_sqeuclidean, sq_distances.
  apply mapM_ok. intros xi Hxi. apply mapM_ok. intros yj Hyj.
  rewrite Forall_forall in Hx, Hy.
  unfold sqeuclidean. rewrite (Hx xi Hxi), (Hy yj Hyj), Nat.eqb_refl.
  reflexivity.
Qed.

Lemma D_block_ok :
  forall d xi y,
    length xi = d -> Forall (fun r => length r = d) y ->
    D_block xi y =
    Ok (map (fun k => map (fun yj => nth k xi 0 - nth k yj 0) y) (seq 0 d)).
Proof.
  intros d xi y Hxi Hy. unfold D_block.
  rewrite (mapM_ok _ _ _ (zipwith Rminus xi)).
  2:{ intros yj Hyj. rewrite Forall_forall in Hy. unfold elementwise.
      rewrite Hxi, (Hy yj Hyj), Nat.eqb_refl. reflexivity. }
  cbn [bind]. f_equal.
  assert (Hd : match map (zipwith Rminus xi) y with
               | [] => length xi
               | d0 :: _ => length d0
               end = d).
  { destruct y as [|y0 y]; [exact Hxi|]. cbn [map].
    rewrite zipwith_length; [exact Hxi|]. inversion Hy; subst; congruence. }
  rewrite Hd. apply map_ext. intros k. rewrite map_map.
  apply map_ext_in. intros yj Hyj. apply nth_zipwith_minus.
  rewrite Forall_forall in Hy. rewrite (Hy yj Hyj). exact Hxi.
Qed.

Lemma sum_sq_axis_block :
  forall d xi y,
    length xi = d -> Forall (fun r => length r = d) y ->
    sum_sq_axis (length y)
      (map (fun k => map (fun yj => nth k xi 0 - nth k yj 0) y) (seq 0 d)) =
    map (fun yj => sumsq (zipwith Rminus xi yj)) y.
Proof.
  intros d xi y Hxi Hy. unfold sum_sq_axis.
  rewrite <- (map_nth_seq _ _ (fun yj => sumsq (zipwith Rminus xi yj)) y []).
  apply map_ext_in. intros j Hj. apply in_seq in Hj.
  rewrite map_map.
  rewrite <- sum_sq_coordinates.
  2:{ rewrite Hxi. symmetry.
      rewrite Forall_forall in Hy. apply Hy, nth_In. lia. }
  rewrite Hxi. f_equal. apply map_ext. intros k.
  rewrite (nth_indep _ 0 (nth k xi 0 - nth k [] 0))
    by (rewrite length_map; apply Hj).
  rewrite (map_nth (fun yj => nth k xi 0 - nth k yj 0)). reflexivity.
Qed.

Lemma ndmap_squeeze2 :
  forall f n m (S : mat),
    length S = n -> Forall (fun r => length r = m) S ->
    ndmap f (squeeze2 n m S) = squeeze2 n m (map (map f) S).
Proof.
  intros f n m S Hn Hm. unfold squeeze2.
  destruct (n =? 1)%nat eqn:En.
  - apply Nat.eqb_eq in En. subst n.
    destruct S as [|r [|? ?]]; try discriminate.
    inversion Hm as [|? ? Hr _]; subst.
    destruct (length r =? 1)%nat eqn:Em; cbn; [|reflexivity].
    apply Nat.eqb_eq in Em. destruct r as [|s [|? ?]]; try discriminate.
    reflexivity.
  - destruct (m =? 1)%nat eqn:Em; [|reflexivity].
    apply Nat.eqb_eq in Em. subst m. cbn. f_equal.
    rewrite !map_map. apply map_ext_in. intros r Hr.
    rewrite Forall_forall in Hm. specialize (Hm r Hr).
    destruct r as [|s [|? ?]]; try discriminate. reflexivity.
Qed.

Lemma sq_distances_shape :
  forall x y,
    length (sq_distances x y) = length x /\
    Forall (fun r => length r = length y) (sq_distances x y).
Proof.
  intros x y. unfold sq_distances. split; [apply length_map|].
  apply Forall_forall. intros r Hr. apply in_map_iff in Hr.
  destruct Hr as [xi [<- _]]. apply length_map.
Qed.

(** What [con_K] returns: for [n] points [x] and [m] control points
    [y] of one dimension [d], every entry [con_K] returns is
    [exp (- beta * |x_i - y_j|^2)].  The [cdist] route returns the [n] x [m]
    matrix, flattened to a 1-D array when [n = 1].  The route through the
    pairwise differences returns that matrix with every axis of length one
    squeezed out, and with it the differences [D] when they are asked
    for. *)
Theorem con_K_gaussian_kernel :
  forall d (x y : mat) (b : R) (method : string),
    Forall (fun r => length r = d) x ->
    Forall (fun r => length r = d) y ->
    let G := gaussian_kernel x y b in
    con_K x y b "cdist" false =
      Ok ((if (length x =? 1)%nat then Arr1 (concat G) else Arr2 G), None) /\
    con_K x y b method true =
      Ok (squeeze2 (length x) (length y) G, Some (pairwise_differences d x y)) /\
    (method <> "cdist"%string ->
     con_K x y b method false = Ok (squeeze2 (length x) (length y) G, None)).
Proof.
  intros d x y b method Hx Hy G.
  assert (HD : mapM (fun xi => D_block xi y) x = Ok (pairwise_differences d x y)).
  { unfold pairwise_differences. apply mapM_ok. intros xi Hxi.
    rewrite Forall_forall in Hx. apply D_block_ok; [apply Hx, Hxi|exact Hy]. }
  assert (HS : map (sum_sq_axis (length y)) (pairwise_differences d x y) =
               sq_distances x y).
  { unfold pairwise_differences, sq_distances. rewrite map_map.
    apply map_ext_in. intros xi Hxi. rewrite Forall_forall in Hx.
    apply sum_sq_axis_block; [apply Hx, Hxi|exact Hy]. }
  destruct (sq_distances_shape x y) as [Sn Sm].
  assert (HK : ndmap exp (ndmap (Rmult (- b))
                 (squeeze2 (length x) (length y) (sq_distances x y))) =
               squeeze2 (length x) (length y) G).
  { rewrite ndmap_ndmap, ndmap_squeeze2 by assumption.
    unfold G. rewrite gaussian_kernel_sq_distances. reflexivity. }
  split; [|split].
  - unfold con_K. cbn [String.eqb Ascii.eqb Bool.eqb negb andb].
    rewrite (cdist_sqeuclidean_ok d) by assumption. cbn [bind].
    rewrite Sn. unfold G. rewrite gaussian_kernel_sq_distances.
    destruct (length x =? 1)%nat; rewrite ndmap_ndmap; cbn [ndmap].
    + rewrite concat_map. reflexivity.
    + reflexivity.
  - unfold con_K. cbn [negb]. rewrite andb_false_r.
    rewrite HD. cbn [bind]. rewrite HS, HK. reflexivity.
  - intros Hm. unfold con_K.
    apply String.eqb_neq in Hm. rewrite Hm. cbn [andb].
    rewrite HD. cbn [bind]. rewrite HS, HK. reflexivity.
Qed.

(** The theorem at two points of the plane and one control point: the
    route through the differences returns a 1-D array of length two. *)
Lemma con_K_gaussian_kernel_witness :
  Forall (fun r => length r = 2%nat) [[0; 0]; [1; 0]] /\
  Forall (fun r => length r = 2%nat) [[0; 0]] /\
  con_K [[0; 0]; [1; 0]] [[0; 0]] 1 "cdist" true =
    Ok (Arr1 (map (fun r => nth 0 r 0)
                  (gaussian_kernel [[0; 0]; [1; 0]] [[0; 0]] 1)),
        Some (pairwise_differences 2 [[0; 0]; [1; 0]] [[0; 0]])).
Proof.
  assert (H1 : Forall (fun r : list R => length r = 2%nat) [[0; 0]; [1; 0]])
    by (repeat constructor).
  assert (H2 : Forall (fun r : list R => length r = 2%nat) [[0; 0]])
    by (repeat constructor).
  split; [exact H1|split; [exact H2|]].
  exact (proj1 (proj2
    (con_K_gaussian_kernel 2 [[0; 0]; [1; 0]] [[0; 0]] 1 "cdist" H1 H2))).
Defined.

(** C3: [con_K] is to return the kernel of a single row [x] as a 1-D
    array on both routes.  For one point and one control point the route
    through the pairwise differences ([return_d=True]) returns a 0-d array
    together with the differences, and no 1-D array: [np.squeeze] removes
    the axis of the control points along with the axis of the points. *)
Lemma con_K_single_pair_is_0d :
  (exists k D, con_K [[0]] [[0]] 1 "cdist" true = Ok (Arr0 k, Some D)) /\
  ~ (exists v D, con_K [[0]] [[0]] 1 "cdist" true = Ok (Arr1 v, D)).
Proof.
  assert (E : exists k D, con_K [[0]] [[0]] 1 "cdist" true = Ok (Arr0 k, Some D))
    by (do 2 eexists; reflexivity).
  split; [exact E|].
  destruct E as (k & D & E). intros (v & D' & H).
  rewrite E in H. discriminate H.
Qed.

(** ** Evaluation of the vector field ([vector_field_function]) *)

(** Asking that model for the divergence-free kernel returns a value. *)
Lemma vector_field_function_df_kernel_returns :
  exists v,
    vector_field_function (fun _ _ _ _ => Raise Exception_)
      (Arr1 [0]) vf_one_ctrl None "df_kernel" = Ok (Arr1 v).
Proof. eexists. reflexivity. Qed.

(** C5, as the code has it: the [kernel] argument is looked at only on a
    model with [div_cur_free_kernels].  Without that key every kernel name
    gives what ['full'] gives, which is the Gaussian kernel of [con_K]
    applied to the coefficients [C], or to their column [dim].  With the
    key, each of the three known names goes on to the kernels of
    [con_K_div_cur_free] and takes its own one of them, so that an error
    can then only come from the model or from the arrays; every other
    name is refused with [ValueError]. *)
Theorem vector_field_function_ignores_kernel :
  forall cdcf (x : ndarray) (vf : vf_dict) (dim : option nat) (kernel : string),
    (div_cur_free_kernels vf = None ->
     vector_field_function cdcf x vf dim kernel =
       vector_field_function cdcf x vf dim "full" /\
     vector_field_function cdcf x vf dim kernel =
       (xc <- lookup (X_ctrl vf) ;;
        b <- lookup (beta vf) ;;
        x2 <- as_points x ;;
        K <- con_K x2 xc b "cdist" false ;;
        c <- lookup (C vf) ;;
        match dim with
        | Some j => cj <- getcol c j ;; dot_vec (fst K) cj
        | None => dot_mat (fst K) c
        end)) /\
    (forall flag, div_cur_free_kernels vf = Some flag ->
       kernel = "full"%string \/ kernel = "df_kernel"%string \/
       kernel = "cf_kernel"%string ->
       vector_field_function cdcf x vf dim kernel =
         (xc <- lookup (X_ctrl vf) ;;
          s <- lookup (sigma vf) ;;
          e <- lookup (eta vf) ;;
          x2 <- as_points x ;;
          Ks <- cdcf x2 xc s e ;;
          c <- lookup (C vf) ;;
          dot_mat (Arr2 (if String.eqb kernel "full" then fst (fst Ks)
                         else if String.eqb kernel "df_kernel" then snd (fst Ks)
                         else snd Ks)) c)) /\
    (forall flag, div_cur_free_kernels vf = Some flag ->
       kernel <> "full"%string -> kernel <> "df_kernel"%string ->
       kernel <> "cf_kernel"%string ->
       vector_field_function cdcf x vf dim kernel = Raise ValueError).
Proof.
  intros cdcf x vf dim kernel. split; [|split].
  - intros H. unfold vector_field_function. rewrite H.
    split; [reflexivity|].
    destruct (lookup (X_ctrl vf)) as [xc|e]; cbn [bind]; [|reflexivity].
    destruct (lookup (beta vf)) as [b|e]; cbn [bind]; [|reflexivity].
    destruct (as_points x) as [x2|e]; cbn [bind]; [|reflexivity].
    destruct (con_K x2 xc b "cdist" false) as [[K D]|e]; cbn [bind fst];
      [|reflexivity].
    destruct dim; reflexivity.
  - intros flag H Hname. unfold vector_field_function. rewrite H.
    assert (Hind :
      (if String.eqb kernel "full" then Ok 0%nat
       else if String.eqb kernel "df_kernel" then Ok 1%nat
       else if String.eqb kernel "cf_kernel" then Ok 2%nat
       else Raise ValueError) =
      Ok (if String.eqb kernel "full" then 0%nat
          else if String.eqb kernel "df_kernel" then 1%nat else 2%nat)).
    { destruct Hname as [E | [E | E]]; rewrite E; reflexivity. }
    rewrite Hind. cbn [bind].
    destruct (lookup (X_ctrl vf)) as [xc|e]; cbn [bind]; [|reflexivity].
    destruct (lookup (sigma vf)) as [sg|e]; cbn [bind]; [|reflexivity].
    destruct (lookup (eta vf)) as [et|e]; cbn [bind]; [|reflexivity].
    destruct (as_points x) as [x2|e]; cbn [bind]; [|reflexivity].
    destruct (cdcf x2 xc sg et) as [[[G df] cf]|e]; cbn [bind fst snd];
      [|reflexivity].
    assert (Hsel :
      match (if String.eqb kernel "full" then 0%nat
             else if String.eqb kernel "df_kernel" then 1%nat else 2%nat) with
      | O => G
      | S O => df
      | S (S _) => cf
      end =
      (if String.eqb kernel "full" then G
       else if String.eqb kernel "df_kernel" then df else cf)).
    { destruct (String.eqb kernel "full"); [reflexivity|].
      destruct (String.eqb kernel "df_kernel"); reflexivity. }
    rewrite Hsel. destruct dim; reflexivity.
  - intros flag H H1 H2 H3. unfold vector_field_function. rewrite H.
    apply String.eqb_neq in H1, H2, H3.
    rewrite H1, H2, H3. reflexivity.
Qed.

Lemma vector_field_function_ignores_kernel_witness :
  let vf := {| X_ctrl := Some [[0]]; beta := None; C := Some [[1]];
               sigma := Some 1; eta := Some 1;
               div_cur_free_kernels := Some true |} in
  let kernels := fun (_ _ : mat) (_ _ : R) => Ok ([[1]], [[2]], [[3]]) in
  (div_cur_free_kernels vf_one_ctrl = None /\
   vector_field_function (fun _ _ _ _ => Raise Exception_)
     (Arr1 [0]) vf_one_ctrl None "cf_kernel" =
   vector_field_function (fun _ _ _ _ => Raise Exception_)
     (Arr1 [0]) vf_one_ctrl None "full") /\
  (div_cur_free_kernels vf = Some true /\
   vector_field_function kernels (Arr1 [0]) vf None "cf_kernel" =
     dot_mat (Arr2 [[3]]) [[1]]) /\
  ("kernel"%string <> "full"%string /\
   vector_field_function kernels (Arr1 [0]) vf None "kernel" = Raise ValueError).
Proof.
  intros vf kernels.
  assert (N1 : "kernel"%string <> "full"%string) by discriminate.
  assert (N2 : "kernel"%string <> "df_kernel"%string) by discriminate.
  assert (N3 : "kernel"%string <> "cf_kernel"%string) by discriminate.
  split; [|split].
  - split; [reflexivity|].
    exact (proj1 (proj1 (vector_field_function_ignores_kernel
      (fun _ _ _ _ => Raise Exception_) (Arr1 [0]) vf_one_ctrl None "cf_kernel")
      eq_refl)).
  - split; [reflexivity|].
    exact (proj1 (proj2 (vector_field_function_ignores_kernel
      kernels (Arr1 [0]) vf None "cf_kernel")) true eq_refl
      (or_intror (or_intror eq_refl))).
  - split; [exact N1|].
    exact (proj2 (proj2 (vector_field_function_ignores_kernel
      kernels (Arr1 [0]) vf None "kernel")) true eq_refl N1 N2 N3).
Defined.

(** X11: the one error raised on account of the kernel name: a model with
    [div_cur_free_kernels] and a name outside the three known ones. *)
Lemma vector_field_function_unknown_kernel :
  forall cdcf (x : ndarray) (vf : vf_dict) dim kernel flag,
    div_cur_free_kernels vf = Some flag ->
    kernel <> "full"%string -> kernel <> "df_kernel"%string ->
    kernel <> "cf_kernel"%string ->
    vector_field_function cdcf x vf dim kernel = Raise ValueError.
Proof.
  intros cdcf x vf dim kernel flag H H1 H2 H3.
  unfold vector_field_function. rewrite H.
  apply String.eqb_neq in H1, H2, H3.
  rewrite H1, H2, H3. reflexivity.
Qed.

(** ** The analytical Jacobian ([Jacobian_rkhs_gaussian]) *)

(** C4, at one point and one control point (the model [vf_one_ctrl]): the
    loop over the points returns the 1 x 1 x 1 Jacobian, while the
    vectorized route hands the 0-d kernel of [con_K] to [einsum], which
    refuses it. *)
Theorem Jacobian_rkhs_gaussian_single_control_point :
  (exists J,
     Jacobian_rkhs_gaussian (Arr2 [[0]]) vf_one_ctrl false = Ok (JTen [[[J]]])
     /\ J = 0) /\
  Jacobian_rkhs_gaussian (Arr2 [[0]]) vf_one_ctrl true = Raise ValueError.
Proof.
  split; [|reflexivity].
  eexists. split; [reflexivity|].
  cbn. ring.
Qed.

Section ClosedForm.

Variables (d : nat) (xc c : mat) (b : R) (vf : vf_dict).
Hypothesis HX : X_ctrl vf = Some xc.
Hypothesis Hbeta : beta vf = Some b.
Hypothesis HC : C vf = Some c.
Hypothesis Hd : (0 < d)%nat.
Hypothesis Hm : (2 <= length xc)%nat.
Hypothesis Hlen : length c = length xc.
Hypothesis Hxc : Forall (fun r => length r = d) xc.
Hypothesis Hc : Forall (fun r => length r = d) c.

(** One turn of the loop over the points: [(C.T * K) @ D[0].T]. *)
Lemma jac_point_closed_form :
  forall xi,
    length xi = d ->
    jac_point xi vf =
    Ok (map (fun i => map (fun j => sum (map (ctrl_term b i j xi) (combine xc c)))
                          (seq 0 d)) (seq 0 d)).
Proof.
  intros xi Hxi. unfold jac_point. rewrite HX, Hbeta, HC. cbn [lookup bind].
  assert (Hx1 : Forall (fun r : list R => length r = d) [xi])
    by (constructor; [exact Hxi|constructor]).
  destruct (con_K_gaussian_kernel d [xi] xc b "cdist" Hx1 Hxc) as (_ & HK & _).
  unfold con_K_d. unfold mat, vec in *. rewrite HK. cbn [bind snd fst]. clear HK.
  set (row := map (fun yj => exp (- b * sumsq (zipwith Rminus xi yj))) xc).
  replace (squeeze2 (length [xi]) (length xc) (gaussian_kernel [xi] xc b))
    with (Arr1 row).
  2:{ unfold squeeze2. cbn [length Nat.eqb].
      destruct (length xc =? 1)%nat eqn:E; [apply Nat.eqb_eq in E; lia|].
      reflexivity. }
  cbn [pairwise_differences map getitem nth_error bind].
  set (D0 := map (fun k => map (fun yj => nth k xi 0 - nth k yj 0) xc) (seq 0 d)).
  assert (Hcr : rect2 (length xc) d c) by (split; assumption).
  assert (Htc : rect2 d (length xc) (transpose c))
    by (apply transpose_rect; [lia|exact Hcr]).
  assert (HD0 : rect2 d (length xc) D0).
  { split; [unfold D0; rewrite length_map; apply length_seq|].
    apply Forall_forall. intros r Hr. apply in_map_iff in Hr.
    destruct Hr as [k [<- _]]. apply length_map. }
  assert (Hrow : length row = length xc) by apply length_map.
  unfold mul_broadcast.
  rewrite (mapM_ok _ _ _ (fun r => zipwith Rmult r row)).
  2:{ intros r Hr. destruct Htc as [_ Htc]. rewrite Forall_forall in Htc.
      unfold elementwise. rewrite (Htc r Hr), Hrow, Nat.eqb_refl. reflexivity. }
  cbn [bind]. unfold matmul.
  assert (Hck : ncols (map (fun r => zipwith Rmult r row) (transpose c)) =
                length (transpose D0)).
  { destruct (transpose_rect d (length xc) D0 Hd HD0) as [-> _].
    apply (ncols_rect d); [exact Hd|]. destruct Htc as [Hl Hr]. split.
    - rewrite length_map. exact Hl.
    - apply Forall_forall. intros r Hin. apply in_map_iff in Hin.
      destruct Hin as [r0 [<- Hr0]]. rewrite Forall_forall in Hr.
      rewrite zipwith_length; rewrite (Hr r0 Hr0); [reflexivity|].
      symmetry; exact Hrow. }
  rewrite Hck, Nat.eqb_refl.
  rewrite (transpose_involutive d (length xc)) by (assumption || lia).
  f_equal. unfold transpose. rewrite (ncols_rect (length xc) d) by (assumption || lia).
  rewrite !map_map. apply map_ext. intros i.
  unfold D0. rewrite map_map. apply map_ext. intros j.
  unfold col, row.
  apply (dot_weighted (fun cq => nth i cq 0)
           (fun y => exp (- b * sumsq (zipwith Rminus xi y)))
           (fun y => nth j xi 0 - nth j y 0) xc c Hlen).
Qed.

End ClosedForm.

Section PathsAgree.

Variables (d : nat) (x xc c : mat) (b : R) (vf : vf_dict).
Hypothesis HX : X_ctrl vf = Some xc.
Hypothesis Hbeta : beta vf = Some b.
Hypothesis HC : C vf = Some c.
Hypothesis Hd : (0 < d)%nat.
Hypothesis Hn : (0 < length x)%nat.
Hypothesis Hm : (2 <= length xc)%nat.
Hypothesis Hlen : length c = length xc.
Hypothesis Hx : Forall (fun r => length r = d) x.
Hypothesis Hxc : Forall (fun r => length r = d) xc.
Hypothesis Hc : Forall (fun r => length r = d) c.

Lemma closed_form_terms :
  jacobian_closed_form d x xc c b =
  map (fun i => map (fun j =>
         map (fun xp => -2 * b * sum (map (ctrl_term b i j xp) (combine xc c))) x)
       (seq 0 d)) (seq 0 d).
Proof. reflexivity. Qed.

(** The loop over the points computes the closed form. *)
Lemma Jacobian_loop_closed_form :
  Jacobian_rkhs_gaussian (Arr2 x) vf false =
  Ok (JTen (jacobian_closed_form d x xc c b)).
Proof.
  unfold Jacobian_rkhs_gaussian. cbn [negb].
  assert (Hcols : ncols x = d)
    by (apply (ncols_rect (length x)); [exact Hn|split; [reflexivity|exact Hx]]).
  rewrite Hcols.
  set (M := fun xi => map (fun i => map (fun j =>
                sum (map (ctrl_term b i j xi) (combine xc c))) (seq 0 d)) (seq 0 d)).
  rewrite (mapM_ok _ _ _ M).
  2:{ intros xi Hxi. rewrite Forall_forall in Hx.
      rewrite (jac_point_closed_form d xc c b vf HX Hbeta HC Hd Hm Hlen Hxc Hc xi)
        by (apply Hx, Hxi).
      cbn [bind]. unfold M. apply broadcast_to2_rect. split.
      - rewrite length_map. apply length_seq.
      - apply Forall_forall. intros r Hr. apply in_map_iff in Hr.
        destruct Hr as [i [<- _]]. rewrite length_map. apply length_seq. }
  cbn [bind]. rewrite Hbeta. cbn [lookup bind]. do 2 f_equal.
  rewrite closed_form_terms. unfold stack_last. rewrite map_map.
  apply map_ext_in. intros i Hi. apply in_seq in Hi.
  rewrite map_map. apply map_ext_in. intros j Hj. apply in_seq in Hj.
  unfold scale. rewrite !map_map. apply map_ext. intros xp.
  unfold M. rewrite (nth_map_seq _ _ d i []) by lia.
  rewrite (nth_map_seq _ _ d j 0) by lia. reflexivity.
Qed.

(** The vectorized route computes it too, as long as the model has more
    than one control point. *)
Lemma Jacobian_vectorized_closed_form :
  Jacobian_rkhs_gaussian (Arr2 x) vf true =
  Ok (JTen (jacobian_closed_form d x xc c b)).
Proof.
  unfold Jacobian_rkhs_gaussian. cbn [negb].
  rewrite HX, Hbeta, HC. cbn [lookup bind].
  destruct (con_K_gaussian_kernel d x xc b "cdist" Hx Hxc) as (_ & HK & _).
  unfold con_K_d. unfold ten, mat, vec in *. rewrite HK. cbn [bind snd fst]. clear HK.
  set (G := gaussian_kernel x xc b). set (D := pairwise_differences d x xc).
  assert (HG : length G = length x) by apply length_map.
  assert (HD : length D = length x) by apply length_map.
  assert (HK2 : match squeeze2 (length x) (length xc) G with
                | Arr0 _ => Raise ValueError
                | Arr1 k => Ok [k]
                | Arr2 k => Ok k
                end = Ok G).
  { unfold squeeze2.
    destruct (length xc =? 1)%nat eqn:E; [apply Nat.eqb_eq in E; lia|].
    destruct (length x =? 1)%nat eqn:E1; [|reflexivity].
    apply Nat.eqb_eq in E1. rewrite <- HG in E1.
    destruct G as [|g [|? ?]]; try discriminate. reflexivity. }
  unfold ten, mat, vec in *. rewrite HK2. cbn [bind]. clear HK2.
  assert (HGc : ncols G = length xc).
  { unfold G, gaussian_kernel. destruct x as [|x0 x']; [cbn in Hn; lia|].
    cbn [map]. unfold ncols. cbn [hd]. apply length_map. }
  assert (HDj : length (hd [] D) = d).
  { unfold D, pairwise_differences. destruct x as [|x0 x']; [cbn in Hn; lia|].
    cbn [map hd]. rewrite length_map. apply length_seq. }
  assert (HDm : length (hd [] (hd [] D)) = length xc).
  { unfold D, pairwise_differences. destruct x as [|x0 x']; [cbn in Hn; lia|].
    cbn [map hd]. destruct d as [|d']; [lia|]. cbn [seq map hd].
    apply length_map. }
  assert (Hcc : ncols c = d).
  { apply (ncols_rect (length xc)); [lia|split; assumption]. }
  unfold einsum_nm_mi_njm_ijn. unfold ten, mat, vec in *.
  rewrite HG, HD, HGc, HDm, Hlen, HDj, Hcc.
  assert (Hmax2 : list_max [length x; length x] = length x)
    by (cbn; lia).
  assert (Hmax3 : list_max [length xc; length xc; length xc] = length xc)
    by (cbn; lia).
  assert (Hcompat :
    compatible [length x; length x] && compatible [length xc; length xc; length xc]
    = true).
  { unfold compatible. rewrite Hmax2, Hmax3. cbn [forallb].
    rewrite !Nat.eqb_refl. reflexivity. }
  rewrite Hcompat, Hmax2, Hmax3. cbn [bind]. do 2 f_equal.
  rewrite closed_form_terms, map_map.
  apply map_ext_in. intros i Hi. apply in_seq in Hi.
  rewrite map_map. apply map_ext_in. intros j Hj. apply in_seq in Hj.
  unfold scale. rewrite map_map.
  etransitivity.
  2:{ apply (map_nth_seq vec R (fun xp =>
               -2 * b * sum (map (ctrl_term b i j xp) (combine xc c))) x []). }
  apply map_ext_in. intros p Hp. apply in_seq in Hp. unfold ten, mat, vec in *.
  f_equal.
  set (xp := nth p x []).
  assert (Hbx : forall (Y : Type) (l : list Y) (dy : Y),
            length l = length x -> bnth dy l p = nth p l dy).
  { intros Y l dy Hl. unfold bnth. destruct (length l =? 1)%nat eqn:E; [|reflexivity].
    apply Nat.eqb_eq in E. assert (p = 0)%nat by lia. subst p. reflexivity. }
  assert (Hbm : forall (Y : Type) (l : list Y) (dy : Y) q,
            length l = length xc -> bnth dy l q = nth q l dy).
  { intros Y l dy q Hl. unfold bnth.
    destruct (length l =? 1)%nat eqn:E; [apply Nat.eqb_eq in E; lia|reflexivity]. }
  rewrite (Hbx _ G [] HG), (Hbx _ D [] HD).
  assert (HGp : nth p G [] =
                map (fun yj => exp (- b * sumsq (zipwith Rminus xp yj))) xc).
  { unfold G, gaussian_kernel.
    apply (nth_map_default (list R) (list R)
             (fun xi => map (fun yj => exp (- b * sumsq (zipwith Rminus xi yj))) xc)
             x p [] []). lia. }
  assert (HDp : nth j (nth p D []) [] =
                map (fun yj => nth j xp 0 - nth j yj 0) xc).
  { unfold D, pairwise_differences.
    rewrite (nth_map_default (list R) (list (list R))
               (fun xi => map (fun k => map (fun yj => nth k xi 0 - nth k yj 0) xc)
                              (seq 0 d))
               x p [] []) by lia.
    fold xp.
    apply (nth_map_seq (list R)
             (fun k => map (fun yj => nth k xp 0 - nth k yj 0) xc) d j []). lia. }
  rewrite HGp, HDp.
  transitivity
    (sum (map (fun q => ctrl_term b i j xp (nth q xc [], nth q c []))
              (seq 0 (length xc)))).
  2:{ f_equal.
      rewrite (map_nth_seq2 (list R) (list R) R
                 (fun y cq => ctrl_term b i j xp (y, cq)) xc c [] [] (eq_sym Hlen)).
      apply map_ext. intros [y cq]. reflexivity. }
  apply sum_ext. intros q Hq. apply in_seq in Hq.
  rewrite !Hbm by (rewrite ?length_map; auto). unfold ten, mat, vec in *.
  rewrite (nth_map_default (list R) R
             (fun yj => exp (- b * sumsq (zipwith Rminus xp yj))) xc q [] 0) by lia.
  rewrite (nth_map_default (list R) R
             (fun yj => nth j xp 0 - nth j yj 0) xc q [] 0) by lia.
  unfold ctrl_term. cbn [fst snd]. ring.
Qed.

End PathsAgree.

(** X12: for points of dimension [d], a model with at least two control points
    and coefficients of the shape of the control points, the loop and the
    vectorized route of [Jacobian_rkhs_gaussian] return the same array,
    the closed form. *)
Lemma Jacobian_rkhs_gaussian_paths_agree :
  forall d (x xc c : mat) (b : R) (vf : vf_dict),
    X_ctrl vf = Some xc -> beta vf = Some b -> C vf = Some c ->
    (0 < d)%nat -> (0 < length x)%nat -> (2 <= length xc)%nat ->
    length c = length xc ->
    Forall (fun r => length r = d) x ->
    Forall (fun r => length r = d) xc ->
    Forall (fun r => length r = d) c ->
    Jacobian_rkhs_gaussian (Arr2 x) vf false =
      Ok (JTen (jacobian_closed_form d x xc c b)) /\
    Jacobian_rkhs_gaussian (Arr2 x) vf true =
      Jacobian_rkhs_gaussian (Arr2 x) vf false.
Proof.
  intros d x xc c b vf HX Hb HC Hd Hn Hm Hl Hx Hxc Hc.
  pose proof (Jacobian_loop_closed_form d x xc c b vf
                HX Hb HC Hd Hn Hm Hl Hx Hxc Hc) as H1.
  pose proof (Jacobian_vectorized_closed_form d x xc c b vf
                HX Hb HC Hd Hn Hm Hl Hx Hxc Hc) as H2.
  split; [exact H1|]. rewrite H1, H2. reflexivity.
Qed.

(** ** Curl ([compute_curl]) *)

(** C6, at one point of 3-D space: the 3-vector of [_curl] does not fit
    the 2 x 2 slot that [compute_curl] allocates for it. *)
Theorem compute_curl_three_dimensions_raises :
  compute_curl (fun _ => Ok [[0; 0; 0]; [0; 0; 0]; [0; 0; 0]]) [[0; 0; 0]]
  = Raise ValueError
  /\ _curl [[0; 0; 0]; [0; 0; 0]; [0; 0; 0]] = Ok [0 - 0; 0 - 0; 0 - 0].
Proof. split; reflexivity. Qed.

(** In three dimensions no Jacobian makes [compute_curl] return. *)
Lemma compute_curl_3d_never_returns :
  forall f_jac (X : mat),
    ncols X = 3%nat ->
    exists e, compute_curl f_jac X = Raise e.
Proof.
  intros f_jac X H. unfold compute_curl. rewrite H. cbn [Nat.ltb Nat.leb Nat.eqb].
  destruct X as [|xi X]; [discriminate H|].
  cbn [mapM bind].
  destruct (f_jac xi) as [J|e]; cbn [bind]; [|eexists; reflexivity].
  unfold _curl.
  repeat match goal with
  | |- context [getitem2 ?a ?i ?j] =>
      destruct (getitem2 a i j); cbn [bind]; [|eexists; reflexivity]
  end.
  eexists; reflexivity.
Qed.

(** In two dimensions every point gets [J[1, 0] - J[0, 1]]; above three
    dimensions the call is refused; in one dimension it is not. *)
Lemma compute_curl_other_dimensions :
  forall f_jac (X : mat),
    (ncols X = 2%nat ->
     compute_curl f_jac X =
       (c <- mapM (fun xi =>
                     J <- f_jac xi ;;
                     j10 <- getitem2 J 1 0 ;;
                     j01 <- getitem2 J 0 1 ;;
                     Ok (j10 - j01)) X ;;
        Ok (Curl1 c))) /\
    ((3 < ncols X)%nat -> compute_curl f_jac X = Raise Exception_) /\
    ((ncols X < 2)%nat ->
     compute_curl f_jac X =
       (c <- mapM (fun xi => J <- f_jac xi ;; w <- _curl J ;;
                             broadcast_to2 2 2 [w]) X ;;
        Ok (Curl3 c))).
Proof.
  intros f_jac X. unfold compute_curl. split; [|split]; intros H.
  - rewrite H. reflexivity.
  - apply Nat.ltb_lt in H. rewrite H. reflexivity.
  - destruct (ncols X) as [|[|k]]; [reflexivity|reflexivity|lia].
Qed.

(** ** Curvature and torsion *)

(** The Frobenius norm of an outer product is the product of the norms: it
    does not see the angle between the two vectors. *)
Lemma norm_fro_outer : forall v a, norm_fro (outer v a) = norm v * norm a.
Proof.
  intros v a. unfold norm_fro, norm.
  rewrite <- sqrt_mult by apply sumsq_nonneg. f_equal.
  unfold outer. induction v as [|x v IH]; [cbn; ring|].
  cbn [map sum fold_right]. fold (sum (map sumsq (map (fun x0 => map (fun y => x0 * y) a) v))).
  rewrite IH, sumsq_scale, sumsq_cons. ring.
Qed.

(** What [curvature_] computes for a velocity that is not zero. *)
Lemma curvature_is_ratio_of_norms :
  forall a v, norm v <> 0 -> curvature_ a v = norm a / norm v ^ 2.
Proof.
  intros a v H. unfold curvature_. rewrite norm_fro_outer. field. exact H.
Qed.

Lemma norm_e1 : norm [1; 0; 0] = 1.
Proof.
  unfold norm. replace (sumsq [1; 0; 0]) with 1 by (cbn; ring). apply sqrt_1.
Qed.

(** C7, for an acceleration along the velocity, [v = a = (1, 0, 0)]: the
    cross product is zero and so is the curvature of the formula, but
    [curvature_] returns 1. *)
Theorem curvature_of_parallel_vectors :
  curvature_ [1; 0; 0] [1; 0; 0] = 1 /\
  curvature_formula [1; 0; 0] [1; 0; 0] = 0 /\
  norm [1; 0; 0] <> 0.
Proof.
  split; [|split].
  - rewrite curvature_is_ratio_of_norms; rewrite norm_e1; [field|lra].
  - unfold curvature_formula, norm at 1.
    replace (sumsq (cross [1; 0; 0] [1; 0; 0])) with 0 by (cbn; ring).
    rewrite sqrt_0. unfold Rdiv. ring.
  - rewrite norm_e1. lra.
Qed.

(** C8, at that point: the acceleration is [e2], [v x a = e3],
    [J a = e3] and the torsion of the formula is 1, but [compute_torsion]
    returns a 3 x 3 array of zeros for the point. *)
Theorem compute_torsion_of_shift :
  (exists t,
     compute_torsion vf_e1 f_jac_shift [[0; 0; 0]] = Ok [t] /\
     t = [[0; 0; 0]; [0; 0; 0]; [0; 0; 0]]) /\
  (exists a tau,
     matvec J_shift [1; 0; 0] = Ok a /\ a = [0; 1; 0] /\
     torsion_formula [1; 0; 0] J_shift [0; 1; 0] = Ok tau /\ tau = 1).
Proof.
  split.
  - eexists. split; [reflexivity|].
    cbn. unfold Rdiv. repeat (f_equal; try ring).
  - do 2 eexists. split; [reflexivity|]. split; [|split; [reflexivity|]].
    + cbn. repeat (f_equal; try ring).
    + unfold norm.
      replace (sumsq (cross [1; 0; 0] [0; 1; 0])) with 1 by (cbn; ring).
      rewrite sqrt_1. cbn. field.
Qed.

(** Outside three dimensions [compute_torsion] is refused. *)
Lemma compute_torsion_dimension :
  forall vf f_jac (X : mat),
    ncols X <> 3%nat -> compute_torsion vf f_jac X = Raise Exception_.
Proof.
  intros vf f_jac X H. unfold compute_torsion.
  apply Nat.eqb_neq in H. rewrite H. reflexivity.
Qed.

(** ** The Jacobian in the original space ([subset_jacobian_transformation]) *)

(** C9, on an empty sample: one worker returns the empty 2 x 2 x 0 array;
    two workers get chunks of length 0 and [range(0, 0, 0)] raises. *)
Theorem subset_jacobian_transformation_no_point :
  forall cpu_count,
    subset_jacobian_transformation cpu_count fjac_no_point
      (Arr2 []) Q_identity Q_identity (Some 1%Z) = Ok [[[]; []]; [[]; []]] /\
    subset_jacobian_transformation cpu_count fjac_no_point
      (Arr2 []) Q_identity Q_identity (Some 2%Z) = Raise ValueError.
Proof. intros cpu_count. split; reflexivity. Qed.

(** The chunks [range(0, n, k)] cover [0 .. n-1] once, in order. *)
Lemma chunks_cover_from :
  forall n k cnt c0,
    (0 < k)%nat ->
    concat (map (fun s => seq s (Nat.min k (n - s)))
                (map (fun c => (c * k)%nat) (seq c0 cnt))) =
    seq (c0 * k) (Nat.min (cnt * k) (n - c0 * k)).
Proof.
  intros n k cnt. induction cnt as [|cnt IH]; intros c0 Hk; [reflexivity|].
  cbn [seq map concat]. rewrite IH by exact Hk.
  rewrite !Nat.mul_succ_l.
  destruct (Nat.le_gt_cases k (n - c0 * k)) as [Hle|Hgt].
  - rewrite (Nat.min_l k) by exact Hle.
    rewrite <- seq_app. f_equal. lia.
  - rewrite (Nat.min_r k) by lia.
    replace (Nat.min (cnt * k) (n - (c0 * k + k))) with 0%nat by lia.
    cbn [seq]. rewrite app_nil_r. f_equal. lia.
Qed.

Lemma chunks_cover :
  forall n k,
    (0 < k)%nat ->
    concat (map (fun s => seq s (Nat.min k (n - s))) (range_step n k)) = seq 0 n.
Proof.
  intros n k Hk. unfold range_step.
  rewrite chunks_cover_from by exact Hk.
  cbn [Nat.mul]. rewrite Nat.sub_0_r. f_equal.
  apply Nat.min_r.
  pose proof (Nat.div_mod_eq (n + k - 1) k) as E.
  pose proof (Nat.mod_upper_bound (n + k - 1) k ltac:(lia)) as U.
  rewrite (Nat.mul_comm k) in E. lia.
Qed.

(** Moving the point axis to the front undoes [stack_last]. *)
Lemma transpose_201_stack_last :
  forall d1 d2 (ms : list mat),
    (0 < d1)%nat -> (0 < d2)%nat ->
    Forall (rect2 d1 d2) ms ->
    transpose_201 (stack_last d1 d2 ms) = ms.
Proof.
  intros d1 d2 ms H1 H2 Hms. unfold transpose_201.
  assert (Hn : length (hd [] (hd [] (stack_last d1 d2 ms))) = length ms).
  { unfold stack_last. destruct d1 as [|d1]; [lia|]. destruct d2 as [|d2]; [lia|].
    cbn [seq map hd]. apply length_map. }
  rewrite Hn.
  etransitivity; [|apply (tabulate_list mat ms [])].
  apply map_ext_in. intros p Hp. apply in_seq in Hp.
  unfold stack_last. rewrite map_map.
  rewrite <- (tabulate_mat d1 d2 (nth p ms [])).
  2:{ rewrite Forall_forall in Hms. apply Hms, nth_In. lia. }
  apply map_ext. intros a. rewrite map_map. apply map_ext. intros b.
  rewrite (nth_map_default mat R _ ms p [] 0) by lia. reflexivity.
Qed.

(** Moving the point axis of a non-empty stack to the back is
    [stack_last]. *)
Lemma transpose_120_stack :
  forall d1 d2 (ms : list mat),
    (0 < d1)%nat -> ms <> [] -> Forall (rect2 d1 d2) ms ->
    transpose_120 ms = stack_last d1 d2 ms.
Proof.
  intros d1 d2 ms H1 Hne Hms. unfold transpose_120.
  destruct ms as [|m ms]; [congruence|].
  inversion Hms as [|? ? [Hr Hc] _]; subst. cbn [hd].
  destruct m as [|row m]; [cbn in H1; lia|].
  inversion Hc; subst. reflexivity.
Qed.

(** A point of a chunk is a point of the whole array. *)
Lemma slice_last_slice_range :
  forall (Js : ten) s k q,
    (q < k)%nat ->
    slice_last (slice_range Js s (s + k)) q = slice_last Js (s + q).
Proof.
  intros Js s k q Hq. unfold slice_last, slice_range.
  rewrite mapM_map. apply mapM_ext. intros plane _.
  rewrite mapM_map. apply mapM_ext. intros line _.
  unfold getitem. replace (s + k - s)%nat with k by lia.
  rewrite nth_error_firstn.
  destruct (q <? k)%nat eqn:E; [|apply Nat.ltb_ge in E; lia].
  rewrite nth_error_skipn. reflexivity.
Qed.

Lemma slice_range_points :
  forall a b n (Js : ten) s k,
    (0 < a)%nat -> (0 < b)%nat -> rect3 a b n Js ->
    length (hd [] (hd [] (slice_range Js s (s + k)))) = Nat.min k (n - s).
Proof.
  intros a b n Js s k Ha Hb [Hl HJ]. unfold slice_range.
  destruct Js as [|plane Js]; [cbn in Hl; lia|].
  inversion HJ as [|? ? [Hp Hlines] _]; subst.
  destruct plane as [|line plane]; [cbn in Hb; lia|].
  inversion Hlines; subst. cbn [map hd].
  rewrite length_firstn, length_skipn. lia.
Qed.

Lemma rect3_points :
  forall a b n (Js : ten),
    (0 < a)%nat -> (0 < b)%nat -> rect3 a b n Js ->
    length (hd [] (hd [] Js)) = n.
Proof.
  intros a b n Js Ha Hb [Hl HJ].
  destruct Js as [|plane Js]; [cbn in Hl; lia|].
  inversion HJ as [|? ? [Hp Hlines] _]; subst.
  destruct plane as [|line plane]; [cbn in Hb; lia|].
  inversion Hlines; subst. reflexivity.
Qed.

Lemma transform_point_shape :
  forall (Js : ten) (Qi Qj : mat) i m,
    transform_point Js Qi Qj i = Ok m -> rect2 (length Qi) (length Qj) m.
Proof.
  intros Js Qi Qj i m. unfold transform_point.
  destruct (slice_last Js i) as [J|e]; cbn [bind]; [|discriminate].
  destruct (matmul Qi J) as [QiJ|e]; cbn [bind]; [|discriminate].
  destruct (matmul QiJ (transpose Qj)) as [r|e]; cbn [bind]; [|discriminate].
  apply broadcast_to2_shape.
Qed.

Lemma transform_jacobian_chunk :
  forall a b n (Js : ten) (Qi Qj : mat) s k,
    (0 < a)%nat -> (0 < b)%nat -> rect3 a b n Js ->
    transform_jacobian (slice_range Js s (s + k)) Qi Qj =
    (ms <- mapM (transform_point Js Qi Qj) (seq s (Nat.min k (n - s))) ;;
     Ok (stack_last (length Qi) (length Qj) ms)).
Proof.
  intros a b n Js Qi Qj s k Ha Hb HJ. unfold transform_jacobian.
  rewrite (slice_range_points a b n) by assumption.
  rewrite <- (seq_add s), mapM_map. f_equal.
  apply mapM_ext. intros q Hq. apply in_seq in Hq.
  unfold transform_point. rewrite slice_last_slice_range by lia. reflexivity.
Qed.

Section WorkersAgree.

Variable cpu_count : Z.

(** X18: for a sample that is not empty, [cores] workers return what one
    worker returns, point for point; if the transformation of a point
    raises, both calls raise that exception.  [Js] is the [a] x [b] x [n]
    array of the Jacobians of the [n] points. *)
Lemma subset_jacobian_transformation_workers :
  forall fjac (X Qi Qj : ndarray) (cores : option Z) (Js : ten) a b,
    fjac (atleast_2d X) = Ok Js ->
    rect3 a b (length (atleast_2d X)) Js ->
    (0 < a)%nat -> (0 < b)%nat ->
    (0 < length (atleast_2d X))%nat ->
    (0 < length (atleast_2d Qi))%nat ->
    (0 < length (atleast_2d Qj))%nat ->
    (1 < match cores with Some c => c | None => cpu_count end)%Z ->
    subset_jacobian_transformation cpu_count fjac X Qi Qj cores =
    subset_jacobian_transformation cpu_count fjac X Qi Qj (Some 1%Z).
Proof.
  intros fjac X Qi Qj cores Js a b Hf HJ Ha Hb Hn Hi Hj Hc.
  set (c := match cores with Some c => c | None => cpu_count end) in *.
  set (n := length (atleast_2d X)) in *.
  set (qi := atleast_2d Qi) in *. set (qj := atleast_2d Qj) in *.
  set (k := ((n + Z.to_nat c - 1) / Z.to_nat c)%nat).
  assert (Hk : (0 < k)%nat).
  { unfold k. apply Nat.div_str_pos. lia. }
  assert (Hmulti :
    subset_jacobian_transformation cpu_count fjac X Qi Qj cores =
    (ret <- mapM (fun J => transform_jacobian J qi qj)
                 (map (fun i => slice_range Js i (i + k)) (range_step n k)) ;;
     stacked <- vstack (map transpose_201 ret) ;;
     Ok (transpose_120 stacked))).
  { unfold subset_jacobian_transformation. fold n qi qj. rewrite Hf. cbn [bind].
    assert (E0 : (c =? 0)%Z = false) by (apply Z.eqb_neq; lia).
    assert (E1 : (c <? 0)%Z = false) by (apply Z.ltb_ge; lia).
    assert (E2 : (k =? 0)%nat = false) by (apply Nat.eqb_neq; lia).
    destruct cores as [[|[p|p|]|p]|]; cbn in c; subst c; try lia;
      fold k; rewrite ?E0, ?E1, E2; reflexivity. }
  assert (Hsingle :
    subset_jacobian_transformation cpu_count fjac X Qi Qj (Some 1%Z) =
    (ms <- mapM (transform_point Js qi qj) (seq 0 n) ;;
     Ok (stack_last (length qi) (length qj) ms))).
  { unfold subset_jacobian_transformation. fold n qi qj. rewrite Hf. cbn [bind].
    unfold transform_jacobian. rewrite (rect3_points a b n) by assumption.
    reflexivity. }
  rewrite Hmulti, Hsingle. clear Hmulti Hsingle.
  rewrite mapM_map.
  rewrite (mapM_ext _ (fun s =>
             ms <- mapM (transform_point Js qi qj) (seq s (Nat.min k (n - s))) ;;
             Ok (stack_last (length qi) (length qj) ms))).
  2:{ intros s _. apply (transform_jacobian_chunk a b n); assumption. }
  rewrite (mapM_then nat nat (fun s => mapM (transform_point Js qi qj)
                                  (seq s (Nat.min k (n - s))))
             (stack_last (length qi) (length qj))).
  rewrite <- (mapM_map _ (mapM (transform_point Js qi qj))
                (fun s => seq s (Nat.min k (n - s)))).
  assert (Hcov : mapM (transform_point Js qi qj) (seq 0 n) =
            (rs <- mapM (mapM (transform_point Js qi qj))
                     (map (fun s => seq s (Nat.min k (n - s))) (range_step n k)) ;;
             Ok (concat rs))).
  { rewrite <- mapM_concat, chunks_cover by exact Hk. reflexivity. }
  rewrite Hcov.
  destruct (mapM (mapM (transform_point Js qi qj))
              (map (fun s => seq s (Nat.min k (n - s))) (range_step n k)))
    as [mss|e] eqn:E; [|reflexivity].
  cbn [bind].
  assert (Hshape : Forall (Forall (rect2 (length qi) (length qj))) mss).
  { apply (mapM_Forall _ _ _ _ (fun l ms H =>
             mapM_Forall (rect2 (length qi) (length qj)) _ l ms
               (transform_point_shape Js qi qj) H) E). }
  rewrite map_map.
  rewrite (map_ext_in _ (fun ms => ms)).
  2:{ intros ms Hms. rewrite Forall_forall in Hshape.
      apply transpose_201_stack_last; [exact Hi|exact Hj|apply Hshape, Hms]. }
  rewrite map_id.
  assert (Hlen : length (concat mss) = n).
  { cbn [bind] in Hcov.
    apply mapM_length in Hcov. rewrite length_seq in Hcov. exact Hcov. }
  destruct mss as [|ms0 mss']; [cbn in Hlen; lia|].
  cbn [vstack bind]. f_equal.
  apply transpose_120_stack; [exact Hi| |].
  - intros Hnil. rewrite Hnil in Hlen. cbn in Hlen. lia.
  - apply Forall_concat. exact Hshape.
Qed.

End WorkersAgree.

(** * Further properties *)

(** ** The closest principal point ([find_cell_proj_closest_vertex]) *)

Lemma fold_left_Rmin_le :
  forall t h, fold_left Rmin t h <= h /\
              Forall (fun x => fold_left Rmin t h <= x) t.
Proof.
  induction t as [|a t IH]; intros h; cbn.
  - split; [lra|constructor].
  - destruct (IH (Rmin h a)) as [H1 H2]. split.
    + pose proof (Rmin_l h a). lra.
    + constructor; [pose proof (Rmin_r h a); lra|exact H2].
Qed.

Lemma fold_left_Rmin_in :
  forall t h, fold_left Rmin t h = h \/ In (fold_left Rmin t h) t.
Proof.
  induction t as [|a t IH]; intros h; cbn.
  - left; reflexivity.
  - destruct (IH (Rmin h a)) as [E|I].
    + rewrite E. unfold Rmin. destruct (Rle_dec h a); [left|right; left]; reflexivity.
    + right; right; exact I.
Qed.

Lemma np_min_spec :
  forall z m, np_min z = Ok m -> In m z /\ Forall (fun x => m <= x) z.
Proof.
  intros [|h t] m H; [discriminate|]. cbn in H. injection H as <-.
  destruct (fold_left_Rmin_le t h) as [H1 H2]. split.
  - destruct (fold_left_Rmin_in t h) as [E|I]; [left; symmetry; exact E|right; exact I].
  - constructor; assumption.
Qed.

Lemma where_from_first :
  forall (z : vec) (m : R) s,
    In m z ->
    exists i rest,
      map fst (filter (fun p => if Req_EM_T (snd p) m then true else false)
                      (combine (seq s (length z)) z)) = (s + i)%nat :: rest /\
      (i < length z)%nat /\ nth i z 0 = m /\
      forall j, (j < i)%nat -> nth j z 0 <> m.
Proof.
  induction z as [|a z IH]; intros m s Hin; [destruct Hin|].
  cbn [length seq combine filter snd].
  destruct (Req_EM_T a m) as [E|N].
  - exists 0%nat. eexists. cbn [map fst]. rewrite Nat.add_0_r.
    split; [reflexivity|]. split; [cbn; lia|]. split; [exact E|].
    intros j Hj; lia.
  - destruct Hin as [E|Hin]; [contradiction|].
    destruct (IH m (S s) Hin) as (i & rest & H1 & H2 & H3 & H4).
    exists (S i), rest. split; [rewrite H1; f_equal; lia|].
    split; [cbn; lia|]. split; [exact H3|].
    intros [|j] Hj; [exact N|]. cbn. apply H4. lia.
Qed.

Lemma first_min_spec :
  forall z, z <> [] ->
    exists i, first_min z = Ok i /\ (i < length z)%nat /\
      (forall j, (j < length z)%nat -> nth i z 0 <= nth j z 0) /\
      (forall j, (j < i)%nat -> nth i z 0 < nth j z 0).
Proof.
  intros z Hz. unfold first_min.
  destruct (np_min z) as [m|e] eqn:Em; [|destruct z; [contradiction|discriminate]].
  destruct (np_min_spec z m Em) as [Hin Hle].
  destruct (where_from_first z m 0 Hin) as (i & rest & H1 & H2 & H3 & H4).
  exists i. cbn [bind]. unfold where_eqR. rewrite H1. cbn.
  split; [reflexivity|]. split; [exact H2|].
  rewrite Forall_forall in Hle. split.
  - intros j Hj. rewrite H3. apply Hle. apply nth_In. exact Hj.
  - intros j Hj. rewrite H3.
    assert (m <= nth j z 0) by (apply Hle, nth_In; lia).
    specialize (H4 j Hj). lra.
Qed.

Lemma mapM_exists :
  forall (A B : Type) (P : A -> B -> Prop) (f : A -> result B) (l : list A),
    (forall a, In a l -> exists b, f a = Ok b /\ P a b) ->
    exists bs, mapM f l = Ok bs /\ Forall2 P l bs.
Proof.
  intros A B P f. induction l as [|a l IH]; intros H.
  - exists []. split; [reflexivity|constructor].
  - destruct (H a (or_introl eq_refl)) as (b & Hb & Pb).
    destruct IH as (bs & Hbs & Pbs); [intros x Hx; apply H; right; exact Hx|].
    exists (b :: bs). cbn. rewrite Hb, Hbs. split; [reflexivity|constructor; assumption].
Qed.

Lemma Forall2_nth_both :
  forall (A B : Type) (P : A -> B -> Prop) l bs (da : A) (db : B) i,
    Forall2 P l bs -> (i < length l)%nat -> P (nth i l da) (nth i bs db).
Proof.
  intros A B P l bs da db i H. revert i.
  induction H as [|a b l bs Hab H IH]; intros i Hi; [cbn in Hi; lia|].
  destruct i; [exact Hab|]. cbn. apply IH. cbn in Hi. lia.
Qed.

Lemma Forall2_length_eq :
  forall (A B : Type) (P : A -> B -> Prop) l bs, Forall2 P l bs -> length bs = length l.
Proof. intros A B P l bs H. induction H; cbn; congruence. Qed.

Lemma cdist_ok :
  forall d x y,
    Forall (fun r => length r = d) x -> Forall (fun r => length r = d) y ->
    cdist x y = Ok (map (fun xi => map (fun yj => dist xi yj) y) x).
Proof.
  intros d x y Hx Hy. unfold cdist. apply mapM_ok. intros xi Hxi.
  apply mapM_ok. intros yj Hyj. unfold euclidean, dist.
  rewrite Forall_forall in Hx, Hy.
  rewrite (Hx xi Hxi), (Hy yj Hyj), Nat.eqb_refl. reflexivity.
Qed.

Lemma transpose_rows :
  forall r c (m : mat), (0 < r)%nat -> rect2 r c m ->
    transpose m = map (col m) (seq 0 c).
Proof.
  intros r c m Hr Hm. unfold transpose. rewrite (ncols_rect r c m Hr Hm). reflexivity.
Qed.

(** X1: every cell is given the principal point nearest to it, the first
    one of them when several are as near; without a principal point the
    search is refused. *)
Theorem find_cell_proj_closest_vertex_nearest :
  forall d n k (Z Y : mat),
    (0 < d)%nat -> (0 < n)%nat -> rect2 d n Z -> rect2 d k Y ->
    (k = 0%nat -> find_cell_proj_closest_vertex Z Y = Raise ValueError) /\
    ((0 < k)%nat ->
     exists cv,
       find_cell_proj_closest_vertex Z Y = Ok cv /\
       length cv = n /\
       forall i, (i < n)%nat ->
         (nth i cv 0 < k)%nat /\
         (forall j, (j < k)%nat ->
            dist (col Z i) (col Y (nth i cv 0%nat)) <= dist (col Z i) (col Y j)) /\
         (forall j, (j < nth i cv 0)%nat ->
            dist (col Z i) (col Y (nth i cv 0%nat)) < dist (col Z i) (col Y j))).
Proof.
  intros d n k Z Y Hd Hn HZ HY.
  assert (HtZ : transpose Z = map (col Z) (seq 0 n)) by (apply (transpose_rows d n Z Hd HZ)).
  assert (HtY : transpose Y = map (col Y) (seq 0 k)) by (apply (transpose_rows d k Y Hd HY)).
  assert (Hrun : cdist (transpose Z) (transpose Y) =
                 Ok (map (fun zi => map (fun yj => dist zi yj) (transpose Y)) (transpose Z))).
  { apply (cdist_ok d).
    - rewrite HtZ. apply Forall_forall. intros r Hr. apply in_map_iff in Hr.
      destruct Hr as (i & <- & _). rewrite col_length. apply HZ.
    - rewrite HtY. apply Forall_forall. intros r Hr. apply in_map_iff in Hr.
      destruct Hr as (i & <- & _). rewrite col_length. apply HY. }
  unfold find_cell_proj_closest_vertex. rewrite Hrun. cbn [bind].
  rewrite HtZ, HtY.
  assert (Hne : forall l : list vec, l <> [] ->
            (match l with [] => Raise ValueError | _ :: _ => mapM first_min l end)
            = mapM first_min l).
  { intros [|? ?] ?; congruence. }
  rewrite Hne by (destruct n; [lia|discriminate]).
  rewrite !map_map, mapM_map.
  split.
  - intros ->. destruct n; [lia|reflexivity].
  - intros Hk.
    destruct (mapM_exists nat nat
      (fun (i c : nat) =>
         (c < k)%nat /\
         (forall j, (j < k)%nat -> dist (col Z i) (col Y c) <= dist (col Z i) (col Y j)) /\
         (forall j, (j < c)%nat -> dist (col Z i) (col Y c) < dist (col Z i) (col Y j)))
      (fun i => first_min (map (fun j => dist (col Z i) (col Y j)) (seq 0 k)))
      (seq 0 n)) as (cv & Hcv & HP).
    { intros i _.
      destruct (first_min_spec (map (fun j => dist (col Z i) (col Y j)) (seq 0 k)))
        as (c & Hc & Hlt & Hle & Hfirst).
      { destruct k; [lia|discriminate]. }
      rewrite length_map, length_seq in Hlt, Hle.
      exists c. split; [exact Hc|]. split; [exact Hlt|]. split.
      - intros j Hj. specialize (Hle j Hj).
        rewrite !(nth_map_seq _ (fun j => dist (col Z i) (col Y j))) in Hle by assumption.
        exact Hle.
      - intros j Hj. specialize (Hfirst j Hj).
        rewrite !(nth_map_seq _ (fun j => dist (col Z i) (col Y j))) in Hfirst by lia.
        exact Hfirst. }
    exists cv. split.
    { rewrite <- Hcv. apply mapM_ext. intros c _. rewrite map_map. reflexivity. }
    pose proof (Forall2_length_eq _ _ _ _ _ HP) as Hlen. rewrite length_seq in Hlen.
    split; [exact Hlen|].
    intros i Hi.
    pose proof (Forall2_nth_both _ _ _ _ _ 0%nat 0%nat i HP) as H.
    rewrite length_seq in H. specialize (H Hi). rewrite seq_nth in H by exact Hi.
    exact H.
Qed.

(** ** Projection onto a line ([proj_point_on_line]) *)

Lemma dot_self : forall v, dot v v = sumsq v.
Proof.
  induction v as [|x v IH]; [reflexivity|].
  rewrite dot_cons, sumsq_cons, IH. ring.
Qed.

Lemma dot_along_line :
  forall p A AB s,
    length p = length A -> length A = length AB ->
    dot (zipwith Rminus p (zipwith Rplus A (scale s AB))) AB =
    dot (zipwith Rminus p A) AB - s * sumsq AB.
Proof.
  induction p as [|x p IH]; intros [|a A] [|b AB] s H1 H2; try discriminate.
  - cbn. ring.
  - cbn [scale map]. fold (scale s AB).
    rewrite !zipwith_cons, !dot_cons, sumsq_cons.
    rewrite IH by (cbn in *; lia). ring.
Qed.

(** X2: the projection onto the line through two distinct points [A] and [B]
    is the foot of the perpendicular from the point. *)
Theorem proj_point_on_line_foot :
  forall (point : vec) (line : mat),
    Forall (fun r => length r = 2%nat) line ->
    length point = length line ->
    col line 0 <> col line 1 ->
    let A := col line 0 in
    let B := col line 1 in
    let t0 := dot (zipwith Rminus point A) (zipwith Rminus B A)
              / sumsq (zipwith Rminus B A) in
    proj_point_on_line point line = Ok (point_on A B t0) /\
    dot (zipwith Rminus point (point_on A B t0)) (zipwith Rminus B A) = 0 /\
    (forall s, dist point (point_on A B t0) <= dist point (point_on A B s)).
Proof.
  intros p df Hdf Hp HAB A B t0.
  assert (HlA : length A = length df) by apply col_length.
  assert (HlB : length B = length df) by apply col_length.
  set (AB := zipwith Rminus B A) in *.
  assert (HlAB : length AB = length A)
    by (unfold AB; rewrite zipwith_length; lia).
  set (a := sumsq AB) in *. set (b := dot (zipwith Rminus p A) AB) in *.
  set (c := sumsq (zipwith Rminus p A)).
  assert (Ha : 0 <= a) by apply sumsq_nonneg.
  assert (Na : a <> 0).
  { intros Ea. apply HAB. fold A B. symmetry. apply sumsq_diff_zero; [lia|exact Ea]. }
  assert (Hb : b = t0 * a) by (unfold t0; field; exact Na).
  split; [|split].
  - unfold proj_point_on_line.
    rewrite (getcol_ok df 0 2 Hdf), (getcol_ok df 1 2 Hdf) by lia.
    cbn [bind]. fold A B.
    unfold elementwise at 1. rewrite Hp, HlA, Nat.eqb_refl. cbn [bind].
    unfold elementwise at 1. rewrite HlB, HlA, Nat.eqb_refl. cbn [bind].
    fold AB.
    unfold np_dot. rewrite zipwith_length, Hp, HlAB, HlA, !Nat.eqb_refl by lia.
    cbn [bind]. fold b. rewrite dot_self. fold a. fold t0.
    unfold elementwise. rewrite scale_length, HlAB, Nat.eqb_refl.
    reflexivity.
  - unfold point_on. fold AB. rewrite dot_along_line by lia.
    fold b. fold a. lra.
  - intros s. unfold dist. apply sqrt_le_1_alt.
    unfold point_on. fold AB. rewrite !sumsq_along_line by lia.
    fold a b c. rewrite Hb.
    assert (0 <= a * (s - t0) ^ 2) by (apply Rmult_le_pos; [lra|apply pow2_ge_0]).
    lra.
Qed.

Lemma proj_point_on_line_foot_witness :
  Forall (fun r => length r = 2%nat) [[0; 2]; [0; 0]] /\
  length [3; 1] = length [[0; 2]; [0; 0]] /\
  col [[0; 2]; [0; 0]] 0 <> col [[0; 2]; [0; 0]] 1 /\
  exists q,
    proj_point_on_line [3; 1] [[0; 2]; [0; 0]] = Ok q /\
    forall s, dist [3; 1] q <= dist [3; 1] (point_on [0; 0] [2; 0] s).
Proof.
  assert (H1 : Forall (fun r : list R => length r = 2%nat) [[0; 2]; [0; 0]])
    by (repeat constructor).
  assert (H2 : length [3; 1] = length [[0; 2]; [0; 0]]) by reflexivity.
  assert (H3 : col [[0; 2]; [0; 0]] 0 <> col [[0; 2]; [0; 0]] 1).
  { cbn. intros E. injection E as E. lra. }
  split; [exact H1|split; [exact H2|split; [exact H3|]]].
  destruct (proj_point_on_line_foot _ _ H1 H2 H3) as (Hq & _ & Hmin).
  eexists. split; [exact Hq|exact Hmin].
Defined.

(** X3: where the foot of the perpendicular falls between the two points,
    the projection onto the segment is the projection onto the line; where
    it falls outside, the segment gives the nearer end point. *)
Theorem project_point_to_line_segment_vs_line :
  forall (p : vec) (df : mat),
    Forall (fun r => length r = 2%nat) df ->
    length p = length df ->
    col df 0 <> col df 1 ->
    let A := col df 0 in
    let B := col df 1 in
    let t0 := dot (zipwith Rminus p A) (zipwith Rminus B A)
              / sumsq (zipwith Rminus B A) in
    (0 <= t0 <= 1 ->
     project_point_to_line_segment p df = proj_point_on_line p df) /\
    (t0 < 0 -> project_point_to_line_segment p df = Ok A) /\
    (1 < t0 -> project_point_to_line_segment p df = Ok B) /\
    proj_point_on_line p df = Ok (point_on A B t0).
Proof.
  intros p df Hdf Hp HAB A B t0.
  assert (HlA : length A = length df) by apply col_length.
  assert (HlB : length B = length df) by apply col_length.
  set (AB := zipwith Rminus B A) in *.
  assert (HlAB : length AB = length A)
    by (unfold AB; rewrite zipwith_length; lia).
  set (a := sumsq AB) in *. set (b := dot (zipwith Rminus p A) AB) in *.
  assert (Na : a <> 0).
  { intros Ea. apply HAB. fold A B. symmetry. apply sumsq_diff_zero; [lia|exact Ea]. }
  assert (Hline : proj_point_on_line p df = Ok (point_on A B t0)).
  { unfold proj_point_on_line.
    rewrite (getcol_ok df 0 2 Hdf), (getcol_ok df 1 2 Hdf) by lia.
    cbn [bind]. fold A B.
    unfold elementwise at 1. rewrite Hp, HlA, Nat.eqb_refl. cbn [bind].
    unfold elementwise at 1. rewrite HlB, HlA, Nat.eqb_refl. cbn [bind].
    fold AB.
    unfold np_dot. rewrite zipwith_length, Hp, HlAB, HlA, !Nat.eqb_refl by lia.
    cbn [bind]. fold b. rewrite dot_self. fold a. fold t0.
    unfold elementwise. rewrite scale_length, HlAB, Nat.eqb_refl.
    reflexivity. }
  assert (Hseg : project_point_to_line_segment p df =
     if Rlt_dec t0 0 then Ok A
     else if Rgt_dec t0 1 then Ok B
     else Ok (point_on A B t0)).
  { unfold project_point_to_line_segment.
    rewrite (getcol_ok df 0 2 Hdf), (getcol_ok df 1 2 Hdf) by lia.
    cbn [bind]. fold A B.
    unfold elementwise at 1. rewrite HlB, HlA, Nat.eqb_refl. cbn [bind].
    fold AB. fold a.
    destruct (Req_EM_T a 0); [contradiction|].
    unfold elementwise at 1. rewrite Hp, HlA, Nat.eqb_refl. cbn [bind].
    unfold np_dot. rewrite zipwith_length, Hp, HlAB, HlA, Nat.eqb_refl by lia.
    cbn [bind]. fold b. fold t0.
    destruct (Rlt_dec t0 0); [reflexivity|].
    destruct (Rgt_dec t0 1); [reflexivity|].
    unfold elementwise. rewrite scale_length, HlAB, Nat.eqb_refl.
    reflexivity. }
  rewrite Hseg, Hline.
  split; [|split; [|split]].
  - intros [H0 H1].
    destruct (Rlt_dec t0 0); [lra|]. destruct (Rgt_dec t0 1); [lra|]. reflexivity.
  - intros H. destruct (Rlt_dec t0 0); [reflexivity|lra].
  - intros H. destruct (Rlt_dec t0 0); [lra|].
    destruct (Rgt_dec t0 1); [reflexivity|lra].
  - reflexivity.
Qed.

Lemma project_point_to_line_segment_vs_line_witness :
  Forall (fun r => length r = 2%nat) [[0; 2]; [0; 0]] /\
  length [3; 1] = length [[0; 2]; [0; 0]] /\
  col [[0; 2]; [0; 0]] 0 <> col [[0; 2]; [0; 0]] 1 /\
  proj_point_on_line [3; 1] [[0; 2]; [0; 0]]
  = Ok (point_on [0; 0] [2; 0]
          (dot (zipwith Rminus [3; 1] [0; 0]) (zipwith Rminus [2; 0] [0; 0])
           / sumsq (zipwith Rminus [2; 0] [0; 0]))).
Proof.
  assert (H1 : Forall (fun r : list R => length r = 2%nat) [[0; 2]; [0; 0]])
    by (repeat constructor).
  assert (H2 : length [3; 1] = length [[0; 2]; [0; 0]]) by reflexivity.
  assert (H3 : col [[0; 2]; [0; 0]] 0 <> col [[0; 2]; [0; 0]] 1).
  { cbn. intros E. injection E as E. lra. }
  split; [exact H1|split; [exact H2|split; [exact H3|]]].
  exact (proj2 (proj2 (proj2 (project_point_to_line_segment_vs_line _ _ H1 H2 H3)))).
Defined.

(** ** The number of centres ([_cal_ncenter]) *)

Lemma np_round_cases :
  forall x, exists k : Z,
    np_round x = IZR k /\
    (k = Int_part x \/ (k = (Int_part x + 1)%Z /\ IZR (Int_part x) < x)).
Proof.
  intros x. unfold np_round.
  destruct (Rlt_dec (x - IZR (Int_part x)) (1 / 2)) as [L|NL].
  - exists (Int_part x). split; [reflexivity|left; reflexivity].
  - destruct (Rgt_dec (x - IZR (Int_part x)) (1 / 2)) as [G|NG].
    + exists (Int_part x + 1)%Z. split; [reflexivity|right; split; [reflexivity|lra]].
    + destruct (Z.even (Int_part x)).
      * exists (Int_part x). split; [reflexivity|left; reflexivity].
      * exists (Int_part x + 1)%Z. split; [reflexivity|right; split; [reflexivity|lra]].
Qed.

Lemma np_round_between :
  forall (a b : Z) x, IZR a <= x <= IZR b ->
    exists k : Z, np_round x = IZR k /\ (a <= k <= b)%Z.
Proof.
  intros a b x [Ha Hb].
  destruct (np_round_cases x) as (k & Hk & Hc).
  destruct (base_Int_part x) as [H1 H2].
  assert (Hlo : (a <= Int_part x)%Z).
  { assert (IZR a < IZR (Int_part x + 1)) by (rewrite plus_IZR; lra).
    apply lt_IZR in H. lia. }
  exists k. split; [exact Hk|].
  destruct Hc as [->|[-> Hlt]].
  - split; [exact Hlo|]. apply le_IZR. lra.
  - split; [lia|].
    assert (IZR (Int_part x) < IZR b) by lra.
    apply lt_IZR in H. lia.
Qed.

(** X6: [_cal_ncenter] gives no number of centres up to the limit, and above
    it a whole number from the limit to twice the limit. *)
Theorem _cal_ncenter_bounds :
  forall ncells ncells_limit : Z,
    (1 <= ncells_limit)%Z ->
    ((ncells <= ncells_limit)%Z -> _cal_ncenter ncells ncells_limit = None) /\
    ((ncells_limit < ncells)%Z ->
     exists k : Z,
       _cal_ncenter ncells ncells_limit = Some (IZR k) /\
       (ncells_limit <= k <= 2 * ncells_limit)%Z).
Proof.
  intros n L HL. unfold _cal_ncenter. split.
  - intros H. apply Z.leb_le in H. rewrite H. reflexivity.
  - intros H. assert (E : (n <=? L)%Z = false) by (apply Z.leb_gt; exact H).
    rewrite E.
    assert (HL1 : 1 <= IZR L) by (apply IZR_le; exact HL).
    assert (Hn : IZR L < IZR n) by (apply IZR_lt; exact H).
    assert (Hw : 0 <= ln (IZR L)).
    { rewrite <- ln_1. destruct (Req_dec 1 (IZR L)) as [<-|N]; [lra|].
      left. apply ln_increasing; lra. }
    assert (Hu : ln (IZR L) < ln (IZR n)) by (apply ln_increasing; lra).
    set (u := ln (IZR n)) in *. set (w := ln (IZR L)) in *.
    destruct (np_round_between L (2 * L) (2 * IZR L * u / (u + w))) as (k & Hk & Hb).
    { rewrite mult_IZR.
      assert (Hd : 0 < u + w) by lra.
      assert (E1 : 2 * IZR L * u / (u + w) - IZR L = IZR L * (u - w) / (u + w))
        by (field; lra).
      assert (E2 : 2 * IZR L - 2 * IZR L * u / (u + w) = 2 * IZR L * w / (u + w))
        by (field; lra).
      assert (0 <= IZR L * (u - w) / (u + w)).
      { apply Rmult_le_pos; [apply Rmult_le_pos; lra|].
        left. apply Rinv_0_lt_compat. exact Hd. }
      assert (0 <= 2 * IZR L * w / (u + w)).
      { apply Rmult_le_pos; [apply Rmult_le_pos; lra|].
        left. apply Rinv_0_lt_compat. exact Hd. }
      lra. }
    exists k. rewrite Hk. split; [reflexivity|exact Hb].
Qed.

Lemma _cal_ncenter_bounds_witness :
  (1 <= 100)%Z /\ (100 < 1000)%Z /\
  exists k : Z,
    _cal_ncenter 1000 100 = Some (IZR k) /\ (100 <= k <= 2 * 100)%Z.
Proof.
  assert (H1 : (1 <= 100)%Z) by lia.
  assert (H2 : (100 < 1000)%Z) by lia.
  split; [exact H1|split; [exact H2|]].
  exact (proj2 (_cal_ncenter_bounds 1000 100 H1) H2).
Defined.

(** ** The order of the traversal ([dfs], [get_order_from_DDRTree]) *)

Lemma nth_mark :
  forall (added : list bool) w v,
    (w < length added)%nat ->
    nth v (firstn w added ++ true :: skipn (S w) added) false =
    if (v =? w)%nat then true else nth v added false.
Proof.
  induction added as [|b t IH]; intros w v Hw; [cbn in Hw; lia|].
  destruct w as [|w]; destruct v as [|v]; cbn; try reflexivity.
  apply IH. cbn in Hw. lia.
Qed.

Section TraversalOrder.

Variable g : Graph.

Lemma dfs_loop_tree_order :
  forall fuel stack added vids parents vids' parents',
    length added = vcount g ->
    (forall v, (v < vcount g)%nat -> nth v added false = true <-> In v vids) ->
    Forall (fun fr => In (fst fr) vids /\ incl (snd fr) (neighbors g (fst fr))) stack ->
    dfs_loop fuel g stack added vids parents = Some (vids', parents') ->
    exists vs ps,
      vids' = vids ++ vs /\ parents' = parents ++ ps /\
      length ps = length vs /\ tree_order g vids (combine vs ps).
Proof.
  induction fuel as [|fuel IH]; intros stack added vids parents vids' parents'
    Hl Hadd Hst Hrun; [discriminate|].
  destruct stack as [|[vid nbrs] below].
  - cbn in Hrun. injection Hrun as <- <-. exists [], [].
    rewrite !app_nil_r. repeat split.
  - cbn [dfs_loop] in Hrun. pose proof (pop_spec nbrs) as Hp.
    inversion Hst as [|? ? [Hvid Hincl] Hbelow]; subst. cbn [fst snd] in *.
    destruct (pop nbrs) as [[w nbrs']|].
    + subst nbrs.
      assert (Hw : In w (neighbors g vid)) by (apply Hincl, in_or_app; right; left; reflexivity).
      assert (Hincl' : incl nbrs' (neighbors g vid)).
      { intros x Hx. apply Hincl, in_or_app. left. exact Hx. }
      assert (Hwr : (w < vcount g)%nat).
      { pose proof (neighbors_in_range g vid) as Hr. rewrite Forall_forall in Hr.
        apply Hr, Hw. }
      destruct (nth w added false) eqn:Ew.
      * apply (IH _ _ _ _ _ _ Hl Hadd) in Hrun; [exact Hrun|].
        constructor; [split; assumption|exact Hbelow].
      * assert (Hnew : ~ In w vids).
        { intros Hin. apply (Hadd w Hwr) in Hin. congruence. }
        apply IH in Hrun.
        -- destruct Hrun as (vs & ps & -> & -> & Hlen & Htree).
           exists (w :: vs), (vid :: ps). rewrite <- !app_assoc. cbn [app].
           split; [reflexivity|]. split; [reflexivity|].
           split; [cbn; lia|]. cbn [combine tree_order].
           split; [exact Hvid|]. split; [exact Hnew|]. split; [exact Hw|exact Htree].
        -- rewrite mark_length; [exact Hl|lia].
        -- intros v Hv. rewrite nth_mark by lia.
           destruct (v =? w)%nat eqn:E.
           ++ apply Nat.eqb_eq in E. subst v. split; [intros _|reflexivity].
              apply in_or_app. right. left. reflexivity.
           ++ apply Nat.eqb_neq in E. rewrite (Hadd v Hv). split.
              ** intros H. apply in_or_app. left. exact H.
              ** intros H. apply in_app_or in H. destruct H as [H|[H|[]]]; [exact H|].
                 congruence.
        -- constructor; [split; [apply in_or_app; right; left; reflexivity|apply incl_refl]|].
           constructor; [split; [apply in_or_app; left; exact Hvid|exact Hincl']|].
           apply Forall_forall. intros fr Hfr. rewrite Forall_forall in Hbelow.
           destruct (Hbelow fr Hfr) as [H1 H2]. split; [apply in_or_app; left; exact H1|exact H2].
    + apply (IH _ _ _ _ _ _ Hl Hadd Hbelow) in Hrun. exact Hrun.
Qed.

End TraversalOrder.

(** From a vertex of the graph the traversal returns; the root comes
    first, as its own parent, and every vertex after it is new, was
    reached from a vertex visited before it, and shares an edge with that
    vertex. *)
Theorem dfs_tree_order :
  forall (g : Graph) (vid : nat),
    (vid < vcount g)%nat ->
    exists vs ps,
      dfs g vid = Ok (vid :: vs, vid :: ps) /\
      length ps = length vs /\
      tree_order g [vid] (combine vs ps).
Proof.
  intros g vid Hv.
  destruct (dfs_returns g vid Hv) as [[vids' parents'] Hr].
  pose proof Hr as Hr'. unfold dfs in Hr'.
  pose proof Hv as Hb. apply Nat.ltb_lt in Hb. rewrite Hb in Hr'.
  match type of Hr' with
  | context [dfs_loop ?f g ?s ?a ?v ?p] =>
      destruct (dfs_loop f g s a v p) as [[v1 p1]|] eqn:El; [|discriminate]
  end.
  injection Hr' as <- <-.
  apply dfs_loop_tree_order in El.
  - destruct El as (vs & ps & -> & -> & Hlen & Htree).
    exists vs, ps. split; [exact Hr|split; assumption].
  - rewrite mark_length; rewrite repeat_length; [reflexivity|exact Hv].
  - intros v Hvr. rewrite nth_mark by (rewrite repeat_length; exact Hv).
    rewrite nth_repeat. destruct (v =? vid)%nat eqn:E.
    + apply Nat.eqb_eq in E. subst. split; [intros _; left; reflexivity|reflexivity].
    + apply Nat.eqb_neq in E. split; [discriminate|]. intros [H|[]]. congruence.
  - constructor; [|constructor]. split; [left; reflexivity|apply incl_refl].
Qed.

Lemma dfs_tree_order_witness :
  (0 < vcount (Weighted_Adjacency mst_line))%nat /\
  exists vs ps,
    dfs (Weighted_Adjacency mst_line) 0 = Ok (0%nat :: vs, 0%nat :: ps) /\
    length ps = length vs /\
    tree_order (Weighted_Adjacency mst_line) [0%nat] (combine vs ps).
Proof.
  assert (H : (0 < vcount (Weighted_Adjacency mst_line))%nat) by (cbn; lia).
  split; [exact H|]. exact (dfs_tree_order (Weighted_Adjacency mst_line) 0 H).
Defined.

Lemma tree_order_in_range :
  forall g seen visits,
    Forall (fun v => (v < vcount g)%nat) seen ->
    tree_order g seen visits ->
    Forall (fun vp => (fst vp < vcount g)%nat /\ (snd vp < vcount g)%nat) visits.
Proof.
  intros g seen visits. revert seen.
  induction visits as [|[v p] rest IH]; intros seen Hs Ht; [constructor|].
  cbn in Ht. destruct Ht as (Hp & _ & Hv & Hrest).
  assert (Hvr : (v < vcount g)%nat).
  { pose proof (neighbors_in_range g p) as Hr. rewrite Forall_forall in Hr. apply Hr, Hv. }
  constructor.
  - split; [exact Hvr|]. rewrite Forall_forall in Hs. apply Hs, Hp.
  - apply (IH (seen ++ [v])); [|exact Hrest].
    apply Forall_app. split; [exact Hs|constructor; [exact Hvr|constructor]].
Qed.

Lemma tree_order_NoDup :
  forall g seen vs ps,
    length ps = length vs ->
    tree_order g seen (combine vs ps) ->
    NoDup vs /\ forall v, In v vs -> ~ In v seen.
Proof.
  intros g seen vs. revert seen.
  induction vs as [|v vs IH]; intros seen [|p ps] Hl Ht; try discriminate.
  - split; [constructor|intros v []].
  - cbn in Ht. destruct Ht as (_ & Hnew & _ & Hrest).
    destruct (IH (seen ++ [v]) ps ltac:(cbn in Hl; lia) Hrest) as [Hnd Hout].
    split.
    + constructor; [|exact Hnd]. intros Hin. apply (Hout v Hin).
      apply in_or_app. right. left. reflexivity.
    + intros x [<-|Hx]; [exact Hnew|].
      intros Hs. apply (Hout x Hx). apply in_or_app. left. exact Hs.
Qed.

Lemma setitem_length :
  forall (l : list R) k v l', setitem l k v = Ok l' -> length l' = length l.
Proof.
  induction l as [|x l IH]; intros [|k] v l' H; cbn in H; try discriminate.
  - injection H as <-. reflexivity.
  - destruct (setitem l k v) as [t|e] eqn:E; [|discriminate].
    injection H as <-. cbn. f_equal. apply (IH k v t E).
Qed.

Lemma getitem_in_range :
  forall (A : Type) (l : list A) i (d : A),
    (i < length l)%nat -> getitem l i = Ok (nth i l d).
Proof.
  intros A l i d Hi. unfold getitem.
  destruct (nth_error l i) as [a|] eqn:E.
  - rewrite (nth_error_nth _ _ d E). reflexivity.
  - apply nth_error_None in E. lia.
Qed.

Section OrderLoop.

Variables (k : nat) (dp : mat) (g : Graph) (orders pres : list nat).
Hypothesis Hdp : rect2 k k dp.
Hypothesis Horders : Forall (fun v => (v < k)%nat) orders.
Hypothesis Hpres : Forall (fun v => (v < k)%nat) pres.
Hypothesis Hlen : length pres = length orders.

Lemma order_step_returns :
  forall st i,
    (i < length orders)%nat -> length (pseudotimes st) = k ->
    exists st',
      order_step dp g orders pres st i = Ok st' /\
      length (pseudotimes st') = k /\
      map cell_index (ordering_dict st') =
      map cell_index (ordering_dict st) ++ [nth i orders 0%nat].
Proof.
  intros st i Hi Hpt. unfold order_step.
  rewrite (getitem_in_range nat orders i 0%nat Hi). cbn [bind].
  rewrite (getitem_in_range nat pres i 0%nat) by lia. cbn [bind].
  set (c := nth i orders 0%nat). set (pre := nth i pres 0%nat).
  assert (Hc : (c < k)%nat).
  { pose proof Horders as Ho. rewrite Forall_forall in Ho. apply Ho, nth_In, Hi. }
  assert (Hp : (pre < k)%nat).
  { pose proof Hpres as Hq. rewrite Forall_forall in Hq. apply Hq, nth_In. lia. }
  assert (Hrow : exists w, getitem2 dp c pre = Ok w).
  { unfold getitem2. destruct Hdp as [Hl Hr].
    rewrite (getitem_in_range vec dp c []) by lia. cbn [bind].
    rewrite (getitem_in_range R (nth c dp []) pre 0).
    - eexists; reflexivity.
    - rewrite Forall_forall in Hr. rewrite (Hr (nth c dp [])); [exact Hp|].
      apply nth_In. lia. }
  destruct Hrow as [w Hw].
  assert (Hset : forall v s' par,
    exists st',
      (pseudotimes' <- setitem (pseudotimes st) c v ;;
       now <- getitem pseudotimes' c ;;
       Ok {| curr_state := s'; pseudotimes := pseudotimes';
             ordering_dict := ordering_dict st ++
               [ {| cell_index := c; cell_pseudo_state := s';
                    pseudo_time := now; parent := par |} ] |}) = Ok st' /\
      length (pseudotimes st') = k /\
      map cell_index (ordering_dict st') = map cell_index (ordering_dict st) ++ [c]).
  { intros v s' par.
    destruct (setitem_getitem (pseudotimes st) c v ltac:(lia)) as (l' & Hs & Hg).
    rewrite Hs. cbn [bind]. rewrite Hg. cbn [bind].
    eexists. split; [reflexivity|]. cbn [pseudotimes ordering_dict].
    split; [rewrite (setitem_length _ _ _ _ Hs); exact Hpt|].
    rewrite map_app. reflexivity. }
  destruct (0 <? pre)%nat.
  - rewrite (getitem_in_range R (pseudotimes st) pre 0) by lia. cbn [bind].
    rewrite Hw. cbn [bind]. apply Hset.
  - cbn [bind]. apply Hset.
Qed.

Lemma order_loop_returns :
  forall range st,
    Forall (fun i => (i < length orders)%nat) range ->
    length (pseudotimes st) = k ->
    exists st',
      order_loop dp g orders pres st range = Ok st' /\
      map cell_index (ordering_dict st') =
      map cell_index (ordering_dict st) ++ map (fun i => nth i orders 0%nat) range.
Proof.
  induction range as [|i range IH]; intros st Hr Hpt.
  - exists st. split; [reflexivity|]. cbn. rewrite app_nil_r. reflexivity.
  - pose proof (Forall_inv Hr) as Hi. pose proof (Forall_inv_tail Hr) as Hr'.
    cbn beta in Hi.
    destruct (order_step_returns st i Hi Hpt) as (st1 & H1 & Hpt1 & Hd1).
    destruct (IH st1 Hr' Hpt1) as (st' & H2 & Hd2).
    exists st'. cbn [order_loop]. rewrite H1. cbn [bind].
    split; [exact H2|]. rewrite Hd2, Hd1, <- app_assoc. reflexivity.
Qed.

End OrderLoop.

Lemma increasing_cons :
  forall a l, increasing l -> (forall b, In b l -> (a < b)%nat) -> increasing (a :: l).
Proof.
  intros a [|b l] Hl Ha; [exact I|]. cbn. split; [apply Ha; left; reflexivity|exact Hl].
Qed.

Lemma increasing_head :
  forall a l, increasing (a :: l) -> forall b, In b l -> (a < b)%nat.
Proof.
  intros a l. revert a. induction l as [|x l IH]; intros a H b Hb; [destruct Hb|].
  cbn in H. destruct H as [Hax Hl]. destruct Hb as [<-|Hb]; [exact Hax|].
  specialize (IH x Hl b Hb). lia.
Qed.

Lemma increasing_tail : forall a l, increasing (a :: l) -> increasing l.
Proof. intros a [|b l] H; [exact I|]. cbn in H. apply H. Qed.

Lemma insert_row_spec :
  forall r l,
    increasing (map cell_index l) ->
    ~ In (cell_index r) (map cell_index l) ->
    increasing (map cell_index (insert_row r l)) /\
    (forall v, In v (map cell_index (insert_row r l)) <->
               v = cell_index r \/ In v (map cell_index l)) /\
    length (insert_row r l) = S (length l).
Proof.
  intros r. induction l as [|h t IH]; intros Hinc Hnew.
  - cbn. split; [exact I|]. split; [|reflexivity].
    intros v. split; [intros [<-|[]]; left; reflexivity|intros [->|[]]; left; reflexivity].
  - cbn [insert_row]. destruct (cell_index r <? cell_index h)%nat eqn:E.
    + apply Nat.ltb_lt in E. split; [|split; [|reflexivity]].
      * cbn [map]. apply increasing_cons; [exact Hinc|].
        intros b [<-|Hb]; [exact E|].
        pose proof (increasing_head _ _ Hinc b Hb). lia.
      * intros v. cbn [map In]. split; intros H.
        -- destruct H as [<-|H]; [left; reflexivity|right; exact H].
        -- destruct H as [->|H]; [left; reflexivity|right; exact H].
    + apply Nat.ltb_ge in E.
      assert (Hne : cell_index r <> cell_index h).
      { intros Heq. apply Hnew. left. symmetry. exact Heq. }
      destruct (IH (increasing_tail _ _ Hinc)) as (Hi & Hin & Hl).
      { intros H. apply Hnew. right. exact H. }
      split; [|split].
      * cbn [map]. apply increasing_cons; [exact Hi|].
        intros b Hb. apply Hin in Hb. destruct Hb as [->|Hb]; [lia|].
        apply (increasing_head _ _ Hinc b Hb).
      * intros v. cbn [map In]. rewrite Hin. tauto.
      * cbn. rewrite Hl. reflexivity.
Qed.

Lemma sort_index_spec :
  forall l acc,
    NoDup (map cell_index l) ->
    (forall v, In v (map cell_index l) -> ~ In v (map cell_index acc)) ->
    increasing (map cell_index acc) ->
    let s := fold_left (fun acc r => insert_row r acc) l acc in
    increasing (map cell_index s) /\
    (forall v, In v (map cell_index s) <->
               In v (map cell_index acc) \/ In v (map cell_index l)) /\
    length s = (length acc + length l)%nat.
Proof.
  induction l as [|r l IH]; intros acc Hnd Hout Hinc; cbn [fold_left].
  - split; [exact Hinc|]. split; [|cbn; lia]. intros v. cbn. tauto.
  - cbn [map] in Hnd, Hout. inversion Hnd as [|? ? Hr Hnd']; subst.
    assert (Hnew : ~ In (cell_index r) (map cell_index acc))
      by (apply Hout; left; reflexivity).
    destruct (insert_row_spec r acc Hinc Hnew) as (Hi & Hin & Hl).
    destruct (IH (insert_row r acc) Hnd') as (Hi2 & Hin2 & Hl2); [|exact Hi|].
    + intros v Hv Hv'. apply Hin in Hv'. destruct Hv' as [->|Hv'].
      * contradiction.
      * apply (Hout v); [right; exact Hv|exact Hv'].
    + split; [exact Hi2|]. split.
      * intros v. rewrite Hin2, Hin. cbn [map In]. split; intros H; intuition congruence.
      * rewrite Hl2, Hl. cbn. lia.
Qed.

(** X7: for a square distance matrix of the order of the tree and a root
    among its vertices, [get_order_from_DDRTree] returns; its table has
    one row for every vertex the traversal visits, by increasing cell
    index. *)
Theorem get_order_from_DDRTree_table :
  forall k (dp : mat) (mst : sparse) (root_cell : nat),
    rect2 k k dp -> sp_order mst = k -> (root_cell < k)%nat ->
    exists ordering orders pres,
      dfs (Weighted_Adjacency mst) root_cell = Ok (orders, pres) /\
      get_order_from_DDRTree dp mst root_cell = Ok ordering /\
      length ordering = length orders /\
      (forall v, In v (map cell_index ordering) <-> In v orders) /\
      increasing (map cell_index ordering).
Proof.
  intros k dp mst root Hdp Hk Hroot.
  set (g := Weighted_Adjacency mst).
  assert (Hvc : vcount g = k) by exact Hk.
  destruct (dfs_tree_order g root ltac:(lia)) as (vs & ps & Hdfs & Hlen & Htree).
  pose proof (tree_order_in_range g [root] (combine vs ps)
                ltac:(constructor; [lia|constructor]) Htree) as Hrange.
  destruct (tree_order_NoDup g [root] vs ps Hlen Htree) as [Hnd Hout].
  assert (Hvs : Forall (fun v => (v < k)%nat) (root :: vs)).
  { constructor; [exact Hroot|]. apply Forall_forall. intros v Hv.
    rewrite Forall_forall in Hrange.
    apply (In_nth _ _ 0%nat) in Hv. destruct Hv as (i & Hi & <-).
    specialize (Hrange (nth i vs 0%nat, nth i ps 0%nat)).
    rewrite <- Hvc. apply Hrange.
    rewrite <- (combine_nth vs ps i 0%nat 0%nat) by lia.
    apply nth_In. rewrite length_combine. lia. }
  assert (Hps : Forall (fun v => (v < k)%nat) (root :: ps)).
  { constructor; [exact Hroot|]. apply Forall_forall. intros v Hv.
    rewrite Forall_forall in Hrange.
    apply (In_nth _ _ 0%nat) in Hv. destruct Hv as (i & Hi & <-).
    specialize (Hrange (nth i vs 0%nat, nth i ps 0%nat)).
    rewrite <- Hvc. apply Hrange.
    rewrite <- (combine_nth vs ps i 0%nat 0%nat) by lia.
    apply nth_In. rewrite length_combine. lia. }
  assert (Hcols : ncols dp = k).
  { apply (ncols_rect k k dp); [lia|exact Hdp]. }
  destruct (order_loop_returns k dp g (root :: vs) (root :: ps) Hdp Hvs Hps
              ltac:(cbn; lia) (seq 0 (length (root :: vs)))
              {| curr_state := 0%nat; pseudotimes := zeros (ncols dp);
                 ordering_dict := [] |})
    as (st & Hst & Hidx).
  { apply Forall_forall. intros i Hi. apply in_seq in Hi. lia. }
  { cbn [pseudotimes]. unfold zeros. rewrite repeat_length. exact Hcols. }
  cbn [ordering_dict map app] in Hidx. rewrite tabulate_list in Hidx.
  destruct (sort_index_spec (ordering_dict st) []) as (Hinc & Hin & Hl).
  { rewrite Hidx. constructor; [|exact Hnd].
    intros H. apply (Hout root H). left. reflexivity. }
  { intros v _ []. }
  { exact I. }
  exists (sort_index (ordering_dict st)), (root :: vs), (root :: ps).
  split; [exact Hdfs|]. split.
  - unfold get_order_from_DDRTree. fold g. rewrite Hdfs. cbn [bind].
    rewrite Hst. reflexivity.
  - unfold sort_index. split; [|split].
    + rewrite Hl. cbn [length]. rewrite <- (length_map cell_index), Hidx. reflexivity.
    + intros v. rewrite Hin, Hidx. cbn [map In]. tauto.
    + exact Hinc.
Qed.

Lemma get_order_from_DDRTree_table_witness :
  rect2 4 4 dp_line /\ sp_order mst_line = 4%nat /\ (3 < 4)%nat /\
  exists ordering,
    get_order_from_DDRTree dp_line mst_line 3 = Ok ordering /\
    increasing (map cell_index ordering).
Proof.
  assert (H1 : rect2 4 4 dp_line) by (split; [reflexivity|repeat constructor]).
  assert (H2 : sp_order mst_line = 4%nat) by reflexivity.
  assert (H3 : (3 < 4)%nat) by lia.
  split; [exact H1|split; [exact H2|split; [exact H3|]]].
  destruct (get_order_from_DDRTree_table 4 dp_line mst_line 3 H1 H2 H3)
    as (ordering & orders & pres & _ & Hrun & _ & _ & Hinc).
  exists ordering. split; [exact Hrun|exact Hinc].
Defined.

(** ** Projection of the cells onto the tree ([project2MST]) *)

Lemma dist_sym : forall u v, dist u v = dist v u.
Proof.
  intros u v. unfold dist. f_equal. revert v.
  induction u as [|x u IH]; intros [|y v]; try reflexivity.
  rewrite !zipwith_cons, !sumsq_cons, IH. ring.
Qed.

Lemma dist_nonneg : forall u v, 0 <= dist u v.
Proof. intros. unfold dist. apply sqrt_pos. Qed.

Lemma squareform_entry :
  forall pts i j,
    (i < length pts)%nat -> (j < length pts)%nat ->
    nth j (nth i (squareform_pdist pts) []) 0 =
    if (i =? j)%nat then 0 else dist (nth i pts []) (nth j pts []).
Proof.
  intros pts i j Hi Hj. unfold squareform_pdist. unfold ten, mat, vec in *.
  rewrite (nth_map_seq _ (fun i => map (fun j =>
             if (i =? j)%nat then 0
             else if (i <? j)%nat then dist (nth i pts []) (nth j pts [])
             else dist (nth j pts []) (nth i pts [])) (seq 0 (length pts)))
           (length pts) i []) by exact Hi.
  rewrite (nth_map_seq _ (fun j =>
             if (i =? j)%nat then 0
             else if (i <? j)%nat then dist (nth i pts []) (nth j pts [])
             else dist (nth j pts []) (nth i pts [])) (length pts) j 0) by exact Hj.
  destruct (i =? j)%nat; [reflexivity|].
  destruct (i <? j)%nat; [reflexivity|apply dist_sym].
Qed.

Lemma squareform_shape :
  forall pts, rect2 (length pts) (length pts) (squareform_pdist pts).
Proof.
  intros pts. unfold squareform_pdist. split.
  - rewrite length_map, length_seq. reflexivity.
  - apply Forall_forall. intros r Hr. apply in_map_iff in Hr.
    destruct Hr as (i & <- & _). rewrite length_map, length_seq. reflexivity.
Qed.

Lemma in_concat_nth :
  forall (m : mat) v, In v (concat m) ->
    exists i j, (i < length m)%nat /\ (j < length (nth i m []))%nat /\
                nth j (nth i m []) 0 = v.
Proof.
  intros m v H. apply in_concat in H. destruct H as (row & Hrow & Hv).
  apply (In_nth _ _ []) in Hrow. destruct Hrow as (i & Hi & Ei).
  apply (In_nth _ _ 0) in Hv. destruct Hv as (j & Hj & Ej).
  subst row. exists i, j. split; [exact Hi|split; [exact Hj|exact Ej]].
Qed.

Lemma add_off_diagonal_entry :
  forall n (dp : mat) m i j,
    rect2 n n dp -> (i < n)%nat -> (j < n)%nat ->
    nth j (nth i (add_off_diagonal dp m) []) 0 =
    if (i =? j)%nat then 0 else nth j (nth i dp []) 0 + m.
Proof.
  intros n dp m i j [Hl Hr] Hi Hj. unfold add_off_diagonal.
  assert (Hrow : length (nth i dp []) = n).
  { rewrite Forall_forall in Hr. apply Hr, nth_In. lia. }
  unfold ten, mat, vec in *.
  rewrite (nth_map_seq _ (fun i => map (fun j =>
             if (i =? j)%nat then 0 else nth j (nth i dp []) 0 + m)
             (seq 0 (length (nth i dp [])))) (length dp) i []) by lia.
  rewrite Hrow.
  rewrite (nth_map_seq _ (fun j =>
             if (i =? j)%nat then 0 else nth j (nth i dp []) 0 + m) n j 0) by lia.
  reflexivity.
Qed.

Lemma add_off_diagonal_shape :
  forall n (dp : mat) m, rect2 n n dp -> rect2 n n (add_off_diagonal dp m).
Proof.
  intros n dp m [Hl Hr]. unfold add_off_diagonal. split.
  - rewrite length_map, length_seq. exact Hl.
  - apply Forall_forall. intros r Hin. apply in_map_iff in Hin.
    destruct Hin as (i & <- & Hi). apply in_seq in Hi.
    rewrite length_map, length_seq.
    rewrite Forall_forall in Hr. apply Hr, nth_In. lia.
Qed.

Lemma nth_in_concat :
  forall (m : mat) i j,
    (i < length m)%nat -> (j < length (nth i m []))%nat ->
    In (nth j (nth i m []) 0) (concat m).
Proof.
  intros m i j Hi Hj. apply in_concat. exists (nth i m []).
  split; apply nth_In; assumption.
Qed.

Lemma dist_same : forall p, dist p p = 0.
Proof. intros p. unfold dist. rewrite sumsq_diff_same. apply sqrt_0. Qed.

(** X4: the distances [project2MST] returns are the distances between the
    projected cells raised by [min_dist], the least positive one of them
    (no positive distance between two projected cells is below it), with
    a zero diagonal: no two cells are left at distance zero. *)
Theorem project2MST_distance_floor :
  forall minimum_spanning_tree Projection_Method mst (Z Y : mat) proj,
    project2MST minimum_spanning_tree Projection_Method mst Z Y = Ok proj ->
    let pts := transpose (P proj) in
    let D := cellPairwiseDistances proj in
    exists min_dist a b,
      0 < min_dist /\
      (a < length pts)%nat /\ (b < length pts)%nat /\
      min_dist = dist (nth a pts []) (nth b pts []) /\
      (forall i j, (i < length pts)%nat -> (j < length pts)%nat ->
         0 < dist (nth i pts []) (nth j pts []) ->
         min_dist <= dist (nth i pts []) (nth j pts [])) /\
      rect2 (length pts) (length pts) D /\
      (forall i j, (i < length pts)%nat -> (j < length pts)%nat ->
         nth j (nth i D []) 0 =
         if (i =? j)%nat then 0 else dist (nth i pts []) (nth j pts []) + min_dist) /\
      (forall i j, (i < length pts)%nat -> (j < length pts)%nat -> i <> j ->
         min_dist <= nth j (nth i D []) 0) /\
      dp_mst proj = minimum_spanning_tree D.
Proof.
  intros mstf PM mst Z Y proj H pts D.
  unfold project2MST in H.
  destruct (find_cell_proj_closest_vertex Z Y) as [closest|e]; cbn [bind] in H;
    [|discriminate].
  destruct (mapM _ (seq 0 (length closest))) as [cols|e]; cbn [bind] in H;
    [|discriminate].
  set (Pm := map (fun k => map (fun c => nth k c 0) cols) (seq 0 (length Z))) in *.
  destruct (np_min (nonzero_entries (squareform_pdist (transpose Pm))))
    as [m|e] eqn:Em; cbn [bind] in H; [|discriminate].
  injection H as <-. cbn [P cellPairwiseDistances dp_mst] in *.
  subst pts D. set (pts := transpose Pm) in *.
  destruct (np_min_spec _ _ Em) as [Hin Hle].
  unfold nonzero_entries in Hin, Hle.
  apply filter_In in Hin. destruct Hin as [Hin Hnz].
  destruct (Req_EM_T m 0) as [|Hm0]; [discriminate|]. clear Hnz.
  destruct (in_concat_nth _ _ Hin) as (a & b & Ha & Hb & Hab).
  pose proof (squareform_shape pts) as Hshape.
  assert (Ha' : (a < length pts)%nat) by (destruct Hshape as [Hl _]; lia).
  assert (Hb' : (b < length pts)%nat).
  { destruct Hshape as [_ Hr]. rewrite Forall_forall in Hr.
    rewrite <- (Hr (nth a (squareform_pdist pts) [])); [exact Hb|].
    apply nth_In. exact Ha. }
  rewrite squareform_entry in Hab by assumption.
  destruct (a =? b)%nat eqn:Eab; [congruence|].
  exists m, a, b.
  assert (Hpos : 0 < m).
  { pose proof (dist_nonneg (nth a pts []) (nth b pts [])). lra. }
  split; [exact Hpos|]. split; [exact Ha'|]. split; [exact Hb'|].
  split; [symmetry; exact Hab|].
  split.
  { intros i j Hi Hj Hij.
    assert (Eij : (i =? j)%nat = false).
    { apply Nat.eqb_neq. intros ->. rewrite dist_same in Hij. lra. }
    pose proof (squareform_entry pts i j Hi Hj) as He. rewrite Eij in He.
    rewrite <- He. rewrite Forall_forall in Hle. apply Hle.
    apply filter_In. split.
    - apply nth_in_concat.
      + destruct Hshape as [Hl _]. lia.
      + destruct Hshape as [Hl Hr]. rewrite Forall_forall in Hr.
        rewrite (Hr (nth i (squareform_pdist pts) [])); [exact Hj|].
        apply nth_In. lia.
    - rewrite He. destruct (Req_EM_T _ 0) as [E0|_]; [lra|reflexivity]. }
  split; [apply add_off_diagonal_shape, Hshape|].
  assert (Hentry : forall i j, (i < length pts)%nat -> (j < length pts)%nat ->
            nth j (nth i (add_off_diagonal (squareform_pdist pts) m) []) 0 =
            if (i =? j)%nat then 0 else dist (nth i pts []) (nth j pts []) + m).
  { intros i j Hi Hj.
    rewrite (add_off_diagonal_entry (length pts)) by assumption.
    rewrite squareform_entry by assumption.
    destruct (i =? j)%nat; reflexivity. }
  split; [exact Hentry|]. split; [|reflexivity].
  intros i j Hi Hj Hij. rewrite Hentry by assumption.
  apply Nat.eqb_neq in Hij. rewrite Hij.
  pose proof (dist_nonneg (nth i pts []) (nth j pts [])). lra.
Qed.

(** X5: a single cell cannot be projected: whatever the tree and the
    principal points, [project2MST] raises. *)
Theorem project2MST_single_cell :
  forall minimum_spanning_tree Projection_Method mst d (Z Y : mat),
    (0 < d)%nat -> rect2 d 1 Z ->
    exists e, project2MST minimum_spanning_tree Projection_Method mst Z Y = Raise e.
Proof.
  intros mstf PM mst d Z Y Hd HZ. unfold project2MST.
  destruct (find_cell_proj_closest_vertex Z Y) as [closest|e] eqn:Ec; cbn [bind];
    [|exists e; reflexivity].
  assert (Hlen : length closest = 1%nat).
  { unfold find_cell_proj_closest_vertex in Ec.
    destruct (cdist (transpose Z) (transpose Y)) as [ds|e] eqn:Ed; cbn [bind] in Ec;
      [|discriminate].
    destruct ds as [|r ds]; [discriminate|].
    apply mapM_length in Ec. unfold cdist in Ed. apply mapM_length in Ed.
    rewrite (transpose_rows d 1 Z Hd HZ) in Ed. cbn in Ed. cbn in Ec. lia. }
  rewrite Hlen.
  destruct (mapM _ (seq 0 1)) as [cols|e] eqn:Ecols; cbn [bind]; [|exists e; reflexivity].
  apply mapM_length in Ecols. cbn in Ecols.
  destruct cols as [|c0 [|c1 cols]]; try discriminate.
  destruct HZ as [HlZ _]. rewrite HlZ.
  destruct d as [|d']; [lia|].
  exists ValueError.
  unfold transpose, ncols. cbn [seq map hd length].
  unfold squareform_pdist. cbn [length seq map]. cbn [Nat.eqb].
  unfold nonzero_entries. cbn [concat app filter].
  destruct (Req_EM_T 0 0) as [_|N]; [|contradiction]. reflexivity.
Qed.

Lemma dist_1d : forall a b : R, sqrt (sumsq (zipwith Rminus [a] [b])) = Rabs (a - b).
Proof.
  intros a b. cbn. rewrite Rplus_0_r, Rmult_1_r.
  apply sqrt_Rsqr_abs.
Qed.

Lemma first_min_pair_left :
  forall a b, a < b -> first_min [a; b] = Ok 0%nat.
Proof.
  intros a b H. unfold first_min, np_min. cbn [fold_left bind].
  rewrite Rmin_left by lra. unfold where_eqR. cbn [length seq combine filter snd].
  destruct (Req_EM_T a a) as [_|N]; [reflexivity|contradiction].
Qed.

Lemma first_min_pair_right :
  forall a b, b < a -> first_min [a; b] = Ok 1%nat.
Proof.
  intros a b H. unfold first_min, np_min. cbn [fold_left bind].
  rewrite Rmin_right by lra. unfold where_eqR. cbn [length seq combine filter snd].
  destruct (Req_EM_T a b) as [E|_]; [lra|].
  destruct (Req_EM_T b b) as [_|N]; [reflexivity|contradiction].
Qed.

Lemma first_min_single : forall a, first_min [a] = Ok 0%nat.
Proof.
  intros a. unfold first_min, np_min. cbn [fold_left bind].
  unfold where_eqR. cbn [length seq combine filter snd].
  destruct (Req_EM_T a a) as [_|N]; [reflexivity|contradiction].
Qed.

Lemma proj_point_on_line_1d :
  forall p a b : R, a <> b -> proj_point_on_line [p] [[a; b]] = Ok [p].
Proof.
  intros p a b H. unfold proj_point_on_line, getcol.
  cbn [mapM getitem nth_error bind].
  unfold elementwise, np_dot. cbn [length Nat.eqb bind zipwith combine map fst snd].
  unfold scale, dot, sum. cbn [length Nat.eqb combine map fst snd fold_right].
  f_equal. f_equal. field. intros E. apply H. nra.
Qed.

Lemma Rabs_0_2 : Rabs (0 - 2) = 2.
Proof. unfold Rabs. destruct (Rcase_abs (0 - 2)); lra. Qed.

Lemma project2MST_two_cells :
  project2MST (fun _ => mst_pair) project_point_to_line_segment mst_pair
    [[0; 2]] [[0; 2]] =
  Ok {| cellPairwiseDistances := [[0; 4]; [4; 0]];
        P := [[0; 2]];
        closest_vertex := [0%nat; 1%nat];
        dp_mst := mst_pair |}.
Proof.
  unfold project2MST, find_cell_proj_closest_vertex.
  unfold transpose, ncols. cbn [hd length seq map col nth].
  unfold cdist. cbn [mapM]. unfold euclidean. cbn [length Nat.eqb]. cbn [bind mapM].
  rewrite !dist_1d.
  rewrite first_min_pair_left
    by (unfold Rabs; repeat destruct (Rcase_abs _); lra).
  rewrite first_min_pair_right
    by (unfold Rabs; repeat destruct (Rcase_abs _); lra).
  cbn [bind length seq mapM].
  change (select_degree_eq (Weighted_Adjacency mst_pair) 1) with [0%nat; 1%nat].
  unfold project_cell.
  cbn [getitem nth_error bind].
  change (vcount (Weighted_Adjacency mst_pair)) with 2%nat.
  cbn [Nat.ltb Nat.leb negb].
  change (neighbors (Weighted_Adjacency mst_pair) 0) with [1%nat].
  change (neighbors (Weighted_Adjacency mst_pair) 1) with [0%nat].
  unfold getcol. cbn [mapM getitem nth_error bind].
  unfold project_loop, take_columns. cbn [mapM getitem nth_error bind existsb Nat.eqb orb].
  rewrite !proj_point_on_line_1d by lra. cbn [bind].
  unfold euclidean. cbn [length Nat.eqb bind app]. rewrite !dist_1d.
  unfold np_min. cbn [fold_left bind]. unfold where_eqR.
  cbn [length seq combine filter snd].
  destruct (Req_EM_T (Rabs (0 - 0)) (Rabs (0 - 0))) as [_|N]; [|contradiction].
  destruct (Req_EM_T (Rabs (2 - 2)) (Rabs (2 - 2))) as [_|N]; [|contradiction].
  cbn [map fst getitem nth_error bind]. unfold broadcast_row. cbn [length Nat.eqb bind].
  cbn [map nth length seq col].
  unfold squareform_pdist. cbn [length seq map Nat.eqb Nat.ltb Nat.leb nth].
  unfold dist. rewrite !dist_1d, Rabs_0_2.
  unfold nonzero_entries. cbn [concat app filter].
  destruct (Req_EM_T 0 0) as [_|N]; [|contradiction].
  destruct (Req_EM_T 2 0) as [E|_]; [lra|].
  cbn [fold_left bind].
  unfold add_off_diagonal. cbn [length seq map nth Nat.eqb].
  rewrite Rmin_left by lra.
  repeat f_equal; lra.
Qed.

Lemma project2MST_distance_floor_witness :
  exists proj,
    project2MST (fun _ => mst_pair) project_point_to_line_segment mst_pair
      [[0; 2]] [[0; 2]] = Ok proj /\
    exists min_dist,
      0 < min_dist /\
      forall i j, (i < length (transpose (P proj)))%nat ->
                  (j < length (transpose (P proj)))%nat -> i <> j ->
                  min_dist <= nth j (nth i (cellPairwiseDistances proj) []) 0.
Proof.
  eexists. split; [exact project2MST_two_cells|].
  destruct (project2MST_distance_floor _ _ _ _ _ _ project2MST_two_cells)
    as (m & a & b & Hpos & _ & _ & _ & _ & _ & _ & Hfloor & _).
  exists m. split; [exact Hpos|exact Hfloor].
Defined.

(** ** The nearest vertex by blocks ([_find_nearest_vertex]) *)

Lemma is_first_min_unique :
  forall z i j, is_first_min z i -> is_first_min z j -> i = j.
Proof.
  intros z i j (Hi & Hile & Hilt) (Hj & Hjle & Hjlt).
  destruct (Nat.lt_trichotomy i j) as [H|[H|H]]; [|exact H|].
  - specialize (Hjlt i H). specialize (Hile j Hj). lra.
  - specialize (Hilt j H). specialize (Hjle i Hi). lra.
Qed.

Lemma first_min_is_first_min :
  forall z i, first_min z = Ok i -> is_first_min z i.
Proof.
  intros z i H. destruct z as [|x z]; [discriminate|].
  destruct (first_min_spec (x :: z) ltac:(discriminate)) as (i' & H' & Hspec).
  rewrite H in H'. injection H' as <-. exact Hspec.
Qed.

Lemma is_first_min_first_min :
  forall z i, is_first_min z i -> first_min z = Ok i.
Proof.
  intros z i H. destruct z as [|x z]; [destruct H as [H _]; cbn in H; lia|].
  destruct (first_min_spec (x :: z) ltac:(discriminate)) as (i' & H' & Hspec).
  rewrite H'. f_equal. apply (is_first_min_unique (x :: z)); assumption.
Qed.

Lemma argmin_loop_spec :
  forall t pre best least,
    is_first_min pre best -> nth best pre 0 = least ->
    is_first_min (pre ++ t) (argmin_loop best least (length pre) t).
Proof.
  induction t as [|x t IH]; intros pre best least Hb Hl.
  - cbn. rewrite app_nil_r. exact Hb.
  - cbn [argmin_loop]. destruct Hb as (Hb1 & Hb2 & Hb3).
    replace (pre ++ x :: t) with ((pre ++ [x]) ++ t) by (rewrite <- app_assoc; reflexivity).
    replace (S (length pre)) with (length (pre ++ [x]))
      by (rewrite length_app; cbn; lia).
    destruct (Rlt_dec x least) as [Hlt|Hge].
    + apply IH.
      * split; [rewrite length_app; cbn; lia|]. split.
        -- intros j Hj. rewrite length_app in Hj. cbn in Hj.
           rewrite (app_nth2 pre [x]) by lia. rewrite Nat.sub_diag. cbn [nth].
           destruct (Nat.eq_dec j (length pre)) as [->|Hne].
           ++ rewrite app_nth2 by lia. rewrite Nat.sub_diag. cbn. lra.
           ++ rewrite app_nth1 by lia. specialize (Hb2 j ltac:(lia)). lra.
        -- intros j Hj. rewrite (app_nth2 pre [x]) by lia. rewrite Nat.sub_diag.
           cbn [nth]. rewrite app_nth1 by lia. specialize (Hb2 j ltac:(lia)). lra.
      * rewrite app_nth2 by lia. rewrite Nat.sub_diag. reflexivity.
    + apply IH.
      * split; [rewrite length_app; cbn; lia|]. split.
        -- intros j Hj. rewrite length_app in Hj. cbn in Hj.
           rewrite (app_nth1 pre [x] 0 Hb1).
           destruct (Nat.eq_dec j (length pre)) as [->|Hne].
           ++ rewrite app_nth2 by lia. rewrite Nat.sub_diag. cbn. lra.
           ++ rewrite app_nth1 by lia. apply Hb2. lia.
        -- intros j Hj. rewrite (app_nth1 pre [x] 0 Hb1).
           rewrite app_nth1 by lia. apply Hb3. exact Hj.
      * rewrite app_nth1 by lia. exact Hl.
Qed.

Lemma np_argmin_first_min : forall z, np_argmin z = first_min z.
Proof.
  intros [|x t]; [reflexivity|].
  symmetry. apply is_first_min_first_min. cbn [np_argmin].
  apply (argmin_loop_spec t [x] 0%nat x); [|reflexivity].
  split; [cbn; lia|]. split.
  - intros [|j] Hj; [cbn; lra|cbn in Hj; lia].
  - intros j Hj. lia.
Qed.

(** Two arrays computed cell by cell, taken in pairs. *)
Lemma combine_map_same :
  forall (X Y1 Y2 : Type) (cells : list X) (h1 : X -> Y1) (h2 : X -> Y2),
    combine (map h1 cells) (map h2 cells) = map (fun p => (h1 p, h2 p)) cells.
Proof.
  intros X Y1 Y2 cells h1 h2. induction cells as [|p cells IH]; [reflexivity|].
  cbn [map combine]. rewrite IH. reflexivity.
Qed.

Lemma combine_seq_map :
  forall (B : Type) (g : nat -> B) n,
    combine (seq 0 n) (map g (seq 0 n)) = map (fun p => (p, g p)) (seq 0 n).
Proof.
  intros B g n. rewrite <- (map_id (seq 0 n)) at 1. apply combine_map_same.
Qed.

(** A block of columns, as a block of rows of the transposed array. *)
Lemma transpose_columns :
  forall d w (M : mat) a b,
    (0 < d)%nat -> rect2 d w M ->
    transpose (map (fun r => firstn b (skipn a r)) M) =
    map (col M) (seq a (Nat.min b (w - a))).
Proof.
  intros d w M a b Hd [Hl Hr]. unfold transpose.
  assert (Hc : ncols (map (fun r => firstn b (skipn a r)) M) = Nat.min b (w - a)).
  { destruct M as [|r0 M]; [cbn in Hl; lia|]. inversion Hr; subst.
    unfold ncols. cbn [map hd]. rewrite length_firstn, length_skipn. reflexivity. }
  rewrite Hc, <- (seq_add a), map_map.
  apply map_ext_in. intros j Hj. apply in_seq in Hj.
  unfold col. rewrite map_map. apply map_ext. intros r.
  rewrite nth_firstn.
  destruct (j <? b)%nat eqn:E; [|apply Nat.ltb_ge in E; lia].
  rewrite nth_skipn. reflexivity.
Qed.

Lemma column_block_firstn :
  forall d w (M : mat) bs i,
    rect2 d w M -> (0 < bs)%nat ->
    (1 <= i <= (w + bs - 1) / bs)%nat ->
    column_block M bs ((w + bs - 1) / bs) i =
    map (fun r => firstn bs (skipn ((i - 1) * bs) r)) M.
Proof.
  intros d w M bs i [Hl Hr] Hbs Hi. unfold column_block.
  pose proof (Nat.div_mod_eq (w + bs - 1) bs) as E.
  pose proof (Nat.mod_upper_bound (w + bs - 1) bs ltac:(lia)) as U.
  rewrite (Nat.mul_comm bs) in E.
  destruct (i <? (w + bs - 1) / bs)%nat eqn:Ei.
  - apply map_ext. intros r. f_equal.
    replace i with (S (i - 1)) at 1 by lia. cbn [Nat.mul]. lia.
  - apply Nat.ltb_ge in Ei. assert (i = ((w + bs - 1) / bs)%nat) by lia. subst i.
    apply map_ext_in. intros r Hin. rewrite Forall_forall in Hr.
    symmetry. apply firstn_all2. rewrite length_skipn, (Hr r Hin).
    assert (((w + bs - 1) / bs - 1) * bs + bs = (w + bs - 1) / bs * bs)%nat.
    { replace ((w + bs - 1) / bs)%nat with (S ((w + bs - 1) / bs - 1)) at 2 by lia.
      cbn [Nat.mul]. lia. }
    lia.
Qed.

(** The least entry of a list and of a block after it. *)
Lemma best_extend :
  forall pre blk j,
    first_min blk = Ok j ->
    best_index (pre ++ blk) =
      (if closer (nth j blk 0) (best_value pre)
       then Some (j + length pre)%nat else best_index pre) /\
    best_value (pre ++ blk) =
      (if closer (nth j blk 0) (best_value pre)
       then Some (nth j blk 0) else best_value pre).
Proof.
  intros pre blk j Hj. apply first_min_is_first_min in Hj.
  destruct Hj as (Hj1 & Hj2 & Hj3).
  destruct pre as [|x0 pre0].
  - unfold best_value at 1 3, best_index at 2. cbn [first_min np_min bind closer app].
    assert (H : first_min blk = Ok j)
      by (apply is_first_min_first_min; repeat split; assumption).
    unfold best_index, best_value. rewrite H. cbn [length]. rewrite Nat.add_0_r.
    split; reflexivity.
  - set (pre := x0 :: pre0) in *.
    destruct (first_min_spec pre ltac:(discriminate)) as (i0 & Hi0 & Hs1 & Hs2 & Hs3).
    unfold best_value at 1 3, best_index at 2. rewrite Hi0. cbn [closer].
    destruct (Rlt_dec (nth j blk 0) (nth i0 pre 0)) as [Hlt|Hge].
    + assert (H : is_first_min (pre ++ blk) (j + length pre)).
      { split; [rewrite length_app; lia|]. split.
        - intros t Ht. rewrite length_app in Ht.
          rewrite (app_nth2 pre blk) by lia.
          replace (j + length pre - length pre)%nat with j by lia.
          destruct (Nat.lt_ge_cases t (length pre)) as [Hl|Hl].
          + rewrite app_nth1 by exact Hl. specialize (Hs2 t Hl). lra.
          + rewrite app_nth2 by lia. apply Hj2. lia.
        - intros t Ht. rewrite (app_nth2 pre blk) by lia.
          replace (j + length pre - length pre)%nat with j by lia.
          destruct (Nat.lt_ge_cases t (length pre)) as [Hl|Hl].
          + rewrite app_nth1 by exact Hl. specialize (Hs2 t Hl). lra.
          + rewrite app_nth2 by lia. apply Hj3. lia. }
      unfold best_index, best_value.
      rewrite (is_first_min_first_min _ _ H).
      rewrite (app_nth2 pre blk) by lia.
      replace (j + length pre - length pre)%nat with j by lia.
      split; reflexivity.
    + assert (H : is_first_min (pre ++ blk) i0).
      { split; [rewrite length_app; lia|]. split.
        - intros t Ht. rewrite length_app in Ht.
          rewrite (app_nth1 pre blk 0 Hs1).
          destruct (Nat.lt_ge_cases t (length pre)) as [Hl|Hl].
          + rewrite app_nth1 by exact Hl. apply Hs2, Hl.
          + rewrite app_nth2 by lia.
            specialize (Hj2 (t - length pre)%nat ltac:(lia)). lra.
        - intros t Ht. rewrite (app_nth1 pre blk 0 Hs1).
          rewrite app_nth1 by lia. apply Hs3, Ht. }
      unfold best_index, best_value.
      rewrite (is_first_min_first_min _ _ H), Hi0.
      rewrite (app_nth1 pre blk 0 Hs1).
      split; reflexivity.
Qed.

Lemma firstn_of_seq :
  forall b s len, firstn b (seq s len) = seq s (Nat.min b len).
Proof.
  induction b as [|b IH]; intros s [|len]; try reflexivity.
  cbn. rewrite IH. reflexivity.
Qed.

Lemma skipn_of_seq :
  forall a s len, skipn a (seq s len) = seq (s + a) (len - a).
Proof.
  induction a as [|a IH]; intros s [|len]; cbn [skipn seq Nat.sub];
    rewrite ?Nat.add_0_r; try reflexivity.
  rewrite IH. f_equal. lia.
Qed.

Lemma block_of_map_seq :
  forall (Y : Type) (g : nat -> Y) w a b,
    firstn b (skipn a (map g (seq 0 w))) = map g (seq a (Nat.min b (w - a))).
Proof.
  intros Y g w a b. rewrite skipn_map, firstn_map, skipn_of_seq, firstn_of_seq.
  reflexivity.
Qed.

Lemma firstn_extend :
  forall (Y : Type) (l : list Y) a b,
    firstn a l ++ firstn b (skipn a l) = firstn (a + b) l.
Proof.
  intros Y l a b. rewrite firstn_skipn_comm.
  transitivity (firstn a (firstn (a + b) l) ++ skipn a (firstn (a + b) l)).
  - f_equal. rewrite firstn_firstn. f_equal. lia.
  - apply firstn_skipn.
Qed.

Lemma map_const_repeat :
  forall (X Y : Type) (y : Y) (l : list X),
    map (fun _ => y) l = repeat y (length l).
Proof.
  intros X Y y. induction l as [|x l IH]; [reflexivity|].
  cbn. rewrite IH. reflexivity.
Qed.

Lemma blocks_below :
  forall w bs c, (0 < bs)%nat -> (c < (w + bs - 1) / bs)%nat -> (c * bs < w)%nat.
Proof.
  intros w bs c Hbs Hc.
  pose proof (Nat.div_mod_eq (w + bs - 1) bs) as E.
  pose proof (Nat.mod_upper_bound (w + bs - 1) bs ltac:(lia)) as U.
  assert (S c * bs <= (w + bs - 1) / bs * bs)%nat by (apply Nat.mul_le_mono_r; lia).
  cbn [Nat.mul] in H. lia.
Qed.

Lemma blocks_cover :
  forall w bs, (0 < bs)%nat -> (w <= (w + bs - 1) / bs * bs)%nat.
Proof.
  intros w bs Hbs.
  pose proof (Nat.div_mod_eq (w + bs - 1) bs) as E.
  pose proof (Nat.mod_upper_bound (w + bs - 1) bs ltac:(lia)) as U.
  lia.
Qed.

Lemma best_index_rows :
  forall (zf : nat -> vec) l cv,
    mapM (fun p => first_min (zf p)) l = Ok cv ->
    map (fun p => best_index (zf p)) l = map Some cv.
Proof.
  intros zf. induction l as [|p l IH]; intros cv H.
  - injection H as <-. reflexivity.
  - cbn [mapM] in H. destruct (first_min (zf p)) as [i|e] eqn:E; [|discriminate].
    cbn [bind] in H. destruct (mapM _ l) as [r|e]; [|discriminate].
    injection H as <-. cbn [map]. unfold best_index at 1. rewrite E.
    f_equal. apply IH. reflexivity.
Qed.

Section NearestVertex.

Variables (d n k bs : nat) (data target : mat).
Hypothesis Hd : (0 < d)%nat.
Hypothesis Hn : (0 < n)%nat.
Hypothesis Hk : (0 < k)%nat.
Hypothesis Hbs : (0 < bs)%nat.
Hypothesis Hdata : rect2 d n data.
Hypothesis Htarget : rect2 d k target.

(** The distances from the cell [p] to the target points. *)
Let z (p : nat) : vec := map (fun j => dist (col data p) (col target j)) (seq 0 k).

Lemma rows_of_columns :
  forall (M : mat) w (l : list nat),
    rect2 d w M -> Forall (fun r => length r = d) (map (col M) l).
Proof.
  intros M w l [Hl _]. apply Forall_forall. intros r Hr. apply in_map_iff in Hr.
  destruct Hr as (i & <- & _). rewrite col_length. exact Hl.
Qed.

Lemma find_cell_proj_closest_vertex_rows :
  find_cell_proj_closest_vertex data target =
  mapM (fun p => first_min (z p)) (seq 0 n).
Proof.
  unfold find_cell_proj_closest_vertex.
  rewrite (transpose_rows d n data Hd Hdata), (transpose_rows d k target Hd Htarget).
  rewrite (cdist_ok d) by (eapply rows_of_columns; eassumption).
  cbn [bind].
  assert (Hne : forall l : list vec, l <> [] ->
            (match l with [] => Raise ValueError | _ :: _ => mapM first_min l end)
            = mapM first_min l).
  { intros [|? ?] ?; congruence. }
  rewrite Hne.
  - rewrite !map_map, mapM_map. apply mapM_ext. intros p _.
    unfold z. rewrite map_map. reflexivity.
  - intros E. apply (f_equal (@length vec)) in E.
    rewrite !length_map, length_seq in E. cbn in E. lia.
Qed.

(** The route by blocks of cells. *)
Lemma nearest_by_data_blocks :
  forall cv,
    find_cell_proj_closest_vertex data target = Ok cv ->
    _find_nearest_vertex data target bs false = Ok (map Some cv).
Proof.
  intros cv Hcv. rewrite find_cell_proj_closest_vertex_rows in Hcv.
  unfold _find_nearest_vertex.
  assert (E0 : (bs =? 0)%nat = false) by (apply Nat.eqb_neq; lia).
  rewrite E0. cbn [negb].
  rewrite (ncols_rect d n data Hd Hdata).
  set (nb := ((n + bs - 1) / bs)%nat).
  assert (Hblocks :
    mapM (fun i =>
            distances_Z_to_Y <-
              cdist (transpose (column_block data bs nb i)) (transpose target) ;;
            argmin_rows distances_Z_to_Y) (seq 1 nb) =
    mapM (mapM (fun p => first_min (z p)))
         (map (fun s => seq s (Nat.min bs (n - s))) (range_step n bs))).
  { unfold range_step. fold nb. rewrite <- seq_shift, !map_map, !mapM_map.
    apply mapM_ext. intros c Hc. apply in_seq in Hc.
    unfold nb. rewrite (column_block_firstn d n data bs (S c) Hdata Hbs) by (fold nb; lia).
    replace (S c - 1)%nat with c by lia.
    rewrite (transpose_columns d n data (c * bs) bs Hd Hdata).
    rewrite (transpose_rows d k target Hd Htarget).
    rewrite (cdist_ok d) by (eapply rows_of_columns; eassumption).
    cbn [bind]. unfold argmin_rows. rewrite !map_map, mapM_map.
    apply mapM_ext. intros p _. rewrite np_argmin_first_min.
    unfold z. rewrite map_map. reflexivity. }
  rewrite Hblocks.
  pose proof (mapM_concat (fun p => first_min (z p))
                (map (fun s => seq s (Nat.min bs (n - s))) (range_step n bs))) as Hc.
  rewrite chunks_cover in Hc by exact Hbs. rewrite Hcv in Hc.
  destruct (mapM (mapM (fun p => first_min (z p))) _) as [rs|e]; cbn [bind] in *;
    [|discriminate].
  injection Hc as ->. reflexivity.
Qed.

(** One block of target points: the nearest target among the first
    [c * bs] ones becomes the nearest among the first [(c + 1) * bs]. *)
Lemma nearest_loop_step :
  forall c rest,
    (c < (k + bs - 1) / bs)%nat ->
    nearest_loop data target bs ((k + bs - 1) / bs) (S c :: rest)
      (map (fun p => best_value (firstn (c * bs) (z p))) (seq 0 n))
      (map (fun p => best_index (firstn (c * bs) (z p))) (seq 0 n)) =
    nearest_loop data target bs ((k + bs - 1) / bs) rest
      (map (fun p => best_value (firstn (S c * bs) (z p))) (seq 0 n))
      (map (fun p => best_index (firstn (S c * bs) (z p))) (seq 0 n)).
Proof.
  intros c rest Hc.
  pose proof (blocks_below k bs c Hbs Hc) as Hlow.
  cbn [nearest_loop].
  rewrite (column_block_firstn d k target bs (S c) Htarget Hbs) by lia.
  replace (S c - 1)%nat with c by lia.
  rewrite (transpose_columns d k target (c * bs) bs Hd Htarget).
  rewrite (transpose_rows d n data Hd Hdata).
  rewrite (cdist_ok d) by (eapply rows_of_columns; eassumption).
  cbn [bind].
  set (blk := fun p : nat => firstn bs (skipn (c * bs) (z p))).
  assert (HD :
    map (fun xi => map (fun yj => dist xi yj)
                       (map (col target) (seq (c * bs) (Nat.min bs (k - c * bs)))))
        (map (col data) (seq 0 n)) = map blk (seq 0 n)).
  { rewrite map_map. apply map_ext. intros p. rewrite map_map.
    unfold blk, z. rewrite block_of_map_seq. reflexivity. }
  rewrite HD.
  assert (Hlen : forall p, length (blk p) = Nat.min bs (k - c * bs)).
  { intros p. unfold blk, z. rewrite block_of_map_seq, length_map, length_seq.
    reflexivity. }
  set (jf := fun p : nat => match first_min (blk p) with Ok j => j | Raise _ => 0%nat end).
  assert (Hjf : forall p, first_min (blk p) = Ok (jf p)).
  { intros p. destruct (first_min_spec (blk p)) as (j & Hj & _).
    - intros E. specialize (Hlen p). rewrite E in Hlen. cbn in Hlen. lia.
    - unfold jf. rewrite Hj. reflexivity. }
  assert (Harg : argmin_rows (map blk (seq 0 n)) = Ok (map jf (seq 0 n))).
  { unfold argmin_rows. rewrite mapM_map. apply mapM_ok. intros p _.
    rewrite np_argmin_first_min. apply Hjf. }
  rewrite Harg. cbn [bind].
  rewrite length_map, length_seq, combine_seq_map, mapM_map.
  rewrite (mapM_ok nat R _ (fun p => nth (jf p) (blk p) 0)).
  2:{ intros p Hp. apply in_seq in Hp. cbn [fst snd]. unfold getitem2.
      rewrite (getitem_in_range vec _ p []) by (rewrite length_map, length_seq; lia).
      cbn [bind]. rewrite nth_map_seq by lia.
      apply getitem_in_range.
      pose proof (first_min_is_first_min _ _ (Hjf p)) as [H _]. exact H. }
  cbn [bind].
  rewrite !combine_map_same, !map_map. cbn [fst snd].
  rewrite !combine_map_same, !map_map. cbn [fst snd].
  assert (Hext : forall p,
    firstn (c * bs) (z p) ++ blk p = firstn (S c * bs) (z p)).
  { intros p. unfold blk. rewrite firstn_extend. f_equal. cbn [Nat.mul]. lia. }
  assert (Hpre : forall p, length (firstn (c * bs) (z p)) = (c * bs)%nat).
  { intros p. rewrite length_firstn. unfold z. rewrite length_map, length_seq. lia. }
  f_equal.
  - apply map_ext. intros p.
    destruct (best_extend (firstn (c * bs) (z p)) (blk p) (jf p) (Hjf p)) as [_ H].
    rewrite Hext in H. rewrite H. reflexivity.
  - apply map_ext. intros p.
    destruct (best_extend (firstn (c * bs) (z p)) (blk p) (jf p) (Hjf p)) as [H _].
    rewrite Hext, Hpre in H. rewrite H.
    replace (S c - 1)%nat with c by lia. reflexivity.
Qed.

Lemma nearest_loop_blocks :
  forall cnt c,
    (c + cnt <= (k + bs - 1) / bs)%nat ->
    nearest_loop data target bs ((k + bs - 1) / bs) (seq (S c) cnt)
      (map (fun p => best_value (firstn (c * bs) (z p))) (seq 0 n))
      (map (fun p => best_index (firstn (c * bs) (z p))) (seq 0 n)) =
    Ok (map (fun p => best_index (firstn ((c + cnt) * bs) (z p))) (seq 0 n)).
Proof.
  induction cnt as [|cnt IH]; intros c Hc.
  - cbn [seq nearest_loop]. rewrite Nat.add_0_r. reflexivity.
  - cbn [seq]. rewrite nearest_loop_step by lia.
    rewrite IH by lia. replace (S c + cnt)%nat with (c + S cnt)%nat by lia.
    reflexivity.
Qed.

(** The route by blocks of target points. *)
Lemma nearest_by_target_blocks :
  forall cv,
    find_cell_proj_closest_vertex data target = Ok cv ->
    _find_nearest_vertex data target bs true = Ok (map Some cv).
Proof.
  intros cv Hcv. rewrite find_cell_proj_closest_vertex_rows in Hcv.
  unfold _find_nearest_vertex.
  assert (E0 : (bs =? 0)%nat = false) by (apply Nat.eqb_neq; lia).
  rewrite E0. cbn [negb].
  rewrite (ncols_rect d n data Hd Hdata), (ncols_rect d k target Hd Htarget).
  assert (Hv : repeat (@None R) n =
               map (fun p => best_value (firstn (0 * bs) (z p))) (seq 0 n)).
  { cbn [Nat.mul firstn]. unfold best_value. cbn.
    rewrite map_const_repeat, length_seq. reflexivity. }
  assert (Hi : repeat (@None nat) n =
               map (fun p => best_index (firstn (0 * bs) (z p))) (seq 0 n)).
  { cbn [Nat.mul firstn]. unfold best_index. cbn.
    rewrite map_const_repeat, length_seq. reflexivity. }
  rewrite Hv, Hi, nearest_loop_blocks by lia.
  f_equal. rewrite <- (best_index_rows z (seq 0 n) cv Hcv).
  apply map_ext. intros p. cbn [Nat.add]. rewrite firstn_all2; [reflexivity|].
  unfold z. rewrite length_map, length_seq. apply blocks_cover. exact Hbs.
Qed.

End NearestVertex.

(** X22: for a block size of at least 1, [_find_nearest_vertex] gives on
    both routes, by blocks of cells and by blocks of target points, the
    indices [find_cell_proj_closest_vertex] gives: the nearest target
    point of every cell, the first one of them when several are as near,
    whatever the block size. *)
Theorem _find_nearest_vertex_blocks_agree :
  forall d n k bs (data_matrix target_points : mat)
         (process_targets_in_blocks : bool),
    (0 < d)%nat -> (0 < n)%nat -> (0 < k)%nat -> (0 < bs)%nat ->
    rect2 d n data_matrix -> rect2 d k target_points ->
    exists cv,
      find_cell_proj_closest_vertex data_matrix target_points = Ok cv /\
      length cv = n /\
      _find_nearest_vertex data_matrix target_points bs process_targets_in_blocks =
        Ok (map Some cv).
Proof.
  intros d n k bs data target b Hd Hn Hk Hbs Hdata Htarget.
  destruct (mapM_exists nat nat (fun _ _ => True)
              (fun p => first_min (map (fun j => dist (col data p) (col target j))
                                       (seq 0 k)))
              (seq 0 n)) as (cv & Hcv & HP).
  { intros p _.
    destruct (first_min_spec (map (fun j => dist (col data p) (col target j)) (seq 0 k)))
      as (c & Hc & _).
    - destruct k; [lia|discriminate].
    - exists c. split; [exact Hc|exact I]. }
  rewrite <- (find_cell_proj_closest_vertex_rows d n k bs data target Hd Hn Hk Hbs Hdata Htarget)
    in Hcv.
  exists cv. split; [exact Hcv|]. split.
  - rewrite (Forall2_length_eq _ _ _ _ _ HP). apply length_seq.
  - destruct b.
    + apply (nearest_by_target_blocks d n k bs data target Hd Hn Hk Hbs Hdata Htarget cv Hcv).
    + apply (nearest_by_data_blocks d n k bs data target Hd Hn Hk Hbs Hdata Htarget cv Hcv).
Qed.

Lemma _find_nearest_vertex_blocks_agree_witness :
  (0 < 1)%nat /\ (0 < 3)%nat /\ (0 < 3)%nat /\ (0 < 2)%nat /\
  rect2 1 3 [[0; 4; 9]] /\ rect2 1 3 [[1; 5; 8]] /\
  exists cv,
    find_cell_proj_closest_vertex [[0; 4; 9]] [[1; 5; 8]] = Ok cv /\
    length cv = 3%nat /\
    _find_nearest_vertex [[0; 4; 9]] [[1; 5; 8]] 2 true = Ok (map Some cv).
Proof.
  assert (H1 : (0 < 1)%nat) by lia.
  assert (H2 : (0 < 3)%nat) by lia.
  assert (H3 : (0 < 2)%nat) by lia.
  assert (H4 : rect2 1 3 [[0; 4; 9]]) by (split; [reflexivity|repeat constructor]).
  assert (H5 : rect2 1 3 [[1; 5; 8]]) by (split; [reflexivity|repeat constructor]).
  split; [exact H1|split; [exact H2|split; [exact H2|split; [exact H3|
    split; [exact H4|split; [exact H5|]]]]]].
  exact (_find_nearest_vertex_blocks_agree 1 3 3 2 [[0; 4; 9]] [[1; 5; 8]] true
           H1 H2 H2 H3 H4 H5).
Defined.

(** ** The projection nearest to a cell ([project2MST]) *)

Lemma euclidean_inv :
  forall u v x, euclidean u v = Ok x -> length u = length v /\ x = dist u v.
Proof.
  intros u v x H. unfold euclidean in H.
  destruct (length u =? length v)%nat eqn:E; [|discriminate].
  apply Nat.eqb_eq in E. injection H as <-. split; [exact E|reflexivity].
Qed.

Lemma mapM_nth :
  forall (A B : Type) (f : A -> result B) (l : list A) (rs : list B) i (da : A) (db : B),
    mapM f l = Ok rs -> (i < length l)%nat -> f (nth i l da) = Ok (nth i rs db).
Proof.
  intros A B f. induction l as [|a l IH]; intros rs i da db H Hi; [cbn in Hi; lia|].
  cbn [mapM] in H. destruct (f a) as [b|e] eqn:E; [|discriminate].
  cbn [bind] in H. destruct (mapM f l) as [r|e] eqn:Er; [|discriminate].
  injection H as <-. destruct i as [|i]; [exact E|].
  cbn [nth]. apply (IH r i da db eq_refl). cbn in Hi. lia.
Qed.

(** The inner loop stacks the projections onto the edges at the closest
    vertex and lists their distances to the cell. *)
Lemma project_loop_spec :
  forall PM tips Z_i Y cv nbrs projection dists out,
    project_loop PM tips Z_i Y cv nbrs projection dists = Ok out ->
    exists qs,
      mapM (edge_projection PM tips Z_i Y cv) nbrs = Ok qs /\
      Forall (fun q => length q = length Z_i) qs /\
      snd out = dists ++ map (dist Z_i) qs /\
      fst out = match projection, qs with
                | None, [] => None
                | None, _ :: _ => Some qs
                | Some rows, _ => Some (rows ++ qs)
                end.
Proof.
  intros PM tips Z_i Y cv. induction nbrs as [|nb rest IH];
    intros projection dists out H.
  - cbn [project_loop] in H. injection H as <-. exists [].
    split; [reflexivity|]. split; [constructor|].
    cbn [fst snd map]. rewrite !app_nil_r.
    split; [reflexivity|destruct projection; rewrite ?app_nil_r; reflexivity].
  - cbn [project_loop] in H. cbn [mapM]. unfold edge_projection at 1.
    destruct (take_columns Y cv nb) as [line|e]; cbn [bind] in H |- *; [|discriminate].
    destruct (if existsb (Nat.eqb cv) tips then proj_point_on_line Z_i line
              else PM Z_i line) as [tmp|e]; cbn [bind] in H |- *; [|discriminate].
    destruct (match projection with
              | Some rows =>
                  if (ncols rows =? length tmp)%nat then Ok (rows ++ [tmp])
                  else Raise ValueError
              | None => Ok [tmp]
              end) as [projection'|e] eqn:Ep; cbn [bind] in H; [|discriminate].
    destruct (euclidean Z_i tmp) as [x|e] eqn:Ex; cbn [bind] in H; [|discriminate].
    destruct (euclidean_inv _ _ _ Ex) as [Hlen ->].
    destruct (IH _ _ _ H) as (qs & Hqs & Hall & Hd & Hp).
    exists (tmp :: qs). rewrite Hqs. cbn [bind].
    split; [reflexivity|]. split; [constructor; [symmetry; exact Hlen|exact Hall]|].
    split.
    + rewrite Hd, <- app_assoc. reflexivity.
    + rewrite Hp. destruct projection as [rows|].
      * destruct (ncols rows =? length tmp)%nat; [|discriminate].
        injection Ep as <-. rewrite <- app_assoc. reflexivity.
      * injection Ep as <-. reflexivity.
Qed.

Lemma getcol_length :
  forall (m : mat) j c, getcol m j = Ok c -> length c = length m.
Proof. intros m j c H. unfold getcol in H. apply mapM_length in H. exact H. Qed.

(** One column of [P]: the projection nearest to the cell, the first one
    of them when several are as near. *)
Lemma project_cell_spec :
  forall PM g tips (Z Y : mat) closest i q,
    project_cell PM g tips Z Y closest i = Ok q ->
    exists cv Z_i qs j,
      getitem closest i = Ok cv /\
      getcol Z i = Ok Z_i /\
      mapM (edge_projection PM tips Z_i Y cv) (neighbors g cv) = Ok qs /\
      first_min (map (dist Z_i) qs) = Ok j /\
      q = nth j qs [] /\
      length q = length Z.
Proof.
  intros PM g tips Z Y closest i q H. unfold project_cell in H.
  destruct (getitem closest i) as [cv|e]; cbn [bind] in H; [|discriminate].
  destruct (negb (cv <? vcount g)%nat); [discriminate|].
  destruct (getcol Z i) as [Z_i|e] eqn:EZ; cbn [bind] in H; [|discriminate].
  destruct (project_loop PM tips Z_i Y cv (neighbors g cv) None [])
    as [[projection dists]|e] eqn:EL; cbn [bind] in H; [|discriminate].
  destruct (project_loop_spec _ _ _ _ _ _ _ _ _ EL) as (qs & Hqs & Hall & Hd & Hp).
  cbn [fst snd app] in Hd, Hp. subst dists.
  destruct (np_min (map (dist Z_i) qs)) as [m|e] eqn:Em; cbn [bind] in H; [|discriminate].
  destruct (getitem (where_eqR (map (dist Z_i) qs) m) 0) as [j|e] eqn:Ej;
    cbn [bind] in H; [|discriminate].
  assert (Hfirst : first_min (map (dist Z_i) qs) = Ok j).
  { unfold first_min. rewrite Em. cbn [bind]. exact Ej. }
  destruct qs as [|q0 qs']; [discriminate|]. subst projection. cbn [bind] in H.
  pose proof (first_min_is_first_min _ _ Hfirst) as [Hj _].
  rewrite length_map in Hj.
  rewrite (getitem_in_range vec (q0 :: qs') j []) in H by exact Hj.
  cbn [bind] in H.
  assert (Hrow : length (nth j (q0 :: qs') []) = length Z).
  { rewrite Forall_forall in Hall. rewrite (Hall (nth j (q0 :: qs') [])).
    - apply (getcol_length Z i). exact EZ.
    - apply nth_In. exact Hj. }
  unfold broadcast_row in H. rewrite Hrow, Nat.eqb_refl in H. injection H as <-.
  exists cv, Z_i, (q0 :: qs'), j.
  repeat split; try reflexivity; assumption.
Qed.

Lemma column_of_columns :
  forall (cols : mat) r i,
    (i < length cols)%nat -> length (nth i cols []) = r ->
    col (map (fun k => map (fun c => nth k c 0) cols) (seq 0 r)) i = nth i cols [].
Proof.
  intros cols r i Hi Hr. unfold col. rewrite map_map. subst r.
  transitivity (map (fun k => (fun x : R => x) (nth k (nth i cols []) 0))
                    (seq 0 (length (nth i cols [])))).
  - apply map_ext. intros k.
    rewrite (nth_indep _ 0 ((fun c : list R => nth k c 0) []))
      by (rewrite length_map; exact Hi).
    rewrite (map_nth (fun c : list R => nth k c 0) cols [] i). reflexivity.
  - rewrite (map_nth_seq R R (fun x => x) (nth i cols []) 0). apply map_id.
Qed.

Lemma find_cell_proj_closest_vertex_length :
  forall (Z Y : mat) closest,
    find_cell_proj_closest_vertex Z Y = Ok closest -> length closest = ncols Z.
Proof.
  intros Z Y closest H. unfold find_cell_proj_closest_vertex in H.
  destruct (cdist (transpose Z) (transpose Y)) as [ds|e] eqn:Ed; cbn [bind] in H;
    [|discriminate].
  unfold cdist in Ed. apply mapM_length in Ed.
  unfold transpose at 1 in Ed. rewrite length_map, length_seq in Ed.
  destruct ds as [|r ds]; [discriminate|].
  apply mapM_length in H. rewrite H. exact Ed.
Qed.

(** X23: the closest vertices returned are those of
    [find_cell_proj_closest_vertex], one for every cell; every cell is
    projected onto an edge of the tree at its closest vertex, and of the
    projections onto these edges it gets one nearest to it. *)
Theorem project2MST_nearest_edge_projection :
  forall minimum_spanning_tree Projection_Method mst (Z Y : mat) proj,
    project2MST minimum_spanning_tree Projection_Method mst Z Y = Ok proj ->
    let graph := Weighted_Adjacency mst in
    let tip_leaves := select_degree_eq graph 1 in
    find_cell_proj_closest_vertex Z Y = Ok (closest_vertex proj) /\
    length (closest_vertex proj) = ncols Z /\
    forall i, (i < ncols Z)%nat ->
      let cv := nth i (closest_vertex proj) 0%nat in
      exists Z_i neighbor,
        getcol Z i = Ok Z_i /\
        In neighbor (neighbors graph cv) /\
        edge_projection Projection_Method tip_leaves Z_i Y cv neighbor
          = Ok (col (P proj) i) /\
        forall neighbor', In neighbor' (neighbors graph cv) ->
          exists q',
            edge_projection Projection_Method tip_leaves Z_i Y cv neighbor' = Ok q' /\
            dist Z_i (col (P proj) i) <= dist Z_i q'.
Proof.
  intros mstf PM mst Z Y proj H graph tips.
  unfold project2MST in H.
  destruct (find_cell_proj_closest_vertex Z Y) as [closest|e] eqn:Ec; cbn [bind] in H;
    [|discriminate].
  fold graph in H. fold tips in H.
  destruct (mapM (project_cell PM graph tips Z Y closest) (seq 0 (length closest)))
    as [cols|e] eqn:Ecols; cbn [bind] in H; [|discriminate].
  destruct (np_min _) as [m|e]; cbn [bind] in H; [|discriminate].
  injection H as <-. cbn [P closest_vertex] in *.
  pose proof (find_cell_proj_closest_vertex_length Z Y closest Ec) as Hcells.
  split; [reflexivity|]. split; [exact Hcells|].
  intros i Hi. set (cv := nth i closest 0%nat). rewrite <- Hcells in Hi.
  pose proof (mapM_length _ _ _ Ecols) as Hlen. rewrite length_seq in Hlen.
  pose proof (mapM_nth nat vec _ _ _ i 0%nat [] Ecols) as Hcell.
  rewrite length_seq, seq_nth in Hcell by exact Hi. specialize (Hcell Hi).
  cbn [Nat.add] in Hcell.
  destruct (project_cell_spec _ _ _ _ _ _ _ _ Hcell)
    as (cv' & Z_i & qs & j & Hcv & HZ & Hqs & Hj & Hq & Hql).
  rewrite (getitem_in_range nat closest i 0%nat Hi) in Hcv. injection Hcv as <-.
  fold cv in Hqs.
  rewrite column_of_columns by (try lia; exact Hql).
  pose proof (mapM_length _ _ _ Hqs) as Hqlen.
  destruct (first_min_is_first_min _ _ Hj) as (Hj1 & Hj2 & _).
  rewrite length_map in Hj1, Hj2.
  exists Z_i, (nth j (neighbors graph cv) 0%nat).
  split; [exact HZ|]. split; [apply nth_In; lia|]. split.
  - rewrite Hq. apply (mapM_nth nat vec _ _ _ j 0%nat [] Hqs). lia.
  - intros nb' Hnb'. apply (In_nth _ _ 0%nat) in Hnb'.
    destruct Hnb' as (t & Ht & <-).
    exists (nth t qs []). split.
    + apply (mapM_nth nat vec _ _ _ t 0%nat [] Hqs). exact Ht.
    + specialize (Hj2 t ltac:(lia)).
      rewrite (nth_indep _ 0 (dist Z_i [])) in Hj2 by (rewrite length_map; lia).
      rewrite (nth_indep (map (dist Z_i) qs) 0 (dist Z_i [])) in Hj2
        by (rewrite length_map; lia).
      rewrite !(map_nth (dist Z_i) qs []) in Hj2. rewrite Hq. exact Hj2.
Qed.

Lemma project2MST_nearest_edge_projection_witness :
  exists proj,
    project2MST (fun _ => mst_pair) project_point_to_line_segment mst_pair
      [[0; 2]] [[0; 2]] = Ok proj /\
    find_cell_proj_closest_vertex [[0; 2]] [[0; 2]] = Ok (closest_vertex proj) /\
    (0 < ncols [[0%R; 2%R]])%nat /\
    exists Z_i neighbor,
      getcol [[0; 2]] 0 = Ok Z_i /\
      In neighbor (neighbors (Weighted_Adjacency mst_pair)
                     (nth 0 (closest_vertex proj) 0%nat)) /\
      edge_projection project_point_to_line_segment
        (select_degree_eq (Weighted_Adjacency mst_pair) 1) Z_i [[0; 2]]
        (nth 0 (closest_vertex proj) 0%nat) neighbor = Ok (col (P proj) 0).
Proof.
  eexists. split; [exact project2MST_two_cells|].
  assert (H : (0 < ncols [[0%R; 2%R]])%nat) by (cbn; lia).
  destruct (project2MST_nearest_edge_projection _ _ _ _ _ _ project2MST_two_cells)
    as (Hfind & _ & Hcell).
  split; [exact Hfind|]. split; [exact H|].
  destruct (Hcell 0%nat H) as (Z_i & neighbor & H1 & H2 & H3 & _).
  exists Z_i, neighbor. split; [exact H1|split; [exact H2|exact H3]].
Defined.

(** ** The parallel Jacobian, the divergence and the transformation by one row *)

Lemma firstn_skipn_tabulate :
  forall (A : Type) (l : list A) (d : A) k s,
    firstn k (skipn s l) =
    map (fun i => nth i l d) (seq s (Nat.min k (length l - s))).
Proof.
  intros A l d k s. revert l s.
  induction k as [|k IH]; intros l s.
  - reflexivity.
  - destruct (skipn s l) as [|a t] eqn:E.
    + assert (length (skipn s l) = 0%nat) by (rewrite E; reflexivity).
      rewrite length_skipn in H. rewrite H. rewrite Nat.min_0_r. reflexivity.
    + assert (Hl : length (skipn s l) = S (length t)) by (rewrite E; reflexivity).
      rewrite length_skipn in Hl.
      replace (Nat.min (S k) (length l - s)) with (S (Nat.min k (length l - S s))) by lia.
      cbn [firstn seq map]. f_equal.
      * rewrite <- (Nat.add_0_r s) at 1. rewrite <- nth_skipn, E. reflexivity.
      * rewrite <- IH. f_equal.
        replace (S s) with (1 + s)%nat by lia.
        rewrite <- skipn_skipn, E. reflexivity.
Qed.

Lemma chunks_concat :
  forall (A : Type) (l : list A) k,
    (0 < k)%nat ->
    concat (map (fun s => firstn k (skipn s l)) (range_step (length l) k)) = l.
Proof.
  intros A l k Hk.
  destruct l as [|a l]; [unfold range_step; cbn;
    rewrite Nat.div_small by lia; reflexivity|].
  set (L := a :: l).
  rewrite (map_ext _ (fun s => map (fun i => nth i L a) (seq s (Nat.min k (length L - s)))))
    by (intros s; apply firstn_skipn_tabulate).
  rewrite <- (map_map (fun s => seq s (Nat.min k (length L - s))) (map (fun i => nth i L a))).
  rewrite <- concat_map, chunks_cover by exact Hk.
  apply tabulate_list.
Qed.

Lemma mapM_firstn :
  forall (A B : Type) (f : A -> result B) k (l : list A) (rs : list B),
    mapM f l = Ok rs -> mapM f (firstn k l) = Ok (firstn k rs).
Proof.
  intros A B f. induction k as [|k IH]; intros l rs H; [reflexivity|].
  destruct l as [|a l]; cbn in H.
  - injection H as <-. reflexivity.
  - destruct (f a) as [b|e] eqn:Ea; [|discriminate].
    destruct (mapM f l) as [bs|e] eqn:El; [|discriminate].
    injection H as <-. cbn. rewrite Ea, (IH l bs El). reflexivity.
Qed.

Lemma mapM_skipn :
  forall (A B : Type) (f : A -> result B) k (l : list A) (rs : list B),
    mapM f l = Ok rs -> mapM f (skipn k l) = Ok (skipn k rs).
Proof.
  intros A B f. induction k as [|k IH]; intros l rs H; [exact H|].
  destruct l as [|a l]; cbn in H.
  - injection H as <-. reflexivity.
  - destruct (f a) as [b|e] eqn:Ea; [|discriminate].
    destruct (mapM f l) as [bs|e] eqn:El; [|discriminate].
    injection H as <-. cbn. apply IH, El.
Qed.

Lemma range_step_lt :
  forall n k s, (0 < k)%nat -> In s (range_step n k) -> (s < n)%nat.
Proof.
  intros n k s Hk H. unfold range_step in H. apply in_map_iff in H.
  destruct H as (c & <- & Hc). apply in_seq in Hc.
  pose proof (Nat.div_mod_eq (n + k - 1) k) as E.
  pose proof (Nat.mod_upper_bound (n + k - 1) k ltac:(lia)) as U.
  assert (k * S c <= k * ((n + k - 1) / k))%nat by (apply Nat.mul_le_mono_l; lia).
  lia.
Qed.

Lemma range_step_nonempty :
  forall n k, (0 < k)%nat -> (0 < n)%nat -> range_step n k <> [].
Proof.
  intros n k Hk Hn. unfold range_step.
  assert (0 < (n + k - 1) / k)%nat by (apply Nat.div_str_pos; lia).
  destruct ((n + k - 1) / k)%nat; [lia|discriminate].
Qed.

Lemma nth_scale :
  forall c (row : vec) b, nth b (map (Rmult c) row) 0 = c * nth b row 0.
Proof.
  intros c. induction row as [|x row IH]; intros [|b]; cbn; try ring; try reflexivity.
  apply IH.
Qed.

Lemma nth_scale_row :
  forall c (m : mat) a,
    nth a (map (map (Rmult c)) m) [] = map (Rmult c) (nth a m []).
Proof.
  intros c m a. change (@nil R) with (map (Rmult c) []) at 1. apply map_nth.
Qed.

Lemma stack_last_scale :
  forall c d1 d2 (ms : list mat),
    map (map (scale c)) (stack_last d1 d2 ms) =
    stack_last d1 d2 (map (map (map (Rmult c))) ms).
Proof.
  intros c d1 d2 ms. unfold stack_last, scale.
  rewrite map_map. apply map_ext. intros a.
  rewrite map_map. apply map_ext. intros b.
  rewrite !map_map. apply map_ext. intros m.
  rewrite nth_scale_row, nth_scale. reflexivity.
Qed.

Lemma rect2_scale :
  forall c d1 d2 (m : mat), rect2 d1 d2 m -> rect2 d1 d2 (map (map (Rmult c)) m).
Proof.
  intros c d1 d2 m [H1 H2]. split; [rewrite length_map; exact H1|].
  apply Forall_forall. intros r Hr. apply in_map_iff in Hr.
  destruct Hr as (r0 & <- & Hr0). rewrite length_map.
  rewrite Forall_forall in H2. apply H2, Hr0.
Qed.

Lemma Forall_firstn_skipn :
  forall (A : Type) (P : A -> Prop) k s (l : list A),
    Forall P l -> Forall P (firstn k (skipn s l)).
Proof.
  intros A P k s l H.
  rewrite <- (firstn_skipn s l) in H. apply Forall_app in H. destruct H as [_ H].
  rewrite <- (firstn_skipn k (skipn s l)) in H. apply Forall_app in H. apply H.
Qed.

(** X13: on a sample that is not empty the parallel Jacobian is the serial
    one, point for point. *)
Theorem Jacobian_rkhs_gaussian_parallel_serial :
  forall cpu_count d (x : mat) (vf : vf_dict) (cores : option Z) (J : ten),
    (0 < d)%nat -> (0 < length x)%nat ->
    Forall (fun r => length r = d) x ->
    (0 < match cores with Some c => c | None => cpu_count end)%Z ->
    Jacobian_rkhs_gaussian (Arr2 x) vf false = Ok (JTen J) ->
    Jacobian_rkhs_gaussian_parallel cpu_count x vf cores = Ok J.
Proof.
  intros cpu_count d x vf cores J Hd Hn Hx Hc Hser.
  set (g := fun dd (xi : vec) => J0 <- jac_point xi vf ;; broadcast_to2 dd dd J0).
  assert (Hcols : forall l : mat, l <> [] -> Forall (fun r => length r = d) l -> ncols l = d).
  { intros [|r l] Hne Hl; [congruence|]. inversion Hl; subst. reflexivity. }
  assert (Hxne : x <> []) by (destruct x; [cbn in Hn; lia|discriminate]).
  (* the serial computation *)
  unfold Jacobian_rkhs_gaussian in Hser. cbn [negb] in Hser.
  rewrite (Hcols x Hxne Hx) in Hser. fold (g d) in Hser.
  destruct (mapM (g d) x) as [Js|e] eqn:EJs; cbn [bind] in Hser; [|discriminate].
  destruct (lookup (beta vf)) as [b|e] eqn:Eb; cbn [bind] in Hser; [|discriminate].
  injection Hser as <-.
  assert (HJs : Forall (rect2 d d) Js).
  { apply (mapM_Forall (rect2 d d) (g d) x Js); [|exact EJs].
    intros a m Hm. unfold g in Hm.
    destruct (jac_point a vf); cbn [bind] in Hm; [|discriminate].
    apply broadcast_to2_shape in Hm. exact Hm. }
  assert (HlJs : length Js = length x) by (apply (mapM_length (g d) x Js EJs)).
  (* the chunks *)
  unfold Jacobian_rkhs_gaussian_parallel.
  set (c := match cores with Some c => c | None => cpu_count end) in *.
  assert (E0 : (c =? 0)%Z = false) by (apply Z.eqb_neq; lia).
  assert (E1 : (c <? 0)%Z = false) by (apply Z.ltb_ge; lia).
  rewrite E0, E1.
  set (k := ((length x + Z.to_nat c - 1) / Z.to_nat c)%nat).
  assert (Hk : (0 < k)%nat) by (unfold k; apply Nat.div_str_pos; lia).
  assert (E2 : (k =? 0)%nat = false) by (apply Nat.eqb_neq; lia).
  rewrite E2, mapM_map.
  set (scm := map (map (Rmult (-2 * b)))).
  rewrite (mapM_ok _ _ _
    (fun s => stack_last d d (map scm (firstn k (skipn s Js))))).
  2:{ intros s Hs. apply range_step_lt in Hs; [|exact Hk].
      unfold Jacobian_rkhs_gaussian. cbn [negb].
      assert (Hch : firstn k (skipn s x) <> []).
      { intros E. apply (f_equal (@length vec)) in E.
        rewrite length_firstn, length_skipn in E. cbn in E. lia. }
      rewrite (Hcols _ Hch (Forall_firstn_skipn _ _ k s x Hx)). fold (g d).
      rewrite (mapM_firstn _ _ _ k _ _ (mapM_skipn _ _ _ s _ _ EJs)).
      cbn [bind]. rewrite Eb. cbn [bind]. rewrite stack_last_scale. reflexivity. }
  cbn [bind]. rewrite map_map.
  assert (Hchunks : map (fun s => transpose_201
                           (stack_last d d (map scm (firstn k (skipn s Js)))))
                        (range_step (length x) k) =
                    map (fun s => map scm (firstn k (skipn s Js)))
                        (range_step (length x) k)).
  { apply map_ext. intros s. apply transpose_201_stack_last; [exact Hd|exact Hd|].
    apply Forall_forall. intros m Hm. apply in_map_iff in Hm.
    destruct Hm as (m0 & <- & Hm0). apply rect2_scale.
    pose proof (Forall_firstn_skipn _ (rect2 d d) k s Js HJs) as HF.
    rewrite Forall_forall in HF. apply HF, Hm0. }
  rewrite Hchunks.
  unfold vstack.
  destruct (map (fun s => map scm (firstn k (skipn s Js))) (range_step (length x) k))
    as [|t ts] eqn:El.
  { apply map_eq_nil in El. apply range_step_nonempty in El; [contradiction|exact Hk|exact Hn]. }
  rewrite <- El. cbn [bind].
  rewrite <- (map_map (fun s => firstn k (skipn s Js)) (map scm)).
  rewrite <- concat_map, <- HlJs, chunks_concat by exact Hk.
  f_equal. rewrite stack_last_scale. fold scm.
  apply transpose_120_stack; [exact Hd| |].
  - intros E. apply map_eq_nil in E. rewrite E in HlJs. cbn in HlJs. lia.
  - apply Forall_forall. intros m Hm. apply in_map_iff in Hm.
    destruct Hm as (m0 & <- & Hm0). apply rect2_scale.
    rewrite Forall_forall in HJs. apply HJs, Hm0.
Qed.

Lemma Jacobian_rkhs_gaussian_parallel_serial_witness :
  let vf := {| X_ctrl := Some [[0]; [1]]; beta := Some 1;
               C := Some [[1]; [1]]; sigma := None; eta := None;
               div_cur_free_kernels := None |} in
  let x := [[0]; [1]; [2]] in
  let J := jacobian_closed_form 1 x [[0]; [1]] [[1]; [1]] 1 in
  (0 < 1)%nat /\ (0 < length x)%nat /\
  Forall (fun r => length r = 1%nat) x /\
  (0 < 2)%Z /\
  Jacobian_rkhs_gaussian (Arr2 x) vf false = Ok (JTen J) /\
  Jacobian_rkhs_gaussian_parallel 8%Z x vf (Some 2%Z) = Ok J.
Proof.
  intros vf x J.
  assert (Hx : Forall (fun r : list R => length r = 1%nat) x) by (repeat constructor).
  assert (Hxc : Forall (fun r : list R => length r = 1%nat) [[0]; [1]])
    by (repeat constructor).
  assert (Hc : Forall (fun r : list R => length r = 1%nat) [[1]; [1]])
    by (repeat constructor).
  assert (Hn : (0 < length x)%nat) by (cbn; lia).
  assert (H2 : (0 < 2)%Z) by lia.
  assert (Hser : Jacobian_rkhs_gaussian (Arr2 x) vf false = Ok (JTen J)).
  { apply (Jacobian_loop_closed_form 1 x [[0]; [1]] [[1]; [1]] 1 vf
             eq_refl eq_refl eq_refl Nat.lt_0_1 Hn (le_n 2) eq_refl Hx Hxc Hc). }
  split; [exact Nat.lt_0_1|]. split; [exact Hn|]. split; [exact Hx|].
  split; [exact H2|]. split; [exact Hser|].
  exact (Jacobian_rkhs_gaussian_parallel_serial 8%Z 1 x vf (Some 2%Z) J
           Nat.lt_0_1 Hn Hx H2 Hser).
Defined.

(** X14: on an empty sample the parallel Jacobian raises where the serial
    one returns the empty array. *)
Theorem Jacobian_rkhs_gaussian_parallel_empty :
  forall cpu_count (vf : vf_dict) (cores : option Z) b,
    beta vf = Some b ->
    match cores with Some c => c | None => cpu_count end <> 0%Z ->
    Jacobian_rkhs_gaussian_parallel cpu_count [] vf cores = Raise ValueError /\
    Jacobian_rkhs_gaussian (Arr2 []) vf false = Ok (JTen []).
Proof.
  intros cpu_count vf cores b Hb Hc. split.
  - unfold Jacobian_rkhs_gaussian_parallel.
    set (c := match cores with Some c => c | None => cpu_count end) in *.
    destruct (c =? 0)%Z eqn:E0; [apply Z.eqb_eq in E0; contradiction|].
    destruct (c <? 0)%Z eqn:E1; [reflexivity|].
    apply Z.ltb_ge in E1.
    assert (E : ((length (@nil vec) + Z.to_nat c - 1) / Z.to_nat c)%nat = 0%nat).
    { cbn [length]. apply Nat.div_small. lia. }
    rewrite E. reflexivity.
  - unfold Jacobian_rkhs_gaussian. cbn. rewrite Hb. reflexivity.
Qed.

Lemma Jacobian_rkhs_gaussian_parallel_empty_witness :
  beta vf_one_ctrl = Some 1 /\ 2%Z <> 0%Z /\
  Jacobian_rkhs_gaussian_parallel 8%Z [] vf_one_ctrl (Some 2%Z) = Raise ValueError.
Proof.
  assert (H1 : beta vf_one_ctrl = Some 1) by reflexivity.
  assert (H2 : 2%Z <> 0%Z) by lia.
  split; [exact H1|split; [exact H2|]].
  exact (proj1 (Jacobian_rkhs_gaussian_parallel_empty 8%Z vf_one_ctrl (Some 2%Z) 1 H1 H2)).
Defined.

(* ----- compute_divergence ----- *)

Lemma trace3_stack_last :
  forall d (ms : list mat),
    (0 < d)%nat ->
    trace3 (stack_last d d ms) = map (trace d) ms.
Proof.
  intros d ms Hd. unfold trace3.
  assert (H1 : length (stack_last d d ms) = d)
    by (unfold stack_last; rewrite length_map, length_seq; reflexivity).
  assert (H2 : length (hd [] (stack_last d d ms)) = d).
  { unfold stack_last. destruct d; [lia|]. cbn [seq map hd length].
    rewrite length_map, length_seq. reflexivity. }
  assert (H3 : length (hd [] (hd [] (stack_last d d ms))) = length ms).
  { unfold stack_last. destruct d; [lia|]. cbn [seq map hd]. apply length_map. }
  rewrite H1, H2, H3, Nat.min_id.
  etransitivity; [|apply (map_nth_seq mat R (trace d) ms [])].
  apply map_ext_in. intros p Hp. apply in_seq in Hp. unfold trace.
  apply sum_ext. intros i Hi. apply in_seq in Hi.
  unfold stack_last. unfold ten, mat, vec in *.
  rewrite (nth_map_seq _ (fun a => map (fun b => map (fun m => nth b (nth a m []) 0) ms)
                                       (seq 0 d)) d i []) by lia.
  rewrite (nth_map_seq _ (fun b => map (fun m => nth b (nth i m []) 0) ms) d i []) by lia.
  rewrite (nth_map_default (list (list R)) R (fun m => nth i (nth i m []) 0) ms p [] 0) by lia.
  reflexivity.
Qed.

Lemma skipn_repeat0 :
  forall (A : Type) (a : A) n k, skipn k (repeat a n) = repeat a (n - k).
Proof.
  intros A a n. induction n as [|n IH]; intros [|k]; cbn; try reflexivity. apply IH.
Qed.

Lemma firstn_add_skipn :
  forall (A : Type) (l : list A) i k,
    firstn (i + k) l = firstn i l ++ firstn k (skipn i l).
Proof.
  intros A l i. revert l. induction i as [|i IH]; intros l k; [reflexivity|].
  destruct l as [|a l]; [cbn; rewrite firstn_nil; reflexivity|].
  cbn. rewrite IH. reflexivity.
Qed.

Section Divergence.

Variables (d : nat) (jp : vec -> mat) (f_jac : mat -> result ten) (X : mat) (k : nat).
Hypothesis Hd : (0 < d)%nat.
Hypothesis Hk : (0 < k)%nat.
Hypothesis Hf : forall batch, batch <> [] ->
                  f_jac batch = Ok (stack_last d d (map jp batch)).

Lemma div_after_length : forall c, length (div_after d jp X k c) = length X.
Proof.
  intros c. unfold div_after, zeros.
  rewrite length_app, length_map, length_firstn, repeat_length. lia.
Qed.

Lemma divergence_loop_batches :
  forall cnt c0,
    (cnt = 0 \/ (c0 + cnt - 1) * k < length X)%nat ->
    divergence_loop f_jac X k (map (fun c => (c * k)%nat) (seq c0 cnt)) (div_after d jp X k c0)
    = Ok (div_after d jp X k (c0 + cnt)).
Proof.
  induction cnt as [|cnt IH]; intros c0 H.
  - cbn. rewrite Nat.add_0_r. reflexivity.
  - destruct H as [H|H]; [discriminate|].
    assert (Hi : (c0 * k < length X)%nat).
    { assert (c0 * k <= (c0 + S cnt - 1) * k)%nat by (apply Nat.mul_le_mono_r; lia). lia. }
    cbn [seq map divergence_loop].
    assert (Hne : firstn k (skipn (c0 * k) X) <> []).
    { intros E. apply (f_equal (@length vec)) in E.
      rewrite length_firstn, length_skipn in E. cbn in E. lia. }
    rewrite (Hf _ Hne). cbn [bind].
    rewrite trace3_stack_last by exact Hd.
    rewrite div_after_length.
    assert (Hlen : length (map (trace d) (map jp (firstn k (skipn (c0 * k) X))))
                   = Nat.min k (length X - c0 * k)).
    { rewrite !length_map, length_firstn, length_skipn. reflexivity. }
    unfold broadcast_row. rewrite Hlen, Nat.eqb_refl. cbn [bind].
    replace (firstn (c0 * k) (div_after d jp X k c0) ++
             map (trace d) (map jp (firstn k (skipn (c0 * k) X))) ++
             skipn (c0 * k + k) (div_after d jp X k c0))
      with (div_after d jp X k (S c0)).
    + replace (c0 + S cnt)%nat with (S c0 + cnt)%nat by lia.
      apply IH. destruct cnt; [left; reflexivity|right].
      replace (S c0 + S cnt - 1)%nat with (c0 + S (S cnt) - 1)%nat by lia. exact H.
    + unfold div_after.
      assert (L1 : length (map (fun x => trace d (jp x)) (firstn (c0 * k) X)) = (c0 * k)%nat).
      { rewrite length_map, length_firstn. lia. }
      rewrite firstn_app, L1, Nat.sub_diag, firstn_0, app_nil_r.
      rewrite (firstn_all2 (map (fun x => trace d (jp x)) (firstn (c0 * k) X)))
        by (rewrite L1; lia).
      rewrite skipn_app, L1.
      rewrite (skipn_all2 (map (fun x => trace d (jp x)) (firstn (c0 * k) X))) by (rewrite L1; lia).
      cbn [app].
      replace (c0 * k + k - c0 * k)%nat with k by lia.
      replace (S c0 * k)%nat with (c0 * k + k)%nat by lia.
      rewrite firstn_add_skipn, map_app, <- app_assoc, map_map.
      f_equal. f_equal.
      unfold zeros. rewrite skipn_repeat0. f_equal. lia.
Qed.

End Divergence.

(** X15: with a Jacobian function that works point by point,
    [compute_divergence] returns the trace of the Jacobian of every point,
    whatever the size of the batches. *)
Theorem compute_divergence_traces :
  forall d (jp : vec -> mat) f_jac (X : mat) (vectorize_size : option Z),
    (0 < d)%nat ->
    (forall batch, batch <> [] -> f_jac batch = Ok (stack_last d d (map jp batch))) ->
    (0 < match vectorize_size with Some v => v | None => Z.of_nat (length X) end)%Z ->
    compute_divergence f_jac X vectorize_size = Ok (map (fun x => trace d (jp x)) X).
Proof.
  intros d jp f_jac X vs Hd Hf Hv. unfold compute_divergence.
  set (v := match vs with Some v => v | None => Z.of_nat (length X) end) in *.
  assert (E0 : (v =? 0)%Z = false) by (apply Z.eqb_neq; lia).
  assert (E1 : (v <? 0)%Z = false) by (apply Z.ltb_ge; lia).
  rewrite E0, E1.
  set (k := Z.to_nat v). assert (Hk : (0 < k)%nat) by (unfold k; lia).
  unfold range_step. set (cnt := ((length X + k - 1) / k)%nat).
  assert (Hcnt : (cnt * k <= length X + k - 1 < cnt * k + k)%nat).
  { unfold cnt. pose proof (Nat.div_mod_eq (length X + k - 1) k) as E.
    pose proof (Nat.mod_upper_bound (length X + k - 1) k ltac:(lia)) as U.
    rewrite (Nat.mul_comm k) in E. lia. }
  assert (Hstart : zeros (length X) = div_after d jp X k 0).
  { unfold div_after. cbn [Nat.mul firstn map app]. rewrite Nat.sub_0_r. reflexivity. }
  rewrite Hstart, (divergence_loop_batches d jp f_jac X k Hd Hk Hf cnt 0).
  - f_equal. unfold div_after. cbn [Nat.add].
    rewrite firstn_all2 by lia.
    replace (length X - cnt * k)%nat with 0%nat by lia.
    cbn. apply app_nil_r.
  - destruct cnt as [|cnt']; [left; reflexivity|right].
    cbn [Nat.add]. replace (S cnt' - 1)%nat with cnt' by lia.
    cbn [Nat.mul] in Hcnt. lia.
Qed.

Lemma compute_divergence_traces_witness :
  let jp := fun x : vec => [[nth 0 x 0; 0]; [0; nth 1 x 0]] in
  let f_jac := fun batch : mat => Ok (stack_last 2 2 (map jp batch)) in
  let X := [[1; 2]; [3; 4]; [5; 6]] in
  (0 < 2)%nat /\
  (forall batch, batch <> [] -> f_jac batch = Ok (stack_last 2 2 (map jp batch))) /\
  (0 < 2)%Z /\
  compute_divergence f_jac X (Some 2%Z) = Ok (map (fun x => trace 2 (jp x)) X).
Proof.
  intros jp f_jac X.
  assert (H1 : (0 < 2)%nat) by lia.
  assert (H2 : forall batch : mat, batch <> [] ->
                 f_jac batch = Ok (stack_last 2 2 (map jp batch)))
    by (intros batch _; reflexivity).
  assert (H3 : (0 < 2)%Z) by lia.
  split; [exact H1|split; [exact H2|split; [exact H3|]]].
  exact (compute_divergence_traces 2 jp f_jac X (Some 2%Z) H1 H2 H3).
Defined.

(** X16: a batch size of zero is refused, a negative one leaves the
    divergence at zero without a Jacobian being computed, and no batch size
    on an empty sample is refused as well. *)
Theorem compute_divergence_degenerate_sizes :
  forall f_jac (X : mat),
    compute_divergence f_jac X (Some 0%Z) = Raise ValueError /\
    (forall v, (v < 0)%Z -> compute_divergence f_jac X (Some v) = Ok (zeros (length X))) /\
    compute_divergence f_jac [] None = Raise ValueError.
Proof.
  intros f_jac X. split; [reflexivity|]. split; [|reflexivity].
  intros v Hv. unfold compute_divergence.
  assert (E0 : (v =? 0)%Z = false) by (apply Z.eqb_neq; lia).
  assert (E1 : (v <? 0)%Z = true) by (apply Z.ltb_lt; lia).
  rewrite E0, E1. reflexivity.
Qed.

(* ----- elementwise_jacobian_transformation ----- *)

Lemma slice_last_rect3 :
  forall a b n (Js : ten) i,
    rect3 a b n Js -> (i < n)%nat ->
    slice_last Js i = Ok (map (map (fun line => nth i line 0)) Js) /\
    rect2 a b (map (map (fun line => nth i line 0)) Js).
Proof.
  intros a b n Js i [Hl HJ] Hi. split.
  - unfold slice_last. apply mapM_ok. intros plane Hp.
    apply mapM_ok. intros line Hline.
    rewrite Forall_forall in HJ. destruct (HJ plane Hp) as [_ Hlines].
    rewrite Forall_forall in Hlines. specialize (Hlines line Hline).
    unfold getitem.
    destruct (nth_error line i) as [v|] eqn:E.
    + rewrite (nth_error_nth _ _ 0 E). reflexivity.
    + apply nth_error_None in E. lia.
  - split; [rewrite length_map; exact Hl|].
    apply Forall_forall. intros r Hr. apply in_map_iff in Hr.
    destruct Hr as (plane & <- & Hp). rewrite length_map.
    rewrite Forall_forall in HJ. apply (HJ plane Hp).
Qed.

(** X19: the transformation by one row of loadings on each side is the one
    entry of the transformation by loading matrices with these rows. *)
Theorem elementwise_jacobian_transformation_is_subset :
  forall cpu_count fjac (X : mat) (qi qj : vec) (Js : ten) d,
    fjac X = Ok Js -> rect3 d d (length X) Js ->
    (0 < d)%nat -> (0 < length X)%nat ->
    length qi = d -> length qj = d ->
    exists r,
      elementwise_jacobian_transformation fjac X qi qj = Ok r /\
      length r = length X /\
      subset_jacobian_transformation cpu_count fjac (Arr2 X) (Arr1 qi) (Arr1 qj)
        (Some 1%Z) = Ok [[r]].
Proof.
  intros cpu_count fjac X qi qj Js d Hf HJ Hd Hn Hqi Hqj.
  set (val := fun i =>
        dot (map (fun c => dot qi c)
                 (transpose (map (map (fun line => nth i line 0)) Js))) qj).
  exists (map val (seq 0 (length X))).
  assert (Hpt : forall i, (i < length X)%nat ->
    (J <- slice_last Js i ;; qJ <- vecmat qi J ;; np_dot qJ qj) = Ok (val i) /\
    (J <- slice_last Js i ;; QiJ <- matmul [qi] J ;;
     r <- matmul QiJ (transpose [qj]) ;; broadcast_to2 1 1 r) = Ok [[val i]]).
  { intros i Hi.
    destruct (slice_last_rect3 d d (length X) Js i HJ Hi) as [HS HR].
    rewrite HS. cbn [bind].
    set (J := map (map (fun line => nth i line 0)) Js) in *.
    pose proof (transpose_rect d d J Hd HR) as HT.
    assert (HlJ : length J = d) by apply HR.
    assert (HlT : length (transpose J) = d) by apply HT.
    assert (Hq : rect2 1 d [qj]) by (split; [reflexivity|repeat constructor; exact Hqj]).
    assert (Htt : transpose (transpose [qj]) = [qj])
      by (apply (transpose_involutive 1 d); [lia|exact Hd|exact Hq]).
    assert (Hlt : length (transpose [qj]) = d).
    { pose proof (transpose_rect 1 d [qj] ltac:(lia) Hq) as [H _]. exact H. }
    split.
    - unfold vecmat. unfold ten, mat, vec in *.
      rewrite Hqi, HlJ, Nat.eqb_refl. cbn [bind].
      unfold np_dot. unfold ten, mat, vec in *.
      rewrite length_map, HlT, Hqj, Nat.eqb_refl. reflexivity.
    - unfold matmul at 1. unfold ncols at 1. cbn [hd]. unfold ten, mat, vec in *.
      rewrite Hqi, HlJ, Nat.eqb_refl. cbn [bind map].
      unfold matmul. unfold ncols at 1. cbn [hd]. unfold ten, mat, vec in *.
      rewrite length_map, HlT, Hlt, Nat.eqb_refl. cbn [bind].
      rewrite Htt. cbn [map]. reflexivity. }
  split; [|split].
  - unfold elementwise_jacobian_transformation. rewrite Hf. cbn [bind].
    apply mapM_ok. intros i Hi. apply in_seq in Hi. apply Hpt. lia.
  - rewrite length_map, length_seq. reflexivity.
  - unfold subset_jacobian_transformation. cbn [atleast_2d]. rewrite Hf. cbn [bind].
    unfold transform_jacobian. cbn [length].
    rewrite (rect3_points d d (length X) Js Hd Hd HJ).
    rewrite (mapM_ok _ _ _ (fun i => [[val i]])).
    2:{ intros i Hi. apply in_seq in Hi. apply Hpt. lia. }
    cbn [bind]. unfold stack_last. cbn [seq map]. rewrite map_map. reflexivity.
Qed.

Lemma elementwise_jacobian_transformation_is_subset_witness :
  let fjac := fun _ : mat => Ok [[[1; 1; 1]; [2; 2; 2]]; [[3; 3; 3]; [4; 4; 4]]] in
  let X := [[0; 0]; [1; 0]; [0; 1]] in
  fjac X = Ok [[[1; 1; 1]; [2; 2; 2]]; [[3; 3; 3]; [4; 4; 4]]] /\
  rect3 2 2 (length X) [[[1; 1; 1]; [2; 2; 2]]; [[3; 3; 3]; [4; 4; 4]]] /\
  exists r,
    elementwise_jacobian_transformation fjac X [1; 0] [0; 1] = Ok r /\
    subset_jacobian_transformation 4%Z fjac (Arr2 X) (Arr1 [1; 0]) (Arr1 [0; 1])
      (Some 1%Z) = Ok [[r]].
Proof.
  intros fjac X.
  assert (H1 : fjac X = Ok [[[1; 1; 1]; [2; 2; 2]]; [[3; 3; 3]; [4; 4; 4]]])
    by reflexivity.
  assert (H2 : rect3 2 2 (length X) [[[1; 1; 1]; [2; 2; 2]]; [[3; 3; 3]; [4; 4; 4]]]).
  { split; [reflexivity|]. repeat constructor. }
  split; [exact H1|split; [exact H2|]].
  destruct (elementwise_jacobian_transformation_is_subset 4%Z fjac X [1; 0] [0; 1]
              _ 2%nat H1 H2 ltac:(lia) ltac:(cbn; lia) eq_refl eq_refl)
    as (r & Hr & _ & Hs).
  exists r. split; [exact Hr|exact Hs].
Defined.

(** ** Acceleration ([compute_acceleration]) *)

Lemma concat_singletons : forall (r : vec), concat (map (fun x => [x]) r) = r.
Proof. induction r as [|x r IH]; [reflexivity|]. cbn. rewrite IH. reflexivity. Qed.

(** X17: for a sample of [n] points of dimension [d], velocities [V] of its
    shape and Jacobians [Js] of shape [d] x [d] x [n],
    [compute_acceleration] returns for every point the product of its
    Jacobian with its velocity. *)
Theorem compute_acceleration_matvec :
  forall (vf : mat -> result mat) (f_jac : mat -> result ten)
         d (X V : mat) (Js : ten),
    (0 < d)%nat -> (0 < length X)%nat ->
    Forall (fun r => length r = d) X ->
    vf X = Ok V -> rect2 (length X) d V ->
    f_jac X = Ok Js -> rect3 d d (length X) Js ->
    compute_acceleration vf f_jac X =
    Ok (V, Js,
        map (fun i => map (fun row => dot row (nth i V []))
                          (map (map (fun line => nth i line 0)) Js))
            (seq 0 (length X))).
Proof.
  intros vf f_jac d X V Js Hd Hn HX HV HVr HJ HJr.
  unfold compute_acceleration. rewrite HV, HJ. cbn [bind].
  assert (Hcols : ncols X = d).
  { destruct X as [|r X']; [cbn in Hn; lia|]. inversion HX; subst. reflexivity. }
  rewrite (mapM_ok _ _ _
    (fun i => map (fun row => dot row (nth i V []))
                  (map (map (fun line => nth i line 0)) Js))).
  - reflexivity.
  - intros i Hi. apply in_seq in Hi.
    destruct HVr as [HVl HVrows].
    rewrite (getitem_in_range vec V i []) by lia. cbn [bind].
    destruct (slice_last_rect3 d d (length X) Js i HJr ltac:(lia)) as [HS [HRl HRr]].
    rewrite HS. cbn [bind].
    assert (Hvi : length (nth i V []) = d).
    { rewrite Forall_forall in HVrows. apply HVrows, nth_In. lia. }
    unfold acceleration_, matvec.
    rewrite (mapM_ok _ _ _ (fun row => dot row (nth i V []))).
    + cbn [bind]. rewrite concat_singletons. unfold broadcast_row.
      rewrite length_map, HRl, Hcols, Nat.eqb_refl. reflexivity.
    + intros row Hrow. unfold np_dot.
      rewrite Forall_forall in HRr. rewrite (HRr row Hrow), Hvi, Nat.eqb_refl.
      reflexivity.
Qed.

(** ** The vector field and the speed of the cells *)

Lemma gaussian_kernel_rows :
  forall x xc b,
    gaussian_kernel x xc b =
    map (fun xi => map (fun yq => exp (- b * sumsq (zipwith Rminus xi yq))) xc) x.
Proof. reflexivity. Qed.

Section GaussianField.

Variable cdcf : mat -> mat -> R -> R -> result (mat * mat * mat).
Variables (d : nat) (xc c : mat) (b : R) (vf : vf_dict) (kernel : string).
Hypothesis Hk : div_cur_free_kernels vf = None.
Hypothesis HX : X_ctrl vf = Some xc.
Hypothesis Hb : beta vf = Some b.
Hypothesis HC : C vf = Some c.
Hypothesis Hlen : length c = length xc.
Hypothesis Hxc : Forall (fun r => length r = d) xc.

(** One point, as a 1-D array or as a 1 x [d] matrix. *)
Lemma vector_field_function_point :
  forall (xa : ndarray) (v : vec),
    as_points xa = Ok [v] -> length v = d ->
    vector_field_function cdcf xa vf None kernel = Ok (Arr1 (velocity xc c b v)).
Proof.
  intros xa v Hxa Hv. unfold vector_field_function.
  rewrite Hk, HX, Hb, HC. cbn [lookup bind]. rewrite Hxa. cbn [bind].
  assert (Hpts : Forall (fun r : list R => length r = d) [v])
    by (constructor; [exact Hv|constructor]).
  destruct (con_K_gaussian_kernel d [v] xc b "cdist" Hpts Hxc) as (HK & _).
  cbv zeta in HK. rewrite HK. cbn [bind length Nat.eqb].
  rewrite gaussian_kernel_rows. cbn [map concat]. rewrite app_nil_r.
  unfold dot_mat. rewrite length_map, Hlen, Nat.eqb_refl. reflexivity.
Qed.

(** Two points or more. *)
Lemma vector_field_function_points :
  forall x : mat,
    Forall (fun r => length r = d) x -> (2 <= length x)%nat ->
    vector_field_function cdcf (Arr2 x) vf None kernel
    = Ok (Arr2 (map (velocity xc c b) x)).
Proof.
  intros x Hx Hn. unfold vector_field_function.
  rewrite Hk, HX, Hb, HC. cbn [lookup bind as_points].
  destruct (con_K_gaussian_kernel d x xc b "cdist" Hx Hxc) as (HK & _).
  cbv zeta in HK. rewrite HK. cbn [bind].
  destruct (length x =? 1)%nat eqn:E1; [apply Nat.eqb_eq in E1; lia|].
  unfold dot_mat, matmul.
  assert (Hcols : ncols (gaussian_kernel x xc b) = length c).
  { rewrite gaussian_kernel_rows. destruct x as [|x0 x']; [cbn in Hn; lia|].
    unfold ncols. cbn [map hd]. rewrite length_map. symmetry. exact Hlen. }
  rewrite Hcols, Nat.eqb_refl. cbn [bind]. f_equal. f_equal.
  rewrite gaussian_kernel_rows, map_map. reflexivity.
Qed.

End GaussianField.

(** X10: without divergence- and curl-free kernels the vector field is the
    Gaussian kernel applied to the coefficients; for a single point, given
    as a 1-D array or as a 1 x [d] matrix, the result is a 1-D array. *)
Theorem vector_field_function_gaussian :
  forall cdcf d (x xc c : mat) (b : R) (vf : vf_dict) (kernel : string),
    div_cur_free_kernels vf = None ->
    X_ctrl vf = Some xc -> beta vf = Some b -> C vf = Some c ->
    (0 < length xc)%nat -> length c = length xc ->
    Forall (fun r => length r = d) x ->
    Forall (fun r => length r = d) xc ->
    (forall v, length v = d ->
       vector_field_function cdcf (Arr1 v) vf None kernel
       = Ok (Arr1 (velocity xc c b v)) /\
       vector_field_function cdcf (Arr2 [v]) vf None kernel
       = Ok (Arr1 (velocity xc c b v))) /\
    ((2 <= length x)%nat ->
     vector_field_function cdcf (Arr2 x) vf None kernel
     = Ok (Arr2 (map (velocity xc c b) x))).
Proof.
  intros cdcf d x xc c b vf kernel Hk HX Hb HC _ Hlen Hx Hxc.
  split.
  - intros v Hv. split.
    + apply (vector_field_function_point cdcf d xc c b vf kernel Hk HX Hb HC Hlen Hxc
               (Arr1 v) v eq_refl Hv).
    + apply (vector_field_function_point cdcf d xc c b vf kernel Hk HX Hb HC Hlen Hxc
               (Arr2 [v]) v eq_refl Hv).
  - intros Hn.
    apply (vector_field_function_points cdcf d xc c b vf kernel Hk HX Hb HC Hlen Hxc
             x Hx Hn).
Qed.

Lemma vector_field_function_gaussian_witness :
  let vf := {| X_ctrl := Some [[0]; [1]]; beta := Some 1;
               C := Some [[1]; [1]]; sigma := None; eta := None;
               div_cur_free_kernels := None |} in
  div_cur_free_kernels vf = None /\
  (0 < length [[0]; [1]])%nat /\
  Forall (fun r => length r = 1%nat) [[0]; [2]] /\
  Forall (fun r => length r = 1%nat) [[0]; [1]] /\
  (2 <= length [[0]; [2]])%nat /\
  vector_field_function (fun _ _ _ _ => Raise Exception_) (Arr2 [[0]; [2]]) vf None "full"
  = Ok (Arr2 (map (velocity [[0]; [1]] [[1]; [1]] 1) [[0]; [2]])).
Proof.
  intros vf.
  assert (H1 : div_cur_free_kernels vf = None) by reflexivity.
  assert (H2 : (0 < length [[0]; [1]])%nat) by (cbn; lia).
  assert (H3 : Forall (fun r : list R => length r = 1%nat) [[0]; [2]])
    by (repeat constructor).
  assert (H4 : Forall (fun r : list R => length r = 1%nat) [[0]; [1]])
    by (repeat constructor).
  assert (H5 : (2 <= length [[0]; [2]])%nat) by (cbn; lia).
  split; [exact H1|]. split; [exact H2|]. split; [exact H3|].
  split; [exact H4|]. split; [exact H5|].
  exact (proj2 (vector_field_function_gaussian (fun _ _ _ _ => Raise Exception_)
                  1 [[0]; [2]] [[0]; [1]] [[1]; [1]] 1 vf "full"
                  H1 eq_refl eq_refl eq_refl H2 eq_refl H3 H4) H5).
Defined.

(** X20: [speed] cannot be called with [basis=None]; the key ['speed'] of its
    last lines is never written. *)
Theorem speed_basis_None :
  forall cdcf (adata : AnnData) (VecFld : option vf_dict) (method vf_key : string),
    speed cdcf adata None VecFld method = Raise TypeError /\
    vecfld_from_adata adata None vf_key = Raise TypeError.
Proof.
  intros cdcf adata VecFld method vf_key. split; [|reflexivity].
  unfold speed. destruct VecFld as [v|]; reflexivity.
Qed.






(** ** One component of the vector field ([dim]) *)

Lemma getcol_in_range :
  forall w (c : mat) j,
    Forall (fun r => length r = w) c -> (j < w)%nat -> getcol c j = Ok (col c j).
Proof.
  intros w c j Hc Hj. unfold getcol, col. apply mapM_ok. intros r Hr.
  rewrite Forall_forall in Hc. apply getitem_in_range. rewrite (Hc r Hr). exact Hj.
Qed.

Lemma getcol_out_of_range :
  forall w (c : mat) j,
    Forall (fun r => length r = w) c -> c <> [] -> (w <= j)%nat ->
    getcol c j = Raise IndexError.
Proof.
  intros w [|r c] j Hc Hne Hj; [contradiction|].
  unfold getcol. cbn [mapM]. unfold getitem.
  assert (E : nth_error r j = None).
  { apply nth_error_None. rewrite (Forall_inv Hc). exact Hj. }
  rewrite E. reflexivity.
Qed.

Lemma velocity_component :
  forall w (xc c : mat) b xi j,
    Forall (fun r => length r = w) c -> c <> [] -> (j < w)%nat ->
    nth j (velocity xc c b xi) 0 =
    dot (map (fun yq => exp (- b * sumsq (zipwith Rminus xi yq))) xc) (col c j).
Proof.
  intros w xc c b xi j Hc Hne Hj. unfold velocity, transpose.
  assert (Hw : ncols c = w).
  { destruct c as [|r c]; [contradiction|]. unfold ncols. cbn [hd].
    apply (Forall_inv Hc). }
  rewrite Hw, map_map.
  apply (nth_map_seq R (fun t =>
           dot (map (fun yq => exp (- b * sumsq (zipwith Rminus xi yq))) xc) (col c t))
           w j 0 Hj).
Qed.

(** X24: with [dim] an index of a component, the Gaussian model returns
    that component of the velocity alone: a number for one point, a 1-D
    array for two points or more; an index past the last component is an
    [IndexError]. *)
Theorem vector_field_function_dim :
  forall cdcf d w (x xc c : mat) (b : R) (vf : vf_dict) (kernel : string) (j : nat),
    div_cur_free_kernels vf = None ->
    X_ctrl vf = Some xc -> beta vf = Some b -> C vf = Some c ->
    (0 < length xc)%nat -> length c = length xc ->
    Forall (fun r => length r = w) c ->
    Forall (fun r => length r = d) x ->
    Forall (fun r => length r = d) xc ->
    ((j < w)%nat ->
     (forall v, length v = d ->
        vector_field_function cdcf (Arr1 v) vf (Some j) kernel
        = Ok (Arr0 (nth j (velocity xc c b v) 0))) /\
     ((2 <= length x)%nat ->
      vector_field_function cdcf (Arr2 x) vf (Some j) kernel
      = Ok (Arr1 (map (fun xi => nth j (velocity xc c b xi) 0) x)))) /\
    ((w <= j)%nat -> (0 < length x)%nat ->
     vector_field_function cdcf (Arr2 x) vf (Some j) kernel = Raise IndexError).
Proof.
  intros cdcf d w x xc c b vf kernel j Hk HX Hb HC Hm Hlen Hc Hx Hxc.
  assert (Hne : c <> []) by (intros ->; cbn in Hlen; lia).
  split; [intros Hj; split|].
  - intros v Hv. unfold vector_field_function.
    rewrite Hk, HX, Hb, HC. cbn [lookup bind as_points].
    assert (Hpts : Forall (fun r : list R => length r = d) [v])
      by (constructor; [exact Hv|constructor]).
    destruct (con_K_gaussian_kernel d [v] xc b "cdist" Hpts Hxc) as (HK & _).
    cbv zeta in HK. unfold ten, mat, vec in *. rewrite HK. cbn [bind length Nat.eqb].
    rewrite (getcol_in_range w c j Hc Hj). cbn [bind].
    rewrite gaussian_kernel_rows. cbn [map concat]. rewrite app_nil_r.
    unfold dot_vec, np_dot.
    match goal with |- context [(?a =? ?b)%nat] => destruct (a =? b)%nat eqn:E end;
      [|apply Nat.eqb_neq in E; exfalso; apply E;
        rewrite length_map, col_length; symmetry; exact Hlen]. cbn [bind]. rewrite (velocity_component w xc c b v j Hc Hne Hj). reflexivity.
  - intros Hn. unfold vector_field_function.
    rewrite Hk, HX, Hb, HC. cbn [lookup bind as_points].
    destruct (con_K_gaussian_kernel d x xc b "cdist" Hx Hxc) as (HK & _).
    cbv zeta in HK. unfold ten, mat, vec in *. rewrite HK. cbn [bind].
    destruct (length x =? 1)%nat eqn:E1; [apply Nat.eqb_eq in E1; lia|].
    rewrite (getcol_in_range w c j Hc Hj). cbn [bind].
    unfold dot_vec, matvec. rewrite gaussian_kernel_rows, mapM_map.
    rewrite (mapM_ok _ _ _ (fun xi => nth j (velocity xc c b xi) 0)); [reflexivity|].
    intros xi _. unfold np_dot.
    match goal with |- context [(?a =? ?b)%nat] => destruct (a =? b)%nat eqn:E end;
      [|apply Nat.eqb_neq in E; exfalso; apply E;
        rewrite length_map, col_length; symmetry; exact Hlen].
    rewrite (velocity_component w xc c b xi j Hc Hne Hj). reflexivity.
  - intros Hj Hn. unfold vector_field_function.
    rewrite Hk, HX, Hb, HC. cbn [lookup bind as_points].
    destruct (con_K_gaussian_kernel d x xc b "cdist" Hx Hxc) as (HK & _).
    cbv zeta in HK. unfold ten, mat, vec in *. rewrite HK. cbn [bind].
    rewrite (getcol_out_of_range w c j Hc Hne Hj). reflexivity.
Qed.

Lemma vector_field_function_dim_witness :
  let vf := {| X_ctrl := Some [[0]; [1]]; beta := Some 1;
               C := Some [[1; 2]; [1; 3]]; sigma := None; eta := None;
               div_cur_free_kernels := None |} in
  div_cur_free_kernels vf = None /\
  (0 < length [[0]; [1]])%nat /\
  Forall (fun r => length r = 2%nat) [[1; 2]; [1; 3]] /\
  Forall (fun r => length r = 1%nat) [[0]; [2]] /\
  Forall (fun r => length r = 1%nat) [[0]; [1]] /\
  (1 < 2)%nat /\ (2 <= length [[0]; [2]])%nat /\
  vector_field_function (fun _ _ _ _ => Raise Exception_) (Arr2 [[0]; [2]]) vf
    (Some 1%nat) "full"
  = Ok (Arr1 (map (fun xi => nth 1 (velocity [[0]; [1]] [[1; 2]; [1; 3]] 1 xi) 0)
                  [[0]; [2]])).
Proof.
  intros vf.
  assert (H1 : div_cur_free_kernels vf = None) by reflexivity.
  assert (H2 : (0 < length [[0]; [1]])%nat) by (cbn; lia).
  assert (H3 : Forall (fun r : list R => length r = 2%nat) [[1; 2]; [1; 3]])
    by (repeat constructor).
  assert (H4 : Forall (fun r : list R => length r = 1%nat) [[0]; [2]])
    by (repeat constructor).
  assert (H5 : Forall (fun r : list R => length r = 1%nat) [[0]; [1]])
    by (repeat constructor).
  assert (H6 : (1 < 2)%nat) by lia.
  assert (H7 : (2 <= length [[0]; [2]])%nat) by (cbn; lia).
  split; [exact H1|split; [exact H2|split; [exact H3|split; [exact H4|
    split; [exact H5|split; [exact H6|split; [exact H7|]]]]]]].
  exact (proj2 (proj1 (vector_field_function_dim (fun _ _ _ _ => Raise Exception_)
           1 2 [[0]; [2]] [[0]; [1]] [[1; 2]; [1; 3]] 1 vf "full" 1%nat
           H1 eq_refl eq_refl eq_refl H2 eq_refl H3 H4 H5) H6) H7).
Defined.

(** ** Instances of the general lemmas *)

Lemma find_cell_proj_closest_vertex_nearest_witness :
  (0 < 1)%nat /\ (0 < 2)%nat /\ rect2 1 2 [[0; 2]] /\ rect2 1 2 [[0; 3]] /\
  exists cv,
    find_cell_proj_closest_vertex [[0; 2]] [[0; 3]] = Ok cv /\ length cv = 2%nat.
Proof.
  assert (H1 : (0 < 1)%nat) by lia.
  assert (H2 : (0 < 2)%nat) by lia.
  assert (H3 : rect2 1 2 [[0; 2]]) by (split; [reflexivity|repeat constructor]).
  assert (H4 : rect2 1 2 [[0; 3]]) by (split; [reflexivity|repeat constructor]).
  split; [exact H1|split; [exact H2|split; [exact H3|split; [exact H4|]]]].
  destruct (proj2 (find_cell_proj_closest_vertex_nearest 1 2 2 [[0; 2]] [[0; 3]]
                     H1 H2 H3 H4) H2) as (cv & Hcv & Hlen & _).
  exists cv. split; [exact Hcv|exact Hlen].
Defined.

Lemma project2MST_single_cell_witness :
  (0 < 2)%nat /\ rect2 2 1 [[0]; [1]] /\
  exists e,
    project2MST (fun _ => mst_pair) project_point_to_line_segment mst_pair
      [[0]; [1]] [[0; 2]; [0; 0]] = Raise e.
Proof.
  assert (H1 : (0 < 2)%nat) by lia.
  assert (H2 : rect2 2 1 [[0]; [1]]) by (split; [reflexivity|repeat constructor]).
  split; [exact H1|split; [exact H2|]].
  exact (project2MST_single_cell (fun _ => mst_pair) project_point_to_line_segment
           mst_pair 2 [[0]; [1]] [[0; 2]; [0; 0]] H1 H2).
Defined.

Lemma compute_acceleration_matvec_witness :
  let X := [[0; 0; 0]] in
  let V := [[1; 0; 0]] in
  let Js := stack_last 3 3 [J_shift] in
  (0 < 3)%nat /\ (0 < length X)%nat /\
  Forall (fun r => length r = 3%nat) X /\
  vf_e1 X = Ok V /\ rect2 (length X) 3 V /\
  f_jac_shift X = Ok Js /\ rect3 3 3 (length X) Js /\
  compute_acceleration vf_e1 f_jac_shift X =
  Ok (V, Js,
      map (fun i => map (fun row => dot row (nth i V []))
                        (map (map (fun line => nth i line 0)) Js))
          (seq 0 (length X))).
Proof.
  intros X V Js.
  assert (H1 : (0 < 3)%nat) by lia.
  assert (H2 : (0 < length X)%nat) by (cbn; lia).
  assert (H3 : Forall (fun r : list R => length r = 3%nat) X) by (repeat constructor).
  assert (H4 : vf_e1 X = Ok V) by reflexivity.
  assert (H5 : rect2 (length X) 3 V) by (split; [reflexivity|repeat constructor]).
  assert (H6 : f_jac_shift X = Ok Js) by reflexivity.
  assert (H7 : rect3 3 3 (length X) Js).
  { split; [reflexivity|]. repeat constructor. }
  split; [exact H1|]. split; [exact H2|]. split; [exact H3|]. split; [exact H4|].
  split; [exact H5|]. split; [exact H6|]. split; [exact H7|].
  exact (compute_acceleration_matvec vf_e1 f_jac_shift 3 X V Js H1 H2 H3 H4 H5 H6 H7).
Defined.

Lemma order_cells_final_order_witness :
  exists co,
    order_cells 4 dp_line mst_line 3 None proj_line = Ok co /\
    minSpanningTree co = dp_mst proj_line /\
    branch_points co = select_degree_gt (Weighted_Adjacency (dp_mst proj_line)) 2.
Proof.
  assert (H : exists co, order_cells 4 dp_line mst_line 3 None proj_line = Ok co)
    by (eexists; reflexivity).
  destruct H as [co Hco]. exists co. split; [exact Hco|].
  exact (proj2 (order_cells_final_order 4 dp_line mst_line 3 None proj_line co Hco)).
Defined.

Lemma order_loop_state_monotone_witness :
  exists st',
    order_loop dp_line (Weighted_Adjacency mst_line) [3; 2; 1; 0]%nat [3; 3; 2; 1]%nat
      {| curr_state := 0; pseudotimes := zeros 4; ordering_dict := [] |}
      [0; 1; 2; 3]%nat = Ok st' /\
    (0 <= curr_state st')%nat.
Proof.
  assert (H : exists st',
    order_loop dp_line (Weighted_Adjacency mst_line) [3; 2; 1; 0]%nat [3; 3; 2; 1]%nat
      {| curr_state := 0; pseudotimes := zeros 4; ordering_dict := [] |}
      [0; 1; 2; 3]%nat = Ok st') by (eexists; reflexivity).
  destruct H as [st' Hst]. exists st'. split; [exact Hst|].
  exact (order_loop_state_monotone _ _ _ _ _ _ _ Hst).
Defined.

Lemma Jacobian_rkhs_gaussian_paths_agree_witness :
  let vf := {| X_ctrl := Some [[0]; [1]]; beta := Some 1;
               C := Some [[1]; [1]]; sigma := None; eta := None;
               div_cur_free_kernels := None |} in
  (0 < 1)%nat /\ (0 < length [[0]])%nat /\ (2 <= length [[0]; [1]])%nat /\
  Forall (fun r => length r = 1%nat) [[0]] /\
  Forall (fun r => length r = 1%nat) [[0]; [1]] /\
  Forall (fun r => length r = 1%nat) [[1]; [1]] /\
  Jacobian_rkhs_gaussian (Arr2 [[0]]) vf false =
    Ok (JTen (jacobian_closed_form 1 [[0]] [[0]; [1]] [[1]; [1]] 1)) /\
  Jacobian_rkhs_gaussian (Arr2 [[0]]) vf true =
    Jacobian_rkhs_gaussian (Arr2 [[0]]) vf false.
Proof.
  intros vf.
  assert (Hx : Forall (fun r : list R => length r = 1%nat) [[0]])
    by (repeat constructor).
  assert (Hxc : Forall (fun r : list R => length r = 1%nat) [[0]; [1]])
    by (repeat constructor).
  assert (Hc : Forall (fun r : list R => length r = 1%nat) [[1]; [1]])
    by (repeat constructor).
  split; [exact Nat.lt_0_1|]. split; [exact Nat.lt_0_1|]. split; [exact (le_n 2)|].
  split; [exact Hx|]. split; [exact Hxc|]. split; [exact Hc|].
  exact (Jacobian_rkhs_gaussian_paths_agree 1 [[0]] [[0]; [1]] [[1]; [1]] 1 vf
           eq_refl eq_refl eq_refl Nat.lt_0_1 Nat.lt_0_1 (le_n 2) eq_refl Hx Hxc Hc).
Defined.

Lemma subset_jacobian_transformation_workers_witness :
  let X := Arr2 [[0; 0]; [1; 0]; [0; 1]] in
  let Js := [[[1; 1; 1]; [2; 2; 2]]; [[3; 3; 3]; [4; 4; 4]]] in
  let fjac := fun _ : mat => Ok Js in
  rect3 2 2 (length (atleast_2d X)) Js /\
  (0 < length (atleast_2d X))%nat /\ (1 < 2)%Z /\
  subset_jacobian_transformation 4%Z fjac X Q_identity Q_identity (Some 2%Z) =
  subset_jacobian_transformation 4%Z fjac X Q_identity Q_identity (Some 1%Z).
Proof.
  intros X Js fjac.
  assert (H1 : rect3 2 2 (length (atleast_2d X)) Js).
  { split; [reflexivity|]. repeat constructor. }
  assert (H2 : (0 < length (atleast_2d X))%nat) by (cbn; lia).
  assert (H3 : (1 < 2)%Z) by lia.
  split; [exact H1|]. split; [exact H2|]. split; [exact H3|].
  exact (subset_jacobian_transformation_workers 4%Z fjac X Q_identity Q_identity
           (Some 2%Z) Js 2 2 eq_refl H1 ltac:(lia) ltac:(lia) H2
           ltac:(cbn; lia) ltac:(cbn; lia) H3).
Defined.

Lemma vector_field_function_unknown_kernel_witness :
  let vf := {| X_ctrl := Some [[0]]; beta := Some 1; C := Some [[1]];
               sigma := Some 1; eta := Some 1; div_cur_free_kernels := Some true |} in
  div_cur_free_kernels vf = Some true /\
  vector_field_function (fun _ _ _ _ => Raise Exception_) (Arr1 [0]) vf None "gaussian"
  = Raise ValueError.
Proof.
  intros vf.
  assert (H : div_cur_free_kernels vf = Some true) by reflexivity.
  split; [exact H|].
  apply (vector_field_function_unknown_kernel (fun _ _ _ _ => Raise Exception_)
           (Arr1 [0]) vf None "gaussian" true H); discriminate.
Defined.
